(** * quantmark.circuit: parsing a printed circuit back into a circuit

    A shallow embedding of [src/quantmark/circuit.py]: the three gate
    grammars, the field extractors, the record builder, the materializer and
    the reconstructor, together with the properties of the specification
    that concern them.

    Python strings are modelled as lists of characters with code points
    0..255 ([ascii]); in that range the decimal digits of [\d] are exactly
    [0]..[9], the white space of [\s] is 9..13, 28..32, 133 and 160, and
    the white space that [int] and [float] skip around a number is 9..13,
    32, 133 and 160. *)

From Stdlib Require Import Ascii String List ZArith NArith Bool Lia.
Import ListNotations.

Local Open Scope char_scope.
Local Open Scope list_scope.

(** ** Python strings *)

Module PyStr.

Definition pystr := list ascii.

(** A string literal as a Python string. *)
Definition chars (s : string) : pystr := list_ascii_of_string s.

Definition code (c : ascii) : N := N_of_ascii c.

(** [str.isspace] on one character. *)
Definition isspace (c : ascii) : bool :=
  let n := code c in
  ((9 <=? n) && (n <=? 13) || (28 <=? n) && (n <=? 32)
   || (n =? 133) || (n =? 160))%N.

(** A decimal digit (Unicode category Nd, below code point 256). *)
Definition isdigit (c : ascii) : bool :=
  let n := code c in ((48 <=? n) && (n <=? 57))%N.

Definition digit_value (c : ascii) : Z := Z.of_N (code c) - 48.

(** [s.startswith(p)]. *)
Fixpoint startswith (p s : pystr) : bool :=
  match p, s with
  | [], _ => true
  | _ :: _, [] => false
  | a :: p', b :: s' => Ascii.eqb a b && startswith p' s'
  end.

(** [sub in s]. *)
Fixpoint contains (sub s : pystr) : bool :=
  startswith sub s ||
  match s with
  | [] => false
  | _ :: s' => contains sub s'
  end.

(** The first occurrence of [sep] in [s]: the text before it and the text
    after it. *)
Fixpoint partition (sep s : pystr) : option (pystr * pystr) :=
  if startswith sep s then Some ([], skipn (length sep) s)
  else match s with
       | [] => None
       | c :: s' =>
           match partition sep s' with
           | Some (a, b) => Some (c :: a, b)
           | None => None
           end
       end.

(** [s.split(sep, 1)]: two pieces when [sep] occurs, else [s] alone. *)
Definition split1 (sep s : pystr) : list pystr :=
  match partition sep s with
  | Some (a, b) => [a; b]
  | None => [s]
  end.

(** [s.split(sep)] for a separator of one character, which is how the
    source calls it ([split(")")] and [split(',')]). *)
Fixpoint split (sep : ascii) (s : pystr) : list pystr :=
  match s with
  | [] => [[]]
  | c :: s' =>
      if Ascii.eqb c sep then [] :: split sep s'
      else match split sep s' with
           | [] => [[c]]
           | w :: ws => (c :: w) :: ws
           end
  end.

(** The white space that [int] and [float] skip before and after a
    number: the separators 28..31 are white space for [str.isspace] and
    [\s] but not here. *)
Definition isspace_number (c : ascii) : bool :=
  let n := code c in
  ((9 <=? n) && (n <=? 13) || (n =? 32) || (n =? 133) || (n =? 160))%N.

Fixpoint lstrip (s : pystr) : pystr :=
  match s with
  | [] => []
  | c :: s' => if isspace_number c then lstrip s' else s
  end.

(** The text of a number without the white space around it. *)
Definition strip (s : pystr) : pystr := rev (lstrip (rev (lstrip s))).

(** The rest of a [digitpart]: digits, each possibly preceded by one
    underscore.  Returns the digits read and the text left. *)
Fixpoint digitpart_tail (s : pystr) : pystr * pystr :=
  match s with
  | [] => ([], [])
  | c :: s' =>
      if isdigit c then
        let (d, r) := digitpart_tail s' in (c :: d, r)
      else if Ascii.eqb c "_" then
        match s' with
        | c' :: _ => if isdigit c' then digitpart_tail s' else ([], s)
        | [] => ([], s)
        end
      else ([], s)
  end.

(** [digitpart ::= digit (["_"] digit)*], read greedily. *)
Definition digitpart (s : pystr) : option (pystr * pystr) :=
  match s with
  | c :: s' =>
      if isdigit c then
        let (d, r) := digitpart_tail s' in Some (c :: d, r)
      else None
  | [] => None
  end.

Definition digits_value (d : pystr) : Z :=
  fold_left (fun acc c => 10 * acc + digit_value c)%Z d 0%Z.

(** An optional sign; [true] is minus. *)
Definition sign (s : pystr) : bool * pystr :=
  match s with
  | "-" :: r => (true, r)
  | "+" :: r => (false, r)
  | _ => (false, s)
  end.

(** [int(s)] for a string: [None] is [ValueError].  The bound that
    interpreters from version 3.11 on put on the number of digits is not
    modelled. *)
Definition int (s : pystr) : option Z :=
  let (neg, r) := sign (strip s) in
  match digitpart r with
  | Some (d, []) => Some (if neg then - digits_value d else digits_value d)%Z
  | _ => None
  end.

(** The value of a float literal, kept as the decimal it denotes
    ([mant * 10 ^ exp10]); the rounding to binary64 is not modelled. *)
Inductive pyfloat :=
| FNan
| FInf (neg : bool)
| FDec (neg : bool) (mant : Z) (exp10 : Z).

Definition lower (c : ascii) : ascii :=
  let n := code c in
  if ((65 <=? n) && (n <=? 90))%N then ascii_of_N (n + 32) else c.

Definition eqb_nocase (a b : pystr) : bool :=
  if list_eq_dec ascii_dec (map lower a) b then true else false.

(** [exponent ::= ("e" | "E") [sign] digitpart], to the end of the text. *)
Definition exponent (s : pystr) : option Z :=
  match s with
  | [] => Some 0%Z
  | c :: r =>
      if Ascii.eqb (lower c) "e" then
        let (neg, r') := sign r in
        match digitpart r' with
        | Some (d, []) =>
            Some (if neg then - digits_value d else digits_value d)%Z
        | _ => None
        end
      else None
  end.

(** [number ::= [digitpart] "." digitpart | digitpart ["."]], then the
    exponent. *)
Definition floatnumber (s : pystr) : option (Z * Z) :=
  let finish (ip fp rest : pystr) :=
    match exponent rest with
    | Some e => Some (digits_value (ip ++ fp), (e - Z.of_nat (length fp))%Z)
    | None => None
    end in
  match digitpart s with
  | Some (ip, "." :: r) =>
      match digitpart r with
      | Some (fp, rest) => finish ip fp rest
      | None => finish ip [] r
      end
  | Some (ip, rest) => finish ip [] rest
  | None =>
      match s with
      | "." :: r =>
          match digitpart r with
          | Some (fp, rest) => finish [] fp rest
          | None => None
          end
      | _ => None
      end
  end.

(** [float(s)] for a string: [None] is [ValueError]. *)
Definition float (s : pystr) : option pyfloat :=
  let (neg, r) := sign (strip s) in
  if eqb_nocase r (chars "inf") || eqb_nocase r (chars "infinity")
  then Some (FInf neg)
  else if eqb_nocase r (chars "nan") then Some FNan
  else match floatnumber r with
       | Some (m, e) => Some (FDec neg m e)
       | None => None
       end.

End PyStr.
Import PyStr.

(** ** Regular expressions, matched the way Python's [re] does *)

Module Re.

(** The character classes the patterns of the source use. *)
Inductive cclass :=
| CChar (c : ascii)   (* a literal character *)
| CDigit              (* \d *)
| CNonDigit           (* \D *)
| CDot                (* .  : anything but a newline *)
| CSpace.             (* \s *)

Definition newline : ascii := ascii_of_N 10.

Definition class_mem (cl : cclass) (a : ascii) : bool :=
  match cl with
  | CChar c => Ascii.eqb a c
  | CDigit => isdigit a
  | CNonDigit => negb (isdigit a)
  | CDot => negb (Ascii.eqb a newline)
  | CSpace => isspace a
  end.

(** Groups only capture, so they leave no trace in the syntax. *)
Inductive regex :=
| Eps
| Cls (cl : cclass)
| Cat (r1 r2 : regex)
| Alt (r1 r2 : regex)     (* r1|r2, r1 tried first *)
| Star (r : regex).       (* r*, greedy *)

(** r+ *)
Definition Plus (r : regex) : regex := Cat r (Star r).

(** r?, greedy *)
Definition Opt (r : regex) : regex := Alt r Eps.

(** Literal text. *)
Fixpoint Lit (s : pystr) : regex :=
  match s with
  | [] => Eps
  | c :: s' => Cat (Cls (CChar c)) (Lit s')
  end.

Definition Seq (rs : list regex) : regex := fold_right Cat Eps rs.

(** The patterns of a list joined by "|". *)
Fixpoint alternatives (rs : list regex) : regex :=
  match rs with
  | [] => Eps
  | [r] => r
  | r :: rs' => Alt r (alternatives rs')
  end.

(** The backtracking matcher: [run r s k] matches a prefix of [s] against
    [r] and hands the rest to [k]; when [k] refuses, the next way of
    matching [r] is tried, in the order of Python's engine (left
    alternative first, one more iteration before stopping).  An iteration
    of a star must consume a character. *)
Fixpoint run {A : Type} (r : regex) (s : pystr) (k : pystr -> option A)
  : option A :=
  match r with
  | Eps => k s
  | Cls cl =>
      match s with
      | a :: s' => if class_mem cl a then k s' else None
      | [] => None
      end
  | Cat r1 r2 => run r1 s (fun s' => run r2 s' k)
  | Alt r1 r2 =>
      match run r1 s k with
      | Some x => Some x
      | None => run r2 s k
      end
  | Star r1 =>
      (fix loop (n : nat) (s : pystr) : option A :=
         match n with
         | O => k s
         | S n' =>
             match run r1 s (fun s' => if Nat.ltb (length s') (length s)
                                       then loop n' s' else None) with
             | Some x => Some x
             | None => k s
             end
         end) (length s) s
  end.

(** [pattern.match] at the start of [s]: the text left after the match. *)
Definition match_prefix (r : regex) (s : pystr) : option pystr :=
  run r s (fun rest => Some rest).

(** A match of the whole of [s]. *)
Definition fullmatch (r : regex) (s : pystr) : bool :=
  match run r s (fun rest => match rest with [] => Some tt | _ => None end) with
  | Some _ => true
  | None => false
  end.

(** [pattern.findall(s)], as the list of the whole matches: scanning from
    the left, a match is recorded and the scan goes on where it ended (one
    character further after an empty match or where nothing matches). *)
Fixpoint findall_from (fuel : nat) (r : regex) (s : pystr) : list pystr :=
  match fuel with
  | O => []
  | S fuel' =>
      match match_prefix r s with
      | Some rest =>
          let m := firstn (length s - length rest) s in
          match m, s with
          | [], [] => [m]
          | [], _ :: s' => m :: findall_from fuel' r s'
          | _ :: _, _ => m :: findall_from fuel' r rest
          end
      | None =>
          match s with
          | [] => []
          | _ :: s' => findall_from fuel' r s'
          end
      end
  end.

Definition findall (r : regex) (s : pystr) : list pystr :=
  findall_from (S (length s)) r s.

(** What it means for a text to match, without the order of the search. *)
Inductive matches : regex -> pystr -> Prop :=
| MEps : matches Eps []
| MCls cl a : class_mem cl a = true -> matches (Cls cl) [a]
| MCat r1 r2 s1 s2 :
    matches r1 s1 -> matches r2 s2 -> matches (Cat r1 r2) (s1 ++ s2)
| MAltL r1 r2 s : matches r1 s -> matches (Alt r1 r2) s
| MAltR r1 r2 s : matches r2 s -> matches (Alt r1 r2) s
| MStarNil r : matches (Star r) []
| MStarApp r s1 s2 :
    matches r s1 -> matches (Star r) s2 -> matches (Star r) (s1 ++ s2).

(** Whether some character class of [r] admits the character [a]: every
    character of a matched text is admitted by one. *)
Fixpoint may_contain (r : regex) (a : ascii) : bool :=
  match r with
  | Eps => false
  | Cls cl => class_mem cl a
  | Cat r1 r2 | Alt r1 r2 => may_contain r1 a || may_contain r2 a
  | Star r1 => may_contain r1 a
  end.

(** [occur_in_order ms s]: the texts [ms] occur in [s] one after the other,
    from left to right and without overlap. *)
Inductive occur_in_order : list pystr -> pystr -> Prop :=
| OccNil s : occur_in_order [] s
| OccCons gap m ms rest :
    occur_in_order ms rest -> occur_in_order (m :: ms) (gap ++ m ++ rest).

End Re.
Import Re.

(** ** The grammar of [circuit.py] *)

Definition digits : regex := Plus (Cls CDigit).

(** The control indices: "(\d+,|\d+(, \d+)+)". *)
Definition control_list : regex :=
  Alt (Cat digits (Lit (chars ",")))
      (Cat digits (Plus (Cat (Lit (chars ", ")) digits))).

(** The optional control field: "(, control=\((\d+,|\d+(, \d+)+)\))?". *)
Definition control_field : regex :=
  Opt (Seq [Lit (chars ", control=("); control_list; Lit (chars ")")]).

(** The target field of a one-qubit gate: "\(target=\(\d+,\)". *)
Definition target_field : regex :=
  Seq [Lit (chars "(target=("); digits; Lit (chars ",)")].

(** "(X|Y|Z|H)\(target=\(\d+,\)(, control=\((\d+,|\d+(, \d+)+)\))?\)" *)
Definition NP_ONEQ_GATES_REGEX : regex :=
  Seq [Alt (Lit (chars "X")) (Alt (Lit (chars "Y"))
         (Alt (Lit (chars "Z")) (Lit (chars "H"))));
       target_field; control_field; Lit (chars ")")].

(** The pattern of Phase, Rx, Ry and Rz: the name, the target field, the
    optional control field, ", parameter=" and then either digits, any
    character and digits again, or else a run of non-digits (tried in this
    order), and the closing bracket. *)
Definition P_ONEQ_GATES_REGEX : regex :=
  Seq [Alt (Lit (chars "Phase")) (Alt (Lit (chars "Rx"))
         (Alt (Lit (chars "Ry")) (Lit (chars "Rz"))));
       target_field; control_field; Lit (chars ", parameter=");
       Alt (Seq [digits; Cls CDot; Star (Cls CDigit)]) (Star (Cls CNonDigit));
       Lit (chars ")")].

(** "SWAP\(target=\(\d*, \d*\)(, control=\((\d+,|\d+(, \d+)+|)\))?\)" *)
Definition SWAP_GATE_REGEX : regex :=
  Seq [Lit (chars "SWAP(target=("); Star (Cls CDigit); Lit (chars ", ");
       Star (Cls CDigit); Lit (chars ")");
       Opt (Seq [Lit (chars ", control=(");
                 Alt (Cat digits (Lit (chars ",")))
                     (Alt (Cat digits (Plus (Cat (Lit (chars ", ")) digits)))
                          Eps);
                 Lit (chars ")")]);
       Lit (chars ")")].

(** The pattern [circuit_from_string] compiles:
    the three patterns joined by "|", in this order. *)
Definition gate_regex : regex :=
  Alt NP_ONEQ_GATES_REGEX (Alt P_ONEQ_GATES_REGEX SWAP_GATE_REGEX).

(** The names of the one-qubit gates, as the two patterns list them. *)
Definition one_qubit_names : list pystr :=
  [chars "X"; chars "Y"; chars "Z"; chars "H";
   chars "Phase"; chars "Rx"; chars "Ry"; chars "Rz"].

Definition all_digits (d : pystr) : Prop :=
  Forall (fun a => isdigit a = true) d.

(** ** Exceptions and results *)

(** The exceptions the module can raise: the two classes it imports from
    [quantmark.exceptions] and the built-in ones of the language. *)
Inductive exn :=
| InvalidSyntaxError
| SameControlAndTarget
| ValueError
| IndexError
| TypeError.

(** Whether the exception is a class of the package, as opposed to a
    built-in of the language. *)
Definition quantmark_exception (e : exn) : bool :=
  match e with
  | InvalidSyntaxError | SameControlAndTarget => true
  | ValueError | IndexError | TypeError => false
  end.

Inductive result (A : Type) :=
| Ok (a : A)
| Err (e : exn).
Arguments Ok {A} a.
Arguments Err {A} e.

Definition bind {A B} (m : result A) (f : A -> result B) : result B :=
  match m with
  | Ok a => f a
  | Err e => Err e
  end.

Notation "x <- m ;; k" := (bind m (fun x => k))
  (at level 61, m at next level, right associativity).

(** A list comprehension [[f x for x in l]]: the first exception stops it. *)
Fixpoint comprehension {A B} (f : A -> result B) (l : list A)
  : result (list B) :=
  match l with
  | [] => Ok []
  | x :: l' => y <- f x ;; ys <- comprehension f l' ;; Ok (y :: ys)
  end.

(** [l[i]], for [i >= 0]. *)
Definition index {A} (l : list A) (i : nat) : result A :=
  match nth_error l i with
  | Some x => Ok x
  | None => Err IndexError
  end.

(** ** The data model *)

(** The parameter of a gate: a number or the name of a variable. *)
Inductive param :=
| PFloat (f : pyfloat)
| PStr (s : pystr).

(** The dataclass [GateDict]; [None] is the default of the last two
    fields. *)
Record GateDict := mkGateDict {
  name : pystr;
  target : list Z;
  control : option (list Z);
  parameter : option param
}.

(** The gates of tequila, as the calls that build them: the name of the
    constructor and the arguments it is given.  What tequila does with
    the arguments is not part of the model. *)
Inductive QGate :=
| Fixed (kind : pystr) (tgt : list Z) (ctl : option (list Z))
| Rotation (kind : pystr) (angle : option param) (tgt : list Z)
    (ctl : option (list Z))
| Phase (phi : option param) (tgt : list Z) (ctl : option (list Z))
| Swap (first second : Z) (ctl : option (list Z)).

(** A [QCircuit] is the sequence of its gates; a gate constructor returns
    the circuit of that one gate, and [+=] appends. *)
Definition QCircuit := list QGate.

(** ** The field extractors *)

(** [string.split(f'{data}=(', 1)[1].split(")")[0]] *)
Definition field_area (string data : pystr) : result pystr :=
  after <- index (split1 (data ++ chars "=(") string) 1 ;;
  index (split ")" after) 0.

(** [parts[:-1]] when the last part is empty, else [parts]. *)
Definition drop_empty_tail (parts : list pystr) : list pystr :=
  match last parts ["x"] with
  | [] => removelast parts
  | _ :: _ => parts
  end.

Definition to_int (n : pystr) : result Z :=
  match int n with
  | Some z => Ok z
  | None => Err ValueError
  end.

Definition get_one_gate_data_from_string (string data : pystr)
  : result (list Z) :=
  target_area <- field_area string data ;;
  let parts := split "," target_area in
  let parts := drop_empty_tail parts in
  comprehension to_int parts.

Definition get_gate_parameter (string : pystr) : result param :=
  after <- index (split1 (chars "parameter=") string) 1 ;;
  string_patrameter <- index (split ")" after) 0 ;;
  match float string_patrameter with
  | Some float_parameter => Ok (PFloat float_parameter)
  | None => Ok (PStr string_patrameter)
  end.

(** ** The record builder *)

Definition gate_string_to_dict (string : pystr) : result GateDict :=
  name <- index (split1 (chars "(") string) 0 ;;
  target <- get_one_gate_data_from_string string (chars "target") ;;
  control <-
    (if contains (chars "control") string
     then c <- get_one_gate_data_from_string string (chars "control") ;;
          Ok (Some c)
     else Ok None) ;;
  parameter <-
    (if contains (chars "parameter") string
     then p <- get_gate_parameter string ;; Ok (Some p)
     else Ok None) ;;
  Ok (mkGateDict name target control parameter).

(** ** The materializer *)

Definition str_eqb (a b : pystr) : bool :=
  if list_eq_dec ascii_dec a b then true else false.

(** [x in l] for a list of strings. *)
Definition str_in (x : pystr) (l : list pystr) : bool := existsb (str_eqb x) l.

(** [set(a) & set(b)] is not empty. *)
Definition intersect (a b : list Z) : bool :=
  existsb (fun x => existsb (Z.eqb x) b) a.

(** [gate.control and set(gate.target) & set(gate.control)]: an absent or
    empty control list is false. *)
Definition same_control_and_target (gate : GateDict) : bool :=
  match control gate with
  | None | Some [] => false
  | Some ((_ :: _) as c) => intersect (target gate) c
  end.

(** The result is [None] on the last line of the source, when no name
    fits. *)
Definition gate_from_gate_dict (gate : GateDict) : result (option QCircuit) :=
  if same_control_and_target gate then Err SameControlAndTarget
  else if str_in (name gate) [chars "X"; chars "Y"; chars "Z"; chars "H"]
  then Ok (Some [Fixed (name gate) (target gate) (control gate)])
  else if str_in (name gate) [chars "Rx"; chars "Ry"; chars "Rz"]
  then Ok (Some [Rotation (name gate) (parameter gate) (target gate)
                   (control gate)])
  else if str_in (name gate) [chars "Phase"]
  then Ok (Some [Phase (parameter gate) (target gate) (control gate)])
  else if str_in (name gate) [chars "SWAP"]
  then match target gate with
       | [first; second] => Ok (Some [Swap first second (control gate)])
       | _ => Err ValueError
       end
  else Ok None.

(** The nine gate kinds of the specification. *)
Definition supported_names : list pystr :=
  [chars "X"; chars "Y"; chars "Z"; chars "H"; chars "Phase";
   chars "Rx"; chars "Ry"; chars "Rz"; chars "SWAP"].

(** No qubit is both a control and a target of the record. *)
Definition disjoint_qubits (gate : GateDict) : Prop :=
  forall c q, control gate = Some c -> In q (target gate) -> ~ In q c.

(** ** The reconstructor *)

(** [circuit += other].  Neither Python nor tequila accepts [None] on a
    side; a gate string the grammar matched never gives one. *)
Definition iadd (circuit other : option QCircuit) : result (option QCircuit) :=
  match circuit, other with
  | Some c, Some o => Ok (Some (c ++ o))
  | _, _ => Err TypeError
  end.

(** The loop [for gate in gates: circuit += gate_from_gate_dict(gate)]. *)
Fixpoint append_gates (circuit : option QCircuit) (gates : list GateDict)
  : result (option QCircuit) :=
  match gates with
  | [] => Ok circuit
  | gate :: gates' =>
      other <- gate_from_gate_dict gate ;;
      circuit' <- iadd circuit other ;;
      append_gates circuit' gates'
  end.

Section Reconstructor.

(** [create_multiline_regex] lives in a module of its own; what
    [circuit.py] uses of it is the compiled pattern's [match], taken here as
    the test it performs on a string. *)
Variable create_multiline_regex : list regex -> pystr -> pystr -> bool.

Definition circuit_pattern : pystr -> bool :=
  create_multiline_regex
    [NP_ONEQ_GATES_REGEX; P_ONEQ_GATES_REGEX; SWAP_GATE_REGEX]
    (chars "circuit:").

Definition validate_circuit_syntax (circuit : pystr) : bool :=
  circuit_pattern circuit.

Definition circuit_from_string (circuit : pystr) : result (option QCircuit) :=
  if negb (validate_circuit_syntax circuit) then Err InvalidSyntaxError
  else
    let gates := findall gate_regex circuit in
    gates <- comprehension gate_string_to_dict gates ;;
    match gates with
    | [] => Ok None
    | first :: others =>
        circuit <- gate_from_gate_dict first ;;
        append_gates circuit others
    end.

End Reconstructor.

(** Modelled from the spec: [create_multiline_regex], of
    [quantmark/create_multiline_regex.py].  The specification of the
    validator says that the input must begin with the header, that the
    remainder is a sequence of gate occurrences, each matching one of the
    patterns, with nothing but the printer's separators between them, and
    that an empty gate sequence after a valid header is not accepted.  So:
    the header, then one or more occurrences, white space allowed before
    each and at the end, and a match of the whole string. *)
Definition create_multiline_regex (options : list regex) (first_line : pystr)
  : pystr -> bool :=
  fullmatch
    (Seq [Lit first_line;
          Plus (Cat (Star (Cls CSpace)) (alternatives options));
          Star (Cls CSpace)]).

(** The exceptions of a computation all satisfy [P]. *)
Definition raises_only {A} (P : exn -> Prop) (m : result A) : Prop :=
  forall e, m = Err e -> P e.

Definition not_syntax (e : exn) : Prop := e <> InvalidSyntaxError.

(** A header, and a SWAP gate printed without its two indices. *)
Definition swap_without_indices : pystr :=
  chars "circuit:" ++ [newline] ++ chars "SWAP(target=(, ))" ++ [newline].

(** A header and three gates, one per line. *)
Definition three_gates : pystr :=
  chars "circuit: " ++ [newline]
  ++ chars "H(target=(0,))" ++ [newline]
  ++ chars "Rx(target=(1,), parameter=0.5)" ++ [newline]
  ++ chars "X(target=(2,), control=(0,))" ++ [newline].

(** Some qubit is both a control and a target of the record. *)
Definition shares_qubit (gate : GateDict) : Prop :=
  exists c q, control gate = Some c /\ In q (target gate) /\ In q c.

(** What a gate was built from: the constructor and its arguments. *)
Definition gate_kind (g : QGate) : pystr :=
  match g with
  | Fixed kind _ _ | Rotation kind _ _ _ => kind
  | Phase _ _ _ => chars "Phase"
  | Swap _ _ _ => chars "SWAP"
  end.

Definition gate_targets (g : QGate) : list Z :=
  match g with
  | Fixed _ tgt _ | Rotation _ _ tgt _ | Phase _ tgt _ => tgt
  | Swap first second _ => [first; second]
  end.

Definition gate_controls (g : QGate) : option (list Z) :=
  match g with
  | Fixed _ _ ctl | Rotation _ _ _ ctl | Phase _ _ ctl | Swap _ _ ctl => ctl
  end.

Definition gate_angle (g : QGate) : option param :=
  match g with
  | Rotation _ angle _ _ | Phase angle _ _ => angle
  | Fixed _ _ _ | Swap _ _ _ => None
  end.

(** The names of the gates that take a parameter. *)
Definition parametrized_names : list pystr :=
  [chars "Phase"; chars "Rx"; chars "Ry"; chars "Rz"].

(** [sep.join(l)]. *)
Fixpoint join (sep : pystr) (l : list pystr) : pystr :=
  match l with
  | [] => []
  | [x] => x
  | x :: l' => x ++ sep ++ join sep l'
  end.

(** A non-empty run of digits: a qubit index as it is printed. *)
Definition printed_index (d : pystr) : Prop := d <> [] /\ all_digits d.

(** The inside of a printed tuple of indices: "" for none, "3," for one,
    "1, 2, 3" for more. *)
Definition print_tuple (ds : list pystr) : pystr :=
  match ds with
  | [d] => d ++ chars ","
  | _ => join (chars ", ") ds
  end.

(** The control field as the grammar has it: absent, or ", control=("
    with a tuple of indices and ")". *)
Definition print_control (cs : option (list pystr)) : pystr :=
  match cs with
  | None => []
  | Some ds => chars ", control=(" ++ print_tuple ds ++ chars ")"
  end.

(** The text of a gate without a parameter, of one with a parameter and of
    a SWAP, from the name, the printed indices and the parameter text. *)
Definition print_fixed_gate (nm d : pystr) (cs : option (list pystr))
  : pystr :=
  nm ++ chars "(target=(" ++ d ++ chars ",)" ++ print_control cs ++ chars ")".

Definition print_parametrized_gate (nm d : pystr) (cs : option (list pystr))
    (p : pystr) : pystr :=
  nm ++ chars "(target=(" ++ d ++ chars ",)" ++ print_control cs
     ++ chars ", parameter=" ++ p ++ chars ")".

Definition print_swap_gate (d1 d2 : pystr) (cs : option (list pystr))
  : pystr :=
  chars "SWAP(target=(" ++ d1 ++ chars ", " ++ d2 ++ chars ")"
    ++ print_control cs ++ chars ")".

(** The indices of a printed control field are printed indices. *)
Definition printed_controls (cs : option (list pystr)) : Prop :=
  match cs with
  | None => True
  | Some ds => Forall printed_index ds
  end.

(** The control indices that a printed control field stands for. *)
Definition control_values (cs : option (list pystr)) : option (list Z) :=
  option_map (map digits_value) cs.

(** A text up to its first closing bracket: [p.split(")")[0]]. *)
Definition up_to_bracket (p : pystr) : pystr := hd [] (split ")" p).

(** What [get_gate_parameter] makes of a parameter text. *)
Definition parameter_value (p : pystr) : param :=
  match float p with
  | Some number => PFloat number
  | None => PStr p
  end.

(** The pieces that [split(',')] cuts "1, 2, 3" into. *)
Definition spaced_tokens (ds : list pystr) : list pystr :=
  match ds with
  | [] => [[]]
  | d :: ds' => d :: map (cons " ") ds'
  end.

(** The two built-in exceptions of the extractors and the builder. *)
Definition index_or_value (e : exn) : Prop :=
  e = IndexError \/ e = ValueError.

(** The two exceptions of the materializer. *)
Definition same_or_value (e : exn) : Prop :=
  e = SameControlAndTarget \/ e = ValueError.

(** The iteration of a star in [run], as a function of its own: at most
    [n] more iterations of [r], each consuming something, before [k]. *)
Section StarLoop.

Context {A : Type}.
Variable r : regex.
Variable k : pystr -> option A.

Fixpoint star_loop (n : nat) (s : pystr) : option A :=
  match n with
  | O => k s
  | S n' =>
      match run r s (fun s' => if Nat.ltb (length s') (length s)
                               then star_loop n' s' else None) with
      | Some x => Some x
      | None => k s
      end
  end.

End StarLoop.

(** A continuation that refuses every text that starts with a digit. *)
Definition refuses_digits {A : Type} (k : pystr -> option A) : Prop :=
  forall c s, isdigit c = true -> k (c :: s) = None.

(** A continuation that refuses every text that does not start with a
    closing bracket. *)
Definition expects_bracket {A : Type} (k : pystr -> option A) : Prop :=
  forall c s, c <> ")" -> k (c :: s) = None.

(** The part of a control list after its first index: ", " and an index,
    any number of times. *)
Definition more_indices : regex := Cat (Lit (chars ", ")) digits.

(** A text that starts with a digit, or is empty. *)
Definition digit_or_end (b : pystr) : Prop :=
  match b with
  | [] => True
  | c :: _ => isdigit c = true
  end.

(** A text without digit and closing bracket. *)
Definition plain_text (q : pystr) : Prop :=
  forall a, In a q -> isdigit a = false /\ a <> ")".

(** A text that has no closing bracket before its first digit. *)
Definition quiet_to_digit (s : pystr) : Prop :=
  exists q b, s = q ++ b /\ plain_text q /\ digit_or_end b.

(** The control field of a SWAP, which may have no index. *)
Definition swap_control_field : regex :=
  Opt (Seq [Lit (chars ", control=(");
            Alt (Cat digits (Lit (chars ",")))
                (Alt (Cat digits (Plus (Cat (Lit (chars ", ")) digits)))
                     Eps);
            Lit (chars ")")]).

(** The names of the two one-qubit patterns and the parameter of the
    second, as they are written in them. *)
Definition fixed_name : regex :=
  Alt (Lit (chars "X")) (Alt (Lit (chars "Y"))
    (Alt (Lit (chars "Z")) (Lit (chars "H")))).

Definition parametrized_name : regex :=
  Alt (Lit (chars "Phase")) (Alt (Lit (chars "Rx"))
    (Alt (Lit (chars "Ry")) (Lit (chars "Rz")))).

Definition parameter_text : regex :=
  Alt (Seq [digits; Cls CDot; Star (Cls CDigit)]) (Star (Cls CNonDigit)).

(** The control field of a one-qubit gate has an index when it is there. *)
Definition controls_given (cs : option (list pystr)) : Prop :=
  match cs with
  | None => True
  | Some ds => ds <> [] /\ Forall printed_index ds
  end.

(** The parameter of a printed gate: a name without digit and closing
    bracket, or a number written as digits, a point and digits. *)
Definition printed_parameter (p : pystr) : Prop :=
  plain_text p \/
  exists i f, printed_index i /\ all_digits f /\ p = i ++ "." :: f.

(** A gate as it is printed: the name, the indices and the parameter, all
    as texts. *)
Inductive printed_gate :=
| PrintedFixed (nm d : pystr) (cs : option (list pystr))
| PrintedParametrized (nm d : pystr) (cs : option (list pystr)) (p : pystr)
| PrintedSwap (d1 d2 : pystr) (cs : option (list pystr)).

Definition print_gate (g : printed_gate) : pystr :=
  match g with
  | PrintedFixed nm d cs => print_fixed_gate nm d cs
  | PrintedParametrized nm d cs p => print_parametrized_gate nm d cs p
  | PrintedSwap d1 d2 cs => print_swap_gate d1 d2 cs
  end.

(** The printed gate is one that the grammar describes. *)
Definition well_printed (g : printed_gate) : Prop :=
  match g with
  | PrintedFixed nm d cs =>
      In nm [chars "X"; chars "Y"; chars "Z"; chars "H"] /\
      printed_index d /\ controls_given cs
  | PrintedParametrized nm d cs p =>
      In nm parametrized_names /\ printed_index d /\ controls_given cs /\
      printed_parameter p
  | PrintedSwap d1 d2 cs =>
      printed_index d1 /\ printed_index d2 /\ printed_controls cs
  end.

(** The record and the gate that a printed gate stands for. *)
Definition record_of_printed (g : printed_gate) : GateDict :=
  match g with
  | PrintedFixed nm d cs =>
      mkGateDict nm [digits_value d] (control_values cs) None
  | PrintedParametrized nm d cs p =>
      mkGateDict nm [digits_value d] (control_values cs)
        (Some (parameter_value p))
  | PrintedSwap d1 d2 cs =>
      mkGateDict (chars "SWAP") [digits_value d1; digits_value d2]
        (control_values cs) None
  end.

Definition gate_of_printed (g : printed_gate) : QGate :=
  match g with
  | PrintedFixed nm d cs => Fixed nm [digits_value d] (control_values cs)
  | PrintedParametrized nm d cs p =>
      if str_eqb nm (chars "Phase")
      then Phase (Some (parameter_value p)) [digits_value d]
             (control_values cs)
      else Rotation nm (Some (parameter_value p)) [digits_value d]
             (control_values cs)
  | PrintedSwap d1 d2 cs =>
      Swap (digits_value d1) (digits_value d2) (control_values cs)
  end.

(** The name of a parameter does not contain "control" when the gate has
    no control field. *)
Definition parameter_clear (g : printed_gate) : Prop :=
  match g with
  | PrintedParametrized _ _ None p => contains (chars "control") p = false
  | _ => True
  end.

(** No target of the printed gate is among its controls. *)
Definition targets_apart (g : printed_gate) : Prop :=
  ~ shares_qubit (record_of_printed g).

(** A text without the capital letters that gate names start with. *)
Definition no_gate_letter (h : pystr) : Prop :=
  forall c, In c h -> ~ In c (chars "XYZHPRS").

(** The gates of a circuit, each on a line of its own. *)
Definition print_lines (gs : list printed_gate) : pystr :=
  concat (map (fun g => print_gate g ++ [newline]) gs).

(** The gates of the three-line sample circuit, as printed. *)
Definition three_printed_gates : list printed_gate :=
  [PrintedFixed (chars "H") (chars "0") None;
   PrintedParametrized (chars "Rx") (chars "1") None (chars "0.5");
   PrintedFixed (chars "X") (chars "2") (Some [chars "0"])].

(** A text that does not start with a digit. *)
Definition no_digit_ahead (s : pystr) : Prop :=
  match s with
  | [] => True
  | c :: _ => isdigit c = false
  end.

(** ** Facts on Python strings *)

Section StringFacts.

Lemma startswith_app (p s : pystr) : startswith p (p ++ s) = true.
Proof.
  induction p as [|a p IH]; simpl; [reflexivity|].
  now rewrite Ascii.eqb_refl, IH.
Qed.

Lemma startswith_inv (p s : pystr) :
  startswith p s = true -> exists t, s = p ++ t.
Proof.
  revert s; induction p as [|a p IH]; intros s H.
  - now exists s.
  - destruct s as [|b s]; simpl in H; [discriminate|].
    apply andb_true_iff in H as [Hab H].
    apply Ascii.eqb_eq in Hab; subst b.
    destruct (IH _ H) as [t ->]. now exists t.
Qed.

Lemma skipn_length_app (p s : pystr) : skipn (length p) (p ++ s) = s.
Proof. induction p; simpl; auto. Qed.

Lemma contains_cons (sub : pystr) (c : ascii) (s : pystr) :
  contains sub (c :: s) = startswith sub (c :: s) || contains sub s.
Proof. reflexivity. Qed.

(** When [sub] occurs, its first character does. *)
Lemma contains_In (c : ascii) (sub s : pystr) :
  contains (c :: sub) s = true -> In c s.
Proof.
  induction s as [|a s IH]; simpl.
  - discriminate.
  - intros H. apply orb_true_iff in H as [H|H].
    + apply andb_true_iff in H as [H _].
      apply Ascii.eqb_eq in H. now left.
    + right. now apply IH.
Qed.

Lemma contains_app_r (sub a b : pystr) :
  contains sub b = true -> contains sub (a ++ b) = true.
Proof.
  induction a as [|c a IH]; simpl; intros H; [exact H|].
  rewrite (IH H). apply orb_true_r.
Qed.

Lemma contains_here (sub a b : pystr) : contains sub (a ++ sub ++ b) = true.
Proof.
  apply contains_app_r.
  destruct (sub ++ b) eqn:E; simpl;
    rewrite <- E, startswith_app; reflexivity.
Qed.

Lemma partition_None (sep s : pystr) :
  contains sep s = false -> partition sep s = None.
Proof.
  induction s as [|c s IH]; simpl; intros H;
    apply orb_false_iff in H as [H1 H2]; rewrite H1.
  - reflexivity.
  - now rewrite (IH H2).
Qed.

Lemma partition_Some (sep s : pystr) :
  contains sep s = true ->
  exists a b, partition sep s = Some (a, b) /\ s = a ++ sep ++ b.
Proof.
  induction s as [|c s IH]; simpl; intros H.
  - rewrite orb_false_r in H. rewrite H.
    destruct sep; [|discriminate]. now exists [], [].
  - destruct (startswith sep (c :: s)) eqn:E.
    + destruct (startswith_inv _ _ E) as [t Ht].
      exists [], t. rewrite Ht, skipn_length_app. now split.
    + simpl in H. destruct (IH H) as (a & b & -> & ->).
      exists (c :: a), b. now split.
Qed.

(** The first piece of a split ends at the first separator. *)
Lemma split_nonempty (sep : ascii) (s : pystr) : split sep s <> [].
Proof.
  destruct s as [|c s]; simpl; [discriminate|].
  destruct (Ascii.eqb c sep); [discriminate|].
  destruct (split sep s); discriminate.
Qed.

Lemma split_app_sep (sep : ascii) (a b : pystr) :
  ~ In sep a -> split sep (a ++ sep :: b) = a :: split sep b.
Proof.
  induction a as [|c a IH]; simpl; intros H.
  - now rewrite Ascii.eqb_refl.
  - destruct (Ascii.eqb c sep) eqn:E.
    + apply Ascii.eqb_eq in E. subst. exfalso. apply H. now left.
    + rewrite IH by tauto. reflexivity.
Qed.

Lemma split_no_sep (sep : ascii) (a : pystr) :
  ~ In sep a -> split sep a = [a].
Proof.
  induction a as [|c a IH]; simpl; intros H; [reflexivity|].
  destruct (Ascii.eqb c sep) eqn:E.
  - apply Ascii.eqb_eq in E. subst. exfalso. apply H. now left.
  - rewrite IH by tauto. reflexivity.
Qed.

(** A separator at the very end gives one more piece, which is empty. *)
Lemma split_trailing (sep : ascii) (a : pystr) :
  split sep (a ++ [sep]) = split sep a ++ [[]].
Proof.
  induction a as [|c a IH]; simpl.
  - now rewrite Ascii.eqb_refl.
  - destruct (Ascii.eqb c sep); rewrite IH; [reflexivity|].
    destruct (split sep a) eqn:E; [|reflexivity].
    now destruct (split_nonempty sep a).
Qed.

Lemma startswith_length (p s : pystr) :
  startswith p s = true -> length p <= length s.
Proof.
  intros H. destruct (startswith_inv _ _ H) as [t ->].
  rewrite length_app. lia.
Qed.

Lemma startswith_app_false (p x y : pystr) :
  startswith p x = false -> length p <= length x ->
  startswith p (x ++ y) = false.
Proof.
  revert x; induction p as [|a p IH]; intros x H L; [discriminate|].
  destruct x as [|b x]; simpl in *; [lia|].
  destruct (Ascii.eqb a b); simpl in *; [|reflexivity].
  apply IH; [exact H|lia].
Qed.

(** The separator is found where it first occurs: no occurrence starts
    inside [pre], which is to say that [pre] followed by the separator less
    its last character does not contain the separator. *)
Lemma partition_cons (sep : pystr) (c : ascii) (s : pystr) :
  partition sep (c :: s) =
  if startswith sep (c :: s) then Some ([], skipn (length sep) (c :: s))
  else match partition sep s with
       | Some (a, b) => Some (c :: a, b)
       | None => None
       end.
Proof. reflexivity. Qed.

Lemma partition_first (sep pre post : pystr) :
  sep <> [] ->
  contains sep (pre ++ removelast sep) = false ->
  partition sep (pre ++ sep ++ post) = Some (pre, post).
Proof.
  intros Hs. induction pre as [|c pre IH]; intros H.
  - destruct (sep ++ post) eqn:E; simpl; rewrite <- E;
      now rewrite startswith_app, skipn_length_app.
  - simpl in H. apply orb_false_iff in H as [H1 H2].
    assert (E : sep = removelast sep ++ [last sep c])
      by now apply app_removelast_last.
    assert (A : startswith sep (c :: pre ++ sep ++ post) = false).
    { replace (c :: pre ++ sep ++ post)
        with ((c :: pre ++ removelast sep) ++ (last sep c :: post)).
      - apply startswith_app_false; [exact H1|].
        rewrite E at 1. simpl. rewrite !length_app. simpl. lia.
      - simpl. f_equal. rewrite <- app_assoc. f_equal.
        rewrite E at 3. now rewrite <- app_assoc. }
    change ((c :: pre) ++ sep ++ post) with (c :: pre ++ sep ++ post).
    now rewrite partition_cons, A, (IH H2).
Qed.

Lemma startswith_app_true (p x y : pystr) :
  startswith p x = true -> startswith p (x ++ y) = true.
Proof.
  intros H. destruct (startswith_inv _ _ H) as [t ->].
  rewrite <- app_assoc. apply startswith_app.
Qed.

Lemma contains_short (sep s : pystr) :
  length s < length sep -> contains sep s = false.
Proof.
  induction s as [|c s IH]; simpl; intros L.
  - destruct sep; simpl in *; [lia|reflexivity].
  - rewrite IH by (simpl in L; lia). rewrite orb_false_r.
    destruct (startswith sep (c :: s)) eqn:E; [|reflexivity].
    apply startswith_length in E. simpl in E, L. lia.
Qed.

(** A separator that occurs has a first occurrence. *)
Lemma first_occurrence (sep s : pystr) :
  sep <> [] -> contains sep s = true ->
  exists pre post,
    s = pre ++ sep ++ post /\ contains sep (pre ++ removelast sep) = false.
Proof.
  intros Hs. induction s as [|c s IH]; intros H.
  - simpl in H. rewrite orb_false_r in H. now destruct sep.
  - destruct (startswith sep (c :: s)) eqn:E.
    + destruct (startswith_inv _ _ E) as [t Ht].
      exists [], t. split; [exact Ht|]. apply contains_short.
      rewrite (app_removelast_last c Hs) at 2.
      rewrite !length_app. simpl. lia.
    + rewrite contains_cons, E in H. simpl in H.
      destruct (IH H) as (pre & post & -> & Hp).
      exists (c :: pre), post. split; [reflexivity|].
      change ((c :: pre) ++ removelast sep) with (c :: pre ++ removelast sep).
      rewrite contains_cons, Hp, orb_false_r.
      match goal with |- ?b = false => destruct b eqn:E' end; [|reflexivity].
      apply (startswith_app_true _ _ (last sep c :: post)) in E'.
      assert (Q : (c :: pre ++ removelast sep) ++ last sep c :: post
                  = c :: pre ++ sep ++ post).
      { simpl. f_equal. rewrite <- app_assoc. f_equal.
        rewrite (app_removelast_last c Hs) at 3. now rewrite <- app_assoc. }
      rewrite Q in E'. congruence.
Qed.

(** A text up to its first separator, and what is left. *)
Lemma first_piece (sep : ascii) (s : pystr) :
  exists tok rest,
    s = tok ++ rest /\ ~ In sep tok /\
    (rest = [] \/ exists r, rest = sep :: r).
Proof.
  induction s as [|c s (tok & rest & -> & Ht & Hr)].
  - exists [], []. repeat split; auto.
  - destruct (Ascii.eqb c sep) eqn:E.
    + apply Ascii.eqb_eq in E. subst c.
      exists [], (sep :: tok ++ rest). repeat split; eauto.
    + exists (c :: tok), rest. repeat split; [|exact Hr].
      intros [->|H]; [|contradiction].
      now rewrite Ascii.eqb_refl in E.
Qed.

(** The first piece of a split: the text up to the first separator. *)
Lemma split_head (sep : ascii) (tok rest : pystr) :
  ~ In sep tok -> rest = [] \/ (exists r, rest = sep :: r) ->
  exists ws, split sep (tok ++ rest) = tok :: ws.
Proof.
  intros Ht [->|[r ->]].
  - rewrite app_nil_r, split_no_sep by exact Ht. now exists [].
  - rewrite split_app_sep by exact Ht. eauto.
Qed.

End StringFacts.

(** ** Facts on the matcher *)

Section MatcherFacts.

Lemma matches_Seq_cons (r : regex) (rs : list regex) (s : pystr) :
  matches (Seq (r :: rs)) s ->
  exists s1 s2, s = s1 ++ s2 /\ matches r s1 /\ matches (Seq rs) s2.
Proof. simpl. inversion 1; subst. eauto. Qed.

Lemma matches_Cat_inv (r1 r2 : regex) (s : pystr) :
  matches (Cat r1 r2) s ->
  exists s1 s2, s = s1 ++ s2 /\ matches r1 s1 /\ matches r2 s2.
Proof. inversion 1; subst. eauto. Qed.

Lemma matches_Alt_inv (r1 r2 : regex) (s : pystr) :
  matches (Alt r1 r2) s -> matches r1 s \/ matches r2 s.
Proof. inversion 1; subst; auto. Qed.

Lemma matches_Eps_inv (s : pystr) : matches Eps s -> s = [].
Proof. now inversion 1. Qed.

Lemma matches_Lit_inv (l s : pystr) : matches (Lit l) s -> s = l.
Proof.
  revert s; induction l as [|c l IH]; simpl; intros s H.
  - now apply matches_Eps_inv.
  - apply matches_Cat_inv in H as (s1 & s2 & -> & H1 & H2).
    inversion H1; subst. simpl in *.
    match goal with E : Ascii.eqb _ _ = true |- _ =>
      apply Ascii.eqb_eq in E; subst end.
    now rewrite (IH _ H2).
Qed.

(** Every character of a matched text is admitted by a class of the
    pattern. *)
Lemma matches_may_contain (r : regex) (s : pystr) :
  matches r s -> forall a, In a s -> may_contain r a = true.
Proof.
  induction 1; simpl; intros x Hx.
  - contradiction.
  - destruct Hx as [<-|[]]. assumption.
  - apply in_app_or in Hx as [Hx|Hx]; apply orb_true_iff; auto.
  - apply orb_true_iff; auto.
  - apply orb_true_iff; auto.
  - contradiction.
  - apply in_app_or in Hx as [Hx|Hx]; [now apply IHmatches1|].
    now apply (IHmatches2 x).
Qed.

(** The matcher is sound: what it accepts splits into a text that matches
    and a rest that the continuation accepted. *)
Lemma run_sound {A : Type} (r : regex) :
  forall (s : pystr) (k : pystr -> option A) (x : A),
    run r s k = Some x ->
    exists s1 s2, s = s1 ++ s2 /\ matches r s1 /\ k s2 = Some x.
Proof.
  induction r as [|cl|r1 IH1 r2 IH2|r1 IH1 r2 IH2|r IH]; intros s k x H.
  - exists [], s. repeat split; [constructor|exact H].
  - simpl in H. destruct s as [|a s]; [discriminate|].
    destruct (class_mem cl a) eqn:E; [|discriminate].
    exists [a], s. repeat split; [now constructor|exact H].
  - simpl in H. apply IH1 in H as (s1 & s2 & -> & M1 & H).
    apply IH2 in H as (s3 & s4 & -> & M2 & H).
    exists (s1 ++ s3), s4. rewrite app_assoc.
    repeat split; [now constructor|exact H].
  - simpl in H. destruct (run r1 s k) eqn:E.
    + injection H as ->. apply IH1 in E as (s1 & s2 & -> & M & E).
      exists s1, s2. repeat split; [now apply MAltL|exact E].
    + apply IH2 in H as (s1 & s2 & -> & M & H).
      exists s1, s2. repeat split; [now apply MAltR|exact H].
  - simpl in H. revert H. generalize (length s) as n. intros n; revert s.
    induction n as [|n IHn]; intros s H.
    + exists [], s. repeat split; [constructor|exact H].
    + match type of H with
      | match ?t with _ => _ end = _ => destruct t eqn:E
      end.
      * injection H as ->. apply IH in E as (s1 & s2 & -> & M & E).
        destruct (Nat.ltb (length s2) (length (s1 ++ s2))); [|discriminate].
        apply IHn in E as (s3 & s4 & -> & M' & E).
        exists (s1 ++ s3), s4. rewrite app_assoc.
        repeat split; [now constructor|exact E].
      * exists [], s. repeat split; [constructor|exact H].
Qed.

Lemma match_prefix_sound (r : regex) (s rest : pystr) :
  match_prefix r s = Some rest -> exists m, s = m ++ rest /\ matches r m.
Proof.
  unfold match_prefix. intros H.
  apply run_sound in H as (s1 & s2 & -> & M & H).
  injection H as ->. eauto.
Qed.

Lemma fullmatch_sound (r : regex) (s : pystr) :
  fullmatch r s = true -> matches r s.
Proof.
  unfold fullmatch. intros H.
  destruct (run r s _) eqn:E; [|discriminate].
  apply run_sound in E as (s1 & s2 & -> & M & E).
  destruct s2; [|discriminate]. now rewrite app_nil_r.
Qed.

(** A run of one class. *)
Lemma matches_Star_Cls (cl : cclass) (s : pystr) :
  matches (Star (Cls cl)) s -> Forall (fun a => class_mem cl a = true) s.
Proof.
  remember (Star (Cls cl)) as r eqn:E. induction 1; try discriminate.
  - constructor.
  - injection E as ->. inversion H; subst. constructor; auto.
Qed.

Lemma matches_digits (s : pystr) :
  matches digits s -> s <> [] /\ Forall (fun a => isdigit a = true) s.
Proof.
  unfold digits, Plus. intros H.
  apply matches_Cat_inv in H as (s1 & s2 & -> & H1 & H2).
  inversion H1; subst. apply matches_Star_Cls in H2. split.
  - discriminate.
  - constructor; assumption.
Qed.

End MatcherFacts.

(** ** Facts on [int] *)

Section IntFacts.

Lemma digit_not_space (c : ascii) :
  isdigit c = true -> isspace_number c = false.
Proof.
  destruct c as [[] [] [] [] [] [] [] []]; intros H;
    solve [reflexivity | discriminate H].
Qed.

Lemma digit_no_sign (c : ascii) (r : pystr) :
  isdigit c = true -> sign (c :: r) = (false, c :: r).
Proof.
  destruct c as [[] [] [] [] [] [] [] []]; intros H;
    solve [reflexivity | discriminate H].
Qed.

Lemma lstrip_id (c : ascii) (s : pystr) :
  isspace_number c = false -> lstrip (c :: s) = c :: s.
Proof. intros H. simpl. now rewrite H. Qed.

Lemma digitpart_tail_digits (d : pystr) :
  Forall (fun a => isdigit a = true) d -> digitpart_tail d = (d, []).
Proof.
  induction 1 as [|c d Hc _ IH]; simpl; [reflexivity|].
  now rewrite Hc, IH.
Qed.

Lemma strip_digits (d : pystr) :
  Forall (fun a => isdigit a = true) d -> strip d = d.
Proof.
  intros H. unfold strip.
  assert (L : forall t, Forall (fun a => isdigit a = true) t -> lstrip t = t).
  { intros t Ht. destruct Ht as [|c t Hc _]; [reflexivity|].
    apply lstrip_id. now apply digit_not_space. }
  rewrite (L d H), L by now apply Forall_rev.
  apply rev_involutive.
Qed.

(** [int] reads a non-empty run of digits as its decimal value. *)
Lemma int_digits (d : pystr) :
  d <> [] -> Forall (fun a => isdigit a = true) d ->
  int d = Some (digits_value d).
Proof.
  intros Hne H. unfold int. rewrite (strip_digits _ H).
  destruct H as [|c d Hc Hd]; [contradiction|].
  rewrite (digit_no_sign c d Hc). unfold digitpart.
  now rewrite Hc, (digitpart_tail_digits _ Hd).
Qed.

Lemma comprehension_Err (l : list pystr) :
  (exists tok, In tok l /\ int tok = None) ->
  comprehension to_int l = Err ValueError.
Proof.
  intros (tok & Hin & Htok). induction l as [|x l IH]; [contradiction|].
  simpl. unfold to_int at 1. destruct (int x) eqn:E; simpl.
  - destruct Hin as [->|Hin]; [congruence|].
    now rewrite (IH Hin).
  - reflexivity.
Qed.

Lemma drop_empty_tail_trailing (l : list pystr) :
  drop_empty_tail (l ++ [[]]) = l.
Proof.
  unfold drop_empty_tail. rewrite last_last. apply removelast_last.
Qed.

End IntFacts.

(** ** The shape of the gate strings *)

Ltac invert_matches :=
  repeat match goal with
    | H : matches (Seq (_ :: _)) _ |- _ =>
        apply matches_Seq_cons in H as (? & ? & -> & ? & ?)
    | H : matches (Seq []) _ |- _ => apply matches_Eps_inv in H; subst
    | H : matches (Cat _ _) _ |- _ =>
        apply matches_Cat_inv in H as (? & ? & -> & ? & ?)
    | H : matches (Lit _) _ |- _ => apply matches_Lit_inv in H; subst
    | H : matches Eps _ |- _ => apply matches_Eps_inv in H; subst
    | H : matches (Alt _ _) _ |- _ => apply matches_Alt_inv in H as [H|H]
    | H : matches (Opt _) _ |- _ => apply matches_Alt_inv in H as [H|H]
    end.

Section GateShapes.

(** A text that the pattern of a one-qubit gate matches starts with the
    name and a target field of one index. *)
Lemma one_qubit_shape (s : pystr) :
  matches NP_ONEQ_GATES_REGEX s \/ matches P_ONEQ_GATES_REGEX s ->
  exists nm d rest,
    s = nm ++ chars "(target=(" ++ d ++ chars ",)" ++ rest /\
    In nm one_qubit_names /\ d <> [] /\ all_digits d.
Proof.
  unfold NP_ONEQ_GATES_REGEX, P_ONEQ_GATES_REGEX, target_field.
  intros [H|H];
    apply matches_Seq_cons in H as (nm & s2 & -> & Hn & H);
    apply matches_Seq_cons in H as (tf & rest & -> & Ht & _);
    apply matches_Seq_cons in Ht as (l1 & t2 & -> & Hl1 & Ht);
    apply matches_Seq_cons in Ht as (d & t3 & -> & Hd & Ht);
    apply matches_Seq_cons in Ht as (l2 & t4 & -> & Hl2 & Ht);
    apply matches_Eps_inv in Ht; subst t4;
    apply matches_Lit_inv in Hl1, Hl2; subst l1 l2;
    apply matches_digits in Hd as [Hd1 Hd2];
    exists nm, d, rest; rewrite app_nil_r, <- !app_assoc;
    (split; [reflexivity|]); (split; [|now split]);
    invert_matches; simpl; tauto.
Qed.

(** A text that a gate pattern matches starts with a capital letter of a
    gate name. *)
Lemma gate_first_char (s : pystr) :
  matches gate_regex s ->
  exists c s', s = c :: s' /\ In c (chars "XYZHPRS").
Proof.
  unfold gate_regex. intros H.
  apply matches_Alt_inv in H as [H|H];
    [|apply matches_Alt_inv in H as [H|H]].
  - destruct (one_qubit_shape _ (or_introl H)) as (nm & d & r & -> & Hn & _).
    simpl in Hn.
    repeat (destruct Hn as [<-|Hn]; [eexists _, _; split;
      [reflexivity|simpl; tauto]|]). contradiction.
  - destruct (one_qubit_shape _ (or_intror H)) as (nm & d & r & -> & Hn & _).
    simpl in Hn.
    repeat (destruct Hn as [<-|Hn]; [eexists _, _; split;
      [reflexivity|simpl; tauto]|]). contradiction.
  - unfold SWAP_GATE_REGEX in H.
    apply matches_Seq_cons in H as (l & r & -> & Hl & _).
    apply matches_Lit_inv in Hl; subst l.
    eexists _, _; split; [reflexivity|simpl; tauto].
Qed.

End GateShapes.

(** ** The materializer *)

Section Materializer.

Lemma intersect_true (a b : list Z) (q : Z) :
  In q a -> In q b -> intersect a b = true.
Proof.
  intros Ha Hb. unfold intersect. apply existsb_exists.
  exists q. split; [exact Ha|]. apply existsb_exists.
  exists q. split; [exact Hb|apply Z.eqb_refl].
Qed.

Lemma intersect_false (a b : list Z) :
  (forall q, In q a -> ~ In q b) -> intersect a b = false.
Proof.
  intros H. destruct (intersect a b) eqn:E; [|reflexivity].
  apply existsb_exists in E as (q & Ha & E).
  apply existsb_exists in E as (q' & Hb & E).
  apply Z.eqb_eq in E. subst q'. now destruct (H q Ha).
Qed.

Lemma str_in_In (x : pystr) (l : list pystr) :
  str_in x l = true <-> In x l.
Proof.
  unfold str_in. rewrite existsb_exists. split.
  - intros (y & Hy & E). unfold str_eqb in E.
    destruct (list_eq_dec ascii_dec x y); [now subst|discriminate].
  - intros H. exists x. split; [exact H|]. unfold str_eqb.
    destruct (list_eq_dec ascii_dec x x); [reflexivity|contradiction].
Qed.

Lemma str_in_false (x : pystr) (l : list pystr) :
  ~ In x l -> str_in x l = false.
Proof.
  intros H. destruct (str_in x l) eqn:E; [|reflexivity].
  apply str_in_In in E. contradiction.
Qed.

(** C2: a record whose controls and targets share a qubit index raises
    SameControlAndTarget, whatever its name (the check comes before the
    dispatch on the name) and however the record was made. *)
Theorem shared_qubit_raises (gate : GateDict) (c : list Z) (q : Z) :
  control gate = Some c -> In q (target gate) -> In q c ->
  gate_from_gate_dict gate = Err SameControlAndTarget.
Proof.
  intros Hc Ht Hq. unfold gate_from_gate_dict, same_control_and_target.
  rewrite Hc. destruct c as [|x c]; [contradiction|].
  cbv beta iota. now rewrite (intersect_true _ _ _ Ht Hq).
Qed.

Lemma shared_qubit_raises_witness :
  gate_from_gate_dict
    (mkGateDict (chars "Unknown") [0%Z] (Some [0%Z]) None)
  = Err SameControlAndTarget.
Proof.
  apply (shared_qubit_raises _ [0%Z] 0%Z); simpl; auto.
Defined.

(** C3, as the code has it: a record whose name is outside the nine
    supported kinds, with disjoint controls and targets, makes
    [gate_from_gate_dict] return [None]; nothing is raised. *)
Theorem unsupported_name_returns_None (gate : GateDict) :
  ~ In (name gate) supported_names -> disjoint_qubits gate ->
  gate_from_gate_dict gate = Ok None.
Proof.
  intros Hn Hd. unfold gate_from_gate_dict.
  assert (S : same_control_and_target gate = false).
  { unfold same_control_and_target.
    destruct (control gate) as [[|x c]|] eqn:E; try reflexivity.
    apply intersect_false. intros q Hq. exact (Hd _ _ E Hq). }
  rewrite S.
  rewrite !str_in_false; [reflexivity| | | |];
    intros H; apply Hn; unfold supported_names; simpl in *; tauto.
Qed.

Lemma unsupported_name_returns_None_witness :
  gate_from_gate_dict (mkGateDict (chars "CNOT") [1%Z] (Some [0%Z]) None)
  = Ok None.
Proof.
  apply unsupported_name_returns_None.
  - simpl. intros H.
    repeat (destruct H as [H|H]; [discriminate H|]). exact H.
  - intros c q Hc Hq. simpl in *. injection Hc as <-.
    destruct Hq as [<-|[]]. simpl. intros [H|[]]. discriminate H.
Defined.

(** C3 as the specification words it does not hold: for the record of an
    unknown gate nothing is raised, the result is [None]. *)
Lemma unsupported_name_no_error :
  let gate := mkGateDict (chars "CNOT") [1%Z] (Some [0%Z]) None in
  ~ In (name gate) supported_names /\ disjoint_qubits gate /\
  ~ exists e, gate_from_gate_dict gate = Err e.
Proof.
  simpl. split; [|split].
  - intros H. repeat (destruct H as [H|H]; [discriminate H|]). exact H.
  - intros c q Hc Hq. simpl in *. injection Hc as <-.
    destruct Hq as [<-|[]]. simpl. intros [H|[]]. discriminate H.
  - intros [e H]. vm_compute in H. discriminate H.
Qed.

End Materializer.

(** ** The field extractors *)

Section Extractors.

Lemma field_area_found (string data pre tok rest : pystr) :
  contains (data ++ chars "=(") (pre ++ removelast (data ++ chars "=("))
    = false ->
  ~ In ")" tok -> rest = [] \/ (exists r, rest = ")" :: r) ->
  string = pre ++ (data ++ chars "=(") ++ tok ++ rest ->
  field_area string data = Ok tok.
Proof.
  intros Hp Ht Hr ->. unfold field_area, split1.
  rewrite partition_first; [|now destruct data|exact Hp].
  simpl. destruct (split_head _ _ _ Ht Hr) as [ws ->]. reflexivity.
Qed.

(** C5, as the code has it: when a token of the named field (one that is
    left after a trailing empty piece is dropped) is not a valid integer,
    the extractor fails with the built-in ValueError that [int] raises; it
    is not an exception of the package. *)
Theorem non_integer_token_raises_ValueError (string data area tok : pystr) :
  field_area string data = Ok area ->
  In tok (drop_empty_tail (split "," area)) -> int tok = None ->
  get_one_gate_data_from_string string data = Err ValueError /\
  quantmark_exception ValueError = false.
Proof.
  intros Ha Hin Htok. split; [|reflexivity].
  unfold get_one_gate_data_from_string. rewrite Ha. simpl.
  apply comprehension_Err. eauto.
Qed.

Lemma non_integer_token_raises_ValueError_witness :
  get_one_gate_data_from_string
    (chars "X(target=(0,), control=(1, b))") (chars "control")
  = Err ValueError /\ quantmark_exception ValueError = false.
Proof.
  apply (non_integer_token_raises_ValueError _ _ (chars "1, b") (chars " b"));
    [reflexivity|simpl; auto|reflexivity].
Defined.

(** C5 as the specification words it does not hold: the failure on a
    non-integer token is an exception of the language, not a condition
    that the package names. *)
Lemma non_integer_token_builtin_error :
  exists e,
    get_one_gate_data_from_string (chars "X(target=(a,))") (chars "target")
    = Err e /\ quantmark_exception e = false.
Proof. exists ValueError. split; reflexivity. Qed.

(** C9: when the bracketed contents of the named field end with the list
    separator, the empty piece after it is dropped and the pieces before
    it are parsed: the result is what parsing the contents without that
    last separator gives, so that control=(3,) yields [3]. *)
Theorem trailing_separator_discarded (string data body : pystr) :
  field_area string data = Ok (body ++ chars ",") ->
  get_one_gate_data_from_string string data
  = comprehension to_int (split "," body).
Proof.
  intros Ha. unfold get_one_gate_data_from_string. rewrite Ha. simpl.
  change (chars ",") with [","].
  now rewrite split_trailing, drop_empty_tail_trailing.
Qed.

Lemma trailing_separator_discarded_witness :
  get_one_gate_data_from_string
    (chars "X(target=(0,), control=(3,))") (chars "control")
  = Ok [3%Z].
Proof.
  rewrite (trailing_separator_discarded _ _ (chars "3")); reflexivity.
Defined.

(** C8: the parameter is the text that follows the first "parameter=", up
    to the next closing bracket.  [get_gate_parameter] tries it as a
    number first and returns the float when [float] accepts it; otherwise
    it returns the text itself, as a string, and raises nothing.  A float
    and a string are different kinds of result. *)
Theorem parameter_is_float_or_name (pre tok rest : pystr) :
  contains (chars "parameter=") (pre ++ chars "parameter") = false ->
  ~ In ")" tok -> rest = [] \/ (exists r, rest = ")" :: r) ->
  get_gate_parameter (pre ++ chars "parameter=" ++ tok ++ rest)
  = Ok (match float tok with
        | Some number => PFloat number
        | None => PStr tok
        end) /\
  forall number text, PFloat number <> PStr text.
Proof.
  intros Hp Ht Hr. split; [|discriminate].
  unfold get_gate_parameter, split1.
  rewrite partition_first; [|discriminate|exact Hp].
  simpl. destruct (split_head _ _ _ Ht Hr) as [ws ->]. simpl.
  destruct (float tok); reflexivity.
Qed.

(** Every text that contains "parameter=" is of the form that the theorem
    covers. *)
Lemma parameter_field_found (string : pystr) :
  contains (chars "parameter=") string = true ->
  exists pre tok rest,
    string = pre ++ chars "parameter=" ++ tok ++ rest /\
    contains (chars "parameter=") (pre ++ chars "parameter") = false /\
    ~ In ")" tok /\ (rest = [] \/ exists r, rest = ")" :: r).
Proof.
  intros H. apply first_occurrence in H as (pre & post & -> & Hp);
    [|discriminate].
  destruct (first_piece ")" post) as (tok & rest & -> & Ht & Hr).
  exists pre, tok, rest. auto.
Qed.

Lemma parameter_is_float_or_name_witness :
  get_gate_parameter (chars "Rx(target=(0,), parameter=1.57)")
  = Ok (PFloat (FDec false 157 (-2))) /\
  get_gate_parameter (chars "Rx(target=(0,), parameter=theta)")
  = Ok (PStr (chars "theta")).
Proof.
  split.
  - apply (parameter_is_float_or_name
             (chars "Rx(target=(0,), ") (chars "1.57") (chars ")"));
      [reflexivity| |right; now exists []].
    simpl. intros H. repeat (destruct H as [H|H]; [discriminate H|]). exact H.
  - apply (parameter_is_float_or_name
             (chars "Rx(target=(0,), ") (chars "theta") (chars ")"));
      [reflexivity| |right; now exists []].
    simpl. intros H. repeat (destruct H as [H|H]; [discriminate H|]). exact H.
Defined.

End Extractors.

(** ** The record builder *)

Section RecordBuilder.

Lemma bind_Ok {A B} (m : result A) (f : A -> result B) (b : B) :
  bind m f = Ok b -> exists a, m = Ok a /\ f a = Ok b.
Proof. destruct m as [a|e]; simpl; [eauto|discriminate]. Qed.

Lemma digit_in (d : pystr) (c : ascii) :
  all_digits d -> isdigit c = false -> ~ In c d.
Proof.
  intros Hd Hc Hin. unfold all_digits in Hd. rewrite Forall_forall in Hd.
  apply Hd in Hin. congruence.
Qed.

(** The target of a one-qubit gate string is read as its one index,
    whatever follows the target field. *)
Lemma one_qubit_target (nm d rest : pystr) :
  In nm one_qubit_names -> d <> [] -> all_digits d ->
  get_one_gate_data_from_string
    (nm ++ chars "(target=(" ++ d ++ chars ",)" ++ rest) (chars "target")
  = Ok [digits_value d].
Proof.
  intros Hn Hne Hd. unfold get_one_gate_data_from_string.
  rewrite (field_area_found _ (chars "target") (nm ++ chars "(")
             (d ++ chars ",") (")" :: rest)).
  - simpl. change (chars ",") with [","].
    rewrite split_trailing, drop_empty_tail_trailing.
    rewrite split_no_sep by (apply digit_in; [exact Hd|reflexivity]).
    simpl. unfold to_int. now rewrite int_digits.
  - simpl in Hn.
    repeat (destruct Hn as [<-|Hn]; [reflexivity|]). contradiction.
  - intros H. apply in_app_or in H as [H|[H|[]]]; [|discriminate H].
    revert H. apply digit_in; [exact Hd|reflexivity].
  - right. eauto.
  - rewrite <- !app_assoc. reflexivity.
Qed.

Lemma split1_head (sep s : pystr) :
  exists x, index (split1 sep s) 0 = Ok x.
Proof.
  unfold split1, index. destruct (partition sep s) as [[a b]|]; simpl; eauto.
Qed.

(** Without the text "data=(" the extractor has nothing to index. *)
Lemma missing_field_raises_IndexError (string data : pystr) :
  contains (data ++ chars "=(") string = false ->
  get_one_gate_data_from_string string data = Err IndexError.
Proof.
  intros H. unfold get_one_gate_data_from_string, field_area, split1.
  now rewrite partition_None.
Qed.

(** The builder attaches a parameter only when the text contains
    "parameter". *)
Lemma parameter_follows_text (string : pystr) (gate : GateDict) :
  gate_string_to_dict string = Ok gate ->
  contains (chars "parameter") string = false -> parameter gate = None.
Proof.
  unfold gate_string_to_dict. intros H Hp. rewrite Hp in H.
  apply bind_Ok in H as (nm & _ & H).
  apply bind_Ok in H as (tg & _ & H).
  apply bind_Ok in H as (ct & _ & H).
  simpl in H. injection H as <-. reflexivity.
Qed.

Lemma fixed_gate_text_has_no_parameter (s : pystr) :
  matches NP_ONEQ_GATES_REGEX s \/ matches SWAP_GATE_REGEX s ->
  contains (chars "parameter") s = false.
Proof.
  intros H. destruct (contains (chars "parameter") s) eqn:E; [|reflexivity].
  apply contains_In in E.
  destruct H as [H|H]; apply (matches_may_contain _ _ H) in E;
    vm_compute in E; discriminate E.
Qed.

(** C4, as the code has it: the builder looks for the text "parameter",
    not at the gate kind; a gate string that the pattern of X, Y, Z and H
    or the pattern of SWAP matches never contains that text, so its record
    has no parameter. *)
Theorem fixed_gate_has_no_parameter (string : pystr) (gate : GateDict) :
  fullmatch NP_ONEQ_GATES_REGEX string = true \/
  fullmatch SWAP_GATE_REGEX string = true ->
  gate_string_to_dict string = Ok gate ->
  parameter gate = None.
Proof.
  intros H Hg. apply (parameter_follows_text _ _ Hg).
  apply fixed_gate_text_has_no_parameter.
  destruct H as [H|H]; [left|right]; now apply fullmatch_sound.
Qed.

Lemma fixed_gate_has_no_parameter_witness :
  exists gate,
    fullmatch SWAP_GATE_REGEX (chars "SWAP(target=(0, 1), control=(3,))")
    = true /\
    gate_string_to_dict (chars "SWAP(target=(0, 1), control=(3,))")
    = Ok gate /\
    target gate = [0%Z; 1%Z] /\ parameter gate = None.
Proof.
  exists (mkGateDict (chars "SWAP") [0%Z; 1%Z] (Some [3%Z]) None).
  split; [reflexivity|]. split; [reflexivity|]. split; [reflexivity|].
  apply (fixed_gate_has_no_parameter
           (chars "SWAP(target=(0, 1), control=(3,))"));
    [right; reflexivity|reflexivity].
Defined.

(** C4 as the specification words it does not hold: given a text that
    starts with the name X and contains a parameter field, the builder
    attaches the parameter. *)
Lemma parameter_attached_to_X :
  exists gate,
    gate_string_to_dict (chars "X(target=(0,), parameter=1.5)") = Ok gate /\
    name gate = chars "X" /\
    parameter gate = Some (PFloat (FDec false 15 (-1))).
Proof. eexists. repeat split. Qed.

Lemma swap_control_text (s : pystr) :
  matches SWAP_GATE_REGEX s -> contains (chars "control") s = true ->
  contains (chars "control=(") s = true.
Proof.
  unfold SWAP_GATE_REGEX. intros H Hc.
  apply matches_Seq_cons in H as (l1 & s1 & -> & Hl1 & H).
  apply matches_Seq_cons in H as (d1 & s2 & -> & Hd1 & H).
  apply matches_Seq_cons in H as (l2 & s3 & -> & Hl2 & H).
  apply matches_Seq_cons in H as (d2 & s4 & -> & Hd2 & H).
  apply matches_Seq_cons in H as (l3 & s5 & -> & Hl3 & H).
  apply matches_Seq_cons in H as (opt & s6 & -> & Ho & H).
  apply matches_Seq_cons in H as (l4 & s7 & -> & Hl4 & H).
  apply matches_Eps_inv in H. subst s7.
  apply matches_Lit_inv in Hl1, Hl2, Hl3, Hl4. subst l1 l2 l3 l4.
  apply matches_Star_Cls in Hd1, Hd2.
  apply matches_Alt_inv in Ho as [Ho|Ho].
  - apply matches_Seq_cons in Ho as (l5 & s8 & -> & Hl5 & _).
    apply matches_Lit_inv in Hl5. subst l5.
    match goal with |- contains _ ?t = true =>
      replace t with
        ((chars "SWAP(target=(" ++ d1 ++ chars ", " ++ d2 ++ chars "), ")
           ++ chars "control=(" ++ s8 ++ chars ")")
        by (rewrite <- !app_assoc; reflexivity)
    end.
    apply contains_here.
  - apply matches_Eps_inv in Ho. subst opt. exfalso.
    apply contains_In in Hc.
    repeat (apply in_app_or in Hc as [Hc|Hc]);
      try (simpl in Hc;
           repeat (destruct Hc as [Hc|Hc]; [discriminate Hc|]); exact Hc);
      revert Hc; apply digit_in; assumption || reflexivity.
Qed.

(** C10: a gate string that the grammar matches and that contains the text
    "control" without the field opening "control=(" makes the builder call
    the control extractor, which raises the built-in IndexError; no record
    is produced. *)
Theorem control_text_without_field_raises_IndexError (string : pystr) :
  fullmatch gate_regex string = true ->
  contains (chars "control") string = true ->
  contains (chars "control=(") string = false ->
  gate_string_to_dict string = Err IndexError /\
  quantmark_exception IndexError = false.
Proof.
  intros Hm Hc Hf. split; [|reflexivity].
  apply fullmatch_sound in Hm. unfold gate_regex in Hm.
  assert (Q : matches NP_ONEQ_GATES_REGEX string \/
              matches P_ONEQ_GATES_REGEX string).
  { apply matches_Alt_inv in Hm as [Hm|Hm]; [now left|].
    apply matches_Alt_inv in Hm as [Hm|Hm]; [now right|].
    rewrite (swap_control_text _ Hm Hc) in Hf. discriminate Hf. }
  destruct (one_qubit_shape _ Q) as (nm & d & rest & E & Hn & Hne & Hd).
  assert (T : get_one_gate_data_from_string string (chars "target")
              = Ok [digits_value d])
    by (rewrite E; now apply one_qubit_target).
  unfold gate_string_to_dict.
  destruct (split1_head (chars "(") string) as [x ->].
  rewrite T, Hc, (missing_field_raises_IndexError _ (chars "control") Hf).
  reflexivity.
Qed.

Lemma control_text_without_field_raises_IndexError_witness :
  gate_string_to_dict (chars "Rx(target=(0,), parameter=control_t)")
  = Err IndexError /\ quantmark_exception IndexError = false.
Proof.
  apply control_text_without_field_raises_IndexError; reflexivity.
Defined.

End RecordBuilder.

(** ** The scan for gates *)

Section Scan.

Lemma occur_in_order_skip (c : ascii) (ms : list pystr) (s : pystr) :
  occur_in_order ms s -> occur_in_order ms (c :: s).
Proof.
  intros H. destruct H as [s|gap m ms rest H].
  - constructor.
  - change (c :: gap ++ m ++ rest) with ((c :: gap) ++ m ++ rest).
    now constructor.
Qed.

Lemma firstn_matched (m rest : pystr) :
  firstn (length (m ++ rest) - length rest) (m ++ rest) = m.
Proof.
  rewrite length_app.
  replace (length m + length rest - length rest) with (length m + 0) by lia.
  rewrite firstn_app_2. simpl. apply app_nil_r.
Qed.

(** The matches that the scan returns occur in the text from left to
    right, without overlap. *)
Lemma findall_from_in_order (r : regex) (fuel : nat) :
  forall s, occur_in_order (findall_from fuel r s) s.
Proof.
  induction fuel as [|fuel IH]; intros s; simpl; [constructor|].
  destruct (match_prefix r s) as [rest|] eqn:E.
  - apply match_prefix_sound in E as (m & -> & _).
    rewrite firstn_matched. destruct m as [|a m].
    + simpl. destruct rest as [|c rest].
      * apply (OccCons [] [] [] []). constructor.
      * apply (OccCons [c] [] _ rest). apply IH.
    + apply (OccCons [] (a :: m) _ rest). apply IH.
  - destruct s as [|c s]; [constructor|].
    apply occur_in_order_skip, IH.
Qed.

(** Each of them matches the pattern. *)
Lemma findall_from_matches (r : regex) (fuel : nat) :
  forall s, Forall (matches r) (findall_from fuel r s).
Proof.
  induction fuel as [|fuel IH]; intros s; simpl; [constructor|].
  destruct (match_prefix r s) as [rest|] eqn:E.
  - apply match_prefix_sound in E as (m & -> & Hm).
    rewrite firstn_matched. destruct m as [|a m].
    + simpl. destruct rest as [|c rest]; constructor; auto.
    + constructor; auto.
  - destruct s as [|c s]; [constructor|apply IH].
Qed.

End Scan.

(** ** The reconstructor *)

Section ReconstructorFacts.

Variable cmr : list regex -> pystr -> pystr -> bool.

Lemma comprehension_Forall2 {A B} (f : A -> result B) (l : list A)
    (l' : list B) :
  comprehension f l = Ok l' -> Forall2 (fun x y => f x = Ok y) l l'.
Proof.
  revert l'; induction l as [|x l IH]; simpl; intros l' H.
  - injection H as <-. constructor.
  - apply bind_Ok in H as (y & Hy & H).
    apply bind_Ok in H as (ys & Hys & H). injection H as <-.
    constructor; auto.
Qed.

Lemma gate_from_gate_dict_single (gate : GateDict) (c : QCircuit) :
  gate_from_gate_dict gate = Ok (Some c) -> exists g, c = [g].
Proof.
  unfold gate_from_gate_dict.
  repeat match goal with
         | |- context [if ?b then _ else _] => destruct b
         end; try discriminate; try (intros [= <-]; eauto).
  destruct (target gate) as [|a [|b [|? ?]]]; try discriminate.
  intros [= <-]; eauto.
Qed.

Lemma append_gates_None (gates : list GateDict) (c : QCircuit) :
  append_gates None gates <> Ok (Some c).
Proof.
  destruct gates as [|gate gates]; simpl; [discriminate|].
  destruct (gate_from_gate_dict gate) as [o|e]; simpl; discriminate.
Qed.

(** The loop appends the gates of the records, one by one and in their
    order. *)
Lemma append_gates_in_order (gates : list GateDict) :
  forall c0 c, append_gates (Some c0) gates = Ok (Some c) ->
  exists gs, c = c0 ++ gs /\
    Forall2 (fun record g => gate_from_gate_dict record = Ok (Some [g]))
      gates gs.
Proof.
  induction gates as [|gate gates IH]; simpl; intros c0 c H.
  - injection H as <-. exists []. split; [now rewrite app_nil_r|constructor].
  - apply bind_Ok in H as (o & Ho & H).
    apply bind_Ok in H as (c1 & Hc1 & H).
    destruct o as [o|]; [|discriminate]. simpl in Hc1. injection Hc1 as <-.
    destruct (gate_from_gate_dict_single _ _ Ho) as [g ->].
    apply IH in H as (gs & -> & HF).
    exists (g :: gs). split; [now rewrite <- app_assoc|now constructor].
Qed.

(** C7: when a circuit is built, the gate strings are the matches of the
    scan, which lie in the text from left to right without overlap, each
    matching the gate pattern; the records are built from them one for
    one, and the gates of the circuit are the gates of the records, one
    for one and in that same order. *)
Theorem gates_composed_in_textual_order (text : pystr) (circuit : QCircuit) :
  circuit_from_string cmr text = Ok (Some circuit) ->
  exists records,
    occur_in_order (findall gate_regex text) text /\
    Forall (matches gate_regex) (findall gate_regex text) /\
    Forall2 (fun m record => gate_string_to_dict m = Ok record)
      (findall gate_regex text) records /\
    Forall2 (fun record g => gate_from_gate_dict record = Ok (Some [g]))
      records circuit.
Proof.
  unfold circuit_from_string. intros H.
  destruct (negb (validate_circuit_syntax cmr text)); [discriminate|].
  apply bind_Ok in H as (records & Hr & H).
  exists records. split; [apply findall_from_in_order|].
  split; [apply findall_from_matches|].
  split; [now apply comprehension_Forall2|].
  destruct records as [|first others]; [discriminate|].
  apply bind_Ok in H as (o & Ho & H).
  destruct o as [c0|]; [|now apply append_gates_None in H].
  destruct (gate_from_gate_dict_single _ _ Ho) as [g ->].
  apply append_gates_in_order in H as (gs & -> & HF).
  now constructor.
Qed.

Lemma bind_raises_only {A B} (P : exn -> Prop) (m : result A)
    (f : A -> result B) :
  raises_only P m -> (forall a, raises_only P (f a)) ->
  raises_only P (bind m f).
Proof.
  intros Hm Hf e. destruct m as [a|e']; simpl.
  - apply Hf.
  - intros [= <-]. now apply Hm.
Qed.

Lemma comprehension_raises_only {A B} (P : exn -> Prop) (f : A -> result B)
    (l : list A) :
  (forall x, raises_only P (f x)) -> raises_only P (comprehension f l).
Proof.
  intros Hf. induction l as [|x l IH]; simpl; [discriminate|].
  apply bind_raises_only; [apply Hf|]. intros y.
  apply bind_raises_only; [exact IH|]. discriminate.
Qed.

Lemma index_not_syntax {A} (l : list A) (i : nat) :
  raises_only not_syntax (index l i).
Proof.
  unfold index. destruct (nth_error l i); intros e [= <-]. discriminate.
Qed.

Lemma extractor_not_syntax (string data : pystr) :
  raises_only not_syntax (get_one_gate_data_from_string string data).
Proof.
  unfold get_one_gate_data_from_string, field_area.
  repeat (apply bind_raises_only; [|intros ?]);
    try apply index_not_syntax.
  apply comprehension_raises_only. intros n e. unfold to_int.
  destruct (int n); intros [= <-]. discriminate.
Qed.

Lemma builder_not_syntax (string : pystr) :
  raises_only not_syntax (gate_string_to_dict string).
Proof.
  unfold gate_string_to_dict.
  apply bind_raises_only; [apply index_not_syntax|intros nm].
  apply bind_raises_only; [apply extractor_not_syntax|intros tg].
  apply bind_raises_only; [|intros ct].
  { destruct (contains (chars "control") string); [|discriminate].
    apply bind_raises_only; [apply extractor_not_syntax|discriminate]. }
  apply bind_raises_only; [|discriminate].
  destruct (contains (chars "parameter") string); [|discriminate].
  apply bind_raises_only; [|discriminate].
  unfold get_gate_parameter.
  apply bind_raises_only; [apply index_not_syntax|intros a].
  apply bind_raises_only; [apply index_not_syntax|intros t].
  destruct (float t); discriminate.
Qed.

Lemma materializer_not_syntax (gate : GateDict) :
  raises_only not_syntax (gate_from_gate_dict gate).
Proof.
  unfold gate_from_gate_dict.
  repeat match goal with
         | |- context [if ?b then _ else _] => destruct b
         end; try discriminate; try (intros e [= <-]; discriminate).
  destruct (target gate) as [|a [|b [|? ?]]];
    try discriminate; intros e [= <-]; discriminate.
Qed.

Lemma append_gates_not_syntax (gates : list GateDict) :
  forall c, raises_only not_syntax (append_gates c gates).
Proof.
  induction gates as [|gate gates IH]; intros c; simpl; [discriminate|].
  apply bind_raises_only; [apply materializer_not_syntax|intros o].
  apply bind_raises_only; [|intros c'; apply IH].
  destruct c, o; simpl; try discriminate; intros e [= <-]; discriminate.
Qed.

(** X23: the half of the validator's soundness that holds of the code:
    InvalidSyntaxError is raised exactly for the texts that the validator
    rejects. *)
Lemma InvalidSyntaxError_iff_rejected (text : pystr) :
  circuit_from_string cmr text = Err InvalidSyntaxError <->
  validate_circuit_syntax cmr text = false.
Proof.
  unfold circuit_from_string.
  destruct (validate_circuit_syntax cmr text); simpl; split;
    try reflexivity; try discriminate.
  intros H. exfalso. revert H.
  match goal with |- ?m = _ -> _ =>
    assert (R : raises_only not_syntax m) end.
  { apply bind_raises_only.
    - apply comprehension_raises_only, builder_not_syntax.
    - intros [|first others]; [discriminate|].
      apply bind_raises_only; [apply materializer_not_syntax|].
      intros c. apply append_gates_not_syntax. }
  intros H. now apply R in H.
Qed.

(** When the validator accepts a text in which the scan finds no gate,
    the result is [None]. *)
Lemma no_gate_gives_None (text : pystr) :
  validate_circuit_syntax cmr text = true ->
  findall gate_regex text = [] ->
  circuit_from_string cmr text = Ok None.
Proof.
  unfold circuit_from_string. intros -> ->. reflexivity.
Qed.

(** C1 does not hold of the code: [SWAP_GATE_REGEX] takes the two indices
    as "\d*", so it matches SWAP(target=(, )); when the validator accepts
    the header followed by that gate, parsing still fails, with the
    ValueError of [int] on an empty token. *)
Theorem accepted_swap_without_indices_raises_ValueError :
  validate_circuit_syntax cmr swap_without_indices = true ->
  fullmatch SWAP_GATE_REGEX (chars "SWAP(target=(, ))") = true /\
  circuit_from_string cmr swap_without_indices = Err ValueError.
Proof.
  intros H. split; [reflexivity|].
  unfold circuit_from_string. rewrite H. reflexivity.
Qed.

End ReconstructorFacts.

Lemma gates_composed_in_textual_order_witness :
  exists records,
    occur_in_order (findall gate_regex three_gates) three_gates /\
    Forall (matches gate_regex) (findall gate_regex three_gates) /\
    Forall2 (fun m record => gate_string_to_dict m = Ok record)
      (findall gate_regex three_gates) records /\
    Forall2 (fun record g => gate_from_gate_dict record = Ok (Some [g]))
      records
      [Fixed (chars "H") [0%Z] None;
       Rotation (chars "Rx") (Some (PFloat (FDec false 5 (-1)))) [1%Z] None;
       Fixed (chars "X") [2%Z] (Some [0%Z])].
Proof.
  apply (gates_composed_in_textual_order create_multiline_regex).
  vm_compute. reflexivity.
Defined.

Lemma accepted_swap_without_indices_raises_ValueError_witness :
  fullmatch SWAP_GATE_REGEX (chars "SWAP(target=(, ))") = true /\
  circuit_from_string create_multiline_regex swap_without_indices
  = Err ValueError.
Proof.
  apply accepted_swap_without_indices_raises_ValueError.
  vm_compute. reflexivity.
Defined.

(** ** The validator of the specification *)

Section Validator.






End Validator.

(** ** More on the materializer *)

Section MaterializerCases.

Lemma same_control_and_target_shares (gate : GateDict) :
  same_control_and_target gate = true <-> shares_qubit gate.
Proof.
  unfold same_control_and_target, shares_qubit. split.
  - destruct (control gate) as [[|x c]|]; try discriminate.
    intros H. apply existsb_exists in H as (q & Ht & H).
    apply existsb_exists in H as (q' & Hc & H).
    apply Z.eqb_eq in H. subst q'. eauto.
  - intros (c & q & -> & Ht & Hc). destruct c as [|x c]; [contradiction|].
    now apply (intersect_true _ _ q).
Qed.

Lemma same_control_and_target_disjoint (gate : GateDict) :
  same_control_and_target gate = false <-> ~ shares_qubit gate.
Proof.
  rewrite <- same_control_and_target_shares.
  destruct (same_control_and_target gate); split; congruence.
Qed.

Ltac name_cases gate :=
  unfold gate_from_gate_dict;
  destruct (same_control_and_target gate) eqn:S;
  [|destruct (str_in (name gate)
               [chars "X"; chars "Y"; chars "Z"; chars "H"]) eqn:N1;
    [|destruct (str_in (name gate)
                 [chars "Rx"; chars "Ry"; chars "Rz"]) eqn:N2;
      [|destruct (str_in (name gate) [chars "Phase"]) eqn:N3;
        [|destruct (str_in (name gate) [chars "SWAP"]) eqn:N4]]]].

Lemma materializer_Same (gate : GateDict) :
  gate_from_gate_dict gate = Err SameControlAndTarget <-> shares_qubit gate.
Proof.
  rewrite <- same_control_and_target_shares. name_cases gate;
    split; try reflexivity; try discriminate.
  destruct (target gate) as [|a [|b [|? ?]]]; discriminate.
Qed.

(** X1: SameControlAndTarget is raised exactly for the records in which a
    qubit is both a control and a target. *)
Theorem SameControlAndTarget_iff_shared (gate : GateDict) :
  gate_from_gate_dict gate = Err SameControlAndTarget <-> shares_qubit gate.
Proof. apply materializer_Same. Qed.

(** X2: before a constructor of tequila is called, the materializer
    raises ValueError exactly at the unpacking of the targets of a SWAP:
    for the records named SWAP, without a shared qubit, whose targets are
    not two. *)
Theorem materializer_ValueError_iff (gate : GateDict) :
  gate_from_gate_dict gate = Err ValueError <->
  ~ shares_qubit gate /\ name gate = chars "SWAP" /\
  length (target gate) <> 2.
Proof.
  rewrite <- same_control_and_target_disjoint. name_cases gate; split;
    try discriminate;
    try (intros (? & ? & ?); discriminate).
  - intros (_ & E & _). rewrite E in N1. discriminate N1.
  - intros (_ & E & _). rewrite E in N2. discriminate N2.
  - intros (_ & E & _). rewrite E in N3. discriminate N3.
  - intros H. split; [reflexivity|]. split.
    + apply str_in_In in N4. simpl in N4. now destruct N4 as [<-|[]].
    + destruct (target gate) as [|a [|b [|? ?]]]; simpl;
        try discriminate; lia.
  - intros (_ & _ & L).
    destruct (target gate) as [|a [|b [|? ?]]]; simpl in L;
      try reflexivity; lia.
  - intros (_ & E & _). rewrite E in N4. discriminate N4.
Qed.

Lemma materializer_errors (gate : GateDict) (e : exn) :
  gate_from_gate_dict gate = Err e ->
  e = SameControlAndTarget \/ e = ValueError.
Proof.
  name_cases gate; try discriminate; try (intros [= <-]; auto).
  destruct (target gate) as [|a [|b [|? ?]]];
    try discriminate; intros [= <-]; auto.
Qed.

(** X3: the code of the materializer fails in two ways only, with
    SameControlAndTarget and with the ValueError of the unpacking; what a
    constructor of tequila raises is not part of the model. *)
Theorem materializer_raises_two_errors (gate : GateDict) (e : exn) :
  gate_from_gate_dict gate = Err e ->
  e = SameControlAndTarget \/ e = ValueError.
Proof. apply materializer_errors. Qed.

Lemma materializer_raises_two_errors_witness :
  ValueError = SameControlAndTarget \/ ValueError = ValueError.
Proof.
  apply (materializer_raises_two_errors
           (mkGateDict (chars "SWAP") [0%Z] None None)).
  reflexivity.
Defined.

Lemma materializer_None (gate : GateDict) :
  gate_from_gate_dict gate = Ok None <->
  ~ In (name gate) supported_names /\ ~ shares_qubit gate.
Proof.
  rewrite <- same_control_and_target_disjoint.
  assert (Q : In (name gate) supported_names <->
              str_in (name gate) [chars "X"; chars "Y"; chars "Z"; chars "H"]
              = true \/
              str_in (name gate) [chars "Rx"; chars "Ry"; chars "Rz"] = true
              \/ str_in (name gate) [chars "Phase"] = true
              \/ str_in (name gate) [chars "SWAP"] = true).
  { rewrite !str_in_In. unfold supported_names. simpl. tauto. }
  rewrite Q. name_cases gate; split;
    try discriminate; try (intros [_ ?]; discriminate); try tauto.
  - destruct (target gate) as [|a [|b [|? ?]]]; discriminate.
  - intros _. split; [|reflexivity]. intros [H|[H|[H|H]]]; discriminate H.
Qed.

(** X4: the materializer returns [None] exactly for the records with a
    name outside the nine supported ones and without a shared qubit. *)
Theorem materializer_None_iff (gate : GateDict) :
  gate_from_gate_dict gate = Ok None <->
  ~ In (name gate) supported_names /\ ~ shares_qubit gate.
Proof. apply materializer_None. Qed.

(** X5: a record that materializes gives the circuit of one gate, built by
    the constructor of the record's name from the record's targets and
    controls; the parameter is handed over for Phase, Rx, Ry and Rz and
    ignored for the other names. *)
Theorem materialized_gate_keeps_record (gate : GateDict) (c : QCircuit) :
  gate_from_gate_dict gate = Ok (Some c) ->
  exists g,
    c = [g] /\ gate_kind g = name gate /\ In (name gate) supported_names /\
    gate_targets g = target gate /\ gate_controls g = control gate /\
    gate_angle g = if str_in (name gate) parametrized_names
                   then parameter gate else None.
Proof.
  name_cases gate; try discriminate.
  - intros [= <-]. eexists. split; [reflexivity|]. simpl.
    apply str_in_In in N1. simpl in N1.
    repeat (destruct N1 as [<-|N1];
            [unfold supported_names; simpl; tauto|]). contradiction.
  - intros [= <-]. eexists. split; [reflexivity|]. simpl.
    apply str_in_In in N2. simpl in N2.
    repeat (destruct N2 as [<-|N2];
            [unfold supported_names; simpl; tauto|]). contradiction.
  - intros [= <-]. eexists. split; [reflexivity|]. simpl.
    apply str_in_In in N3. simpl in N3.
    repeat (destruct N3 as [<-|N3];
            [unfold supported_names; simpl; tauto|]). contradiction.
  - destruct (target gate) as [|a [|b [|? ?]]]; try discriminate.
    intros [= <-]. eexists. split; [reflexivity|]. simpl.
    apply str_in_In in N4. simpl in N4.
    repeat (destruct N4 as [<-|N4];
            [unfold supported_names; simpl; tauto|]). contradiction.
Qed.

Lemma materialized_gate_keeps_record_witness :
  exists g,
    [Rotation (chars "Ry") (Some (PStr (chars "a"))) [2%Z] (Some [0%Z])]
    = [g] /\ gate_kind g = chars "Ry" /\
    In (chars "Ry") supported_names /\
    gate_targets g = [2%Z] /\ gate_controls g = Some [0%Z] /\
    gate_angle g = Some (PStr (chars "a")).
Proof.
  apply (materialized_gate_keeps_record
           (mkGateDict (chars "Ry") [2%Z] (Some [0%Z])
              (Some (PStr (chars "a"))))).
  reflexivity.
Defined.

End MaterializerCases.

(** ** More on the field extractors *)

Section ExtractorCases.

Lemma comprehension_Err_inv (l : list pystr) (e : exn) :
  comprehension to_int l = Err e ->
  e = ValueError /\ exists tok, In tok l /\ int tok = None.
Proof.
  induction l as [|x l IH]; simpl; [discriminate|].
  unfold to_int at 1. destruct (int x) eqn:E; simpl.
  - destruct (comprehension to_int l) as [ys|e'] eqn:C; simpl;
      [discriminate|].
    intros [= <-]. destruct (IH eq_refl) as (-> & tok & Hin & Htok).
    split; [reflexivity|]. exists tok. auto.
  - intros [= <-]. split; [reflexivity|]. exists x. auto.
Qed.

Lemma field_area_present (string data : pystr) :
  contains (data ++ chars "=(") string = true ->
  exists area, field_area string data = Ok area.
Proof.
  intros H. unfold field_area, split1.
  apply partition_Some in H as (a & b & -> & _). simpl.
  destruct (split ")" b) as [|w ws] eqn:E;
    [now destruct (split_nonempty ")" b)|].
  now exists w.
Qed.

(** X6: the extractor raises IndexError exactly when the text does not
    contain the opening of the field, the name followed by "=(". *)
Theorem extractor_IndexError_iff_no_field (string data : pystr) :
  get_one_gate_data_from_string string data = Err IndexError <->
  contains (data ++ chars "=(") string = false.
Proof.
  split; [|apply missing_field_raises_IndexError].
  intros H. destruct (contains (data ++ chars "=(") string) eqn:C;
    [|reflexivity].
  destruct (field_area_present _ _ C) as [area Ha].
  unfold get_one_gate_data_from_string in H. rewrite Ha in H. simpl in H.
  apply comprehension_Err_inv in H as [H _]. discriminate H.
Qed.

(** X7: the extractor raises ValueError exactly when the field is there
    and one of its tokens is not an integer for [int]. *)
Theorem extractor_ValueError_iff_bad_token (string data : pystr) :
  get_one_gate_data_from_string string data = Err ValueError <->
  exists area tok,
    field_area string data = Ok area /\
    In tok (drop_empty_tail (split "," area)) /\ int tok = None.
Proof.
  unfold get_one_gate_data_from_string. split.
  - destruct (field_area string data) as [area|e] eqn:Ha; simpl.
    + intros H. apply comprehension_Err_inv in H as (_ & tok & Hin & Htok).
      exists area, tok. auto.
    + unfold field_area in Ha. intros [= ->].
      destruct (index (split1 (data ++ chars "=(") string) 1) as [a|e] eqn:I;
        simpl in Ha.
      * unfold index in Ha.
        destruct (split ")" a) eqn:E; [now destruct (split_nonempty ")" a)|].
        discriminate Ha.
      * unfold index in I. destruct (nth_error _ 1); discriminate || congruence.
  - intros (area & tok & -> & Hin & Htok). simpl.
    apply comprehension_Err. eauto.
Qed.

Lemma extractor_bad_token (string data area tok : pystr) :
  field_area string data = Ok area ->
  In tok (drop_empty_tail (split "," area)) -> int tok = None ->
  get_one_gate_data_from_string string data = Err ValueError.
Proof.
  intros Ha Hin Htok. unfold get_one_gate_data_from_string.
  rewrite Ha. simpl. apply comprehension_Err. eauto.
Qed.

(** An empty pair of brackets, as in control=(), gives the empty list. *)
Theorem empty_field_gives_empty_list (string data : pystr) :
  field_area string data = Ok [] ->
  get_one_gate_data_from_string string data = Ok [].
Proof.
  intros H. unfold get_one_gate_data_from_string. now rewrite H.
Qed.

Lemma empty_field_gives_empty_list_witness :
  get_one_gate_data_from_string
    (chars "SWAP(target=(0, 1), control=())") (chars "control")
  = Ok [].
Proof. apply empty_field_gives_empty_list. reflexivity. Defined.

(** X9: the parameter extractor fails only with IndexError, and exactly
    when the text does not contain "parameter=". *)
Theorem parameter_error_iff_no_field (string : pystr) (e : exn) :
  get_gate_parameter string = Err e <->
  e = IndexError /\ contains (chars "parameter=") string = false.
Proof.
  unfold get_gate_parameter, split1. split.
  - destruct (contains (chars "parameter=") string) eqn:C.
    + apply partition_Some in C as (a & b & -> & _). simpl.
      destruct (split ")" b) as [|w ws] eqn:E;
        [now destruct (split_nonempty ")" b)|].
      simpl. destruct (float w); discriminate.
    + rewrite (partition_None _ _ C). simpl. intros [= <-]. auto.
  - intros (-> & C). now rewrite (partition_None _ _ C).
Qed.

End ExtractorCases.

(** ** Reading printed indices *)

Section PrintedIndices.

Lemma digit_value_nonneg (c : ascii) :
  isdigit c = true -> (0 <= digit_value c)%Z.
Proof.
  destruct c as [[] [] [] [] [] [] [] []]; intros H;
    solve [discriminate H | vm_compute; discriminate].
Qed.

Lemma digits_value_nonneg (d : pystr) :
  all_digits d -> (0 <= digits_value d)%Z.
Proof.
  unfold digits_value.
  assert (G : forall acc, all_digits d -> (0 <= acc)%Z ->
            (0 <= fold_left (fun a c => 10 * a + digit_value c) d acc)%Z).
  { induction d as [|c d IH]; intros acc H Ha; cbn [fold_left];
      [exact Ha|].
    inversion H as [|? ? Hc Hd]; subst. apply IH; [exact Hd|].
    pose proof (digit_value_nonneg _ Hc) as Hv. lia. }
  intros H. apply G; [exact H|lia].
Qed.

Lemma int_after_space (d : pystr) : int (" " :: d) = int d.
Proof. reflexivity. Qed.

Lemma int_printed_index (d : pystr) :
  printed_index d -> int d = Some (digits_value d).
Proof. intros [Hne Hd]. now apply int_digits. Qed.

Lemma split_cons_other (sep c : ascii) (s : pystr) :
  Ascii.eqb c sep = false ->
  split sep (c :: s) =
  match split sep s with
  | [] => [[c]]
  | w :: ws => (c :: w) :: ws
  end.
Proof. intros H. simpl. now rewrite H. Qed.

Lemma printed_index_no_comma (d : pystr) : printed_index d -> ~ In "," d.
Proof. intros [_ Hd]. apply digit_in; [exact Hd|reflexivity]. Qed.

(** [split(',')] cuts a list of indices printed with ", " between them
    into the first index and the others with a space in front. *)
Lemma split_join_indices (ds : list pystr) :
  Forall printed_index ds ->
  split "," (join (chars ", ") ds) = spaced_tokens ds.
Proof.
  destruct ds as [|d ds]; [reflexivity|]. revert d.
  induction ds as [|d' ds IH]; intros d H.
  - simpl. apply split_no_sep, printed_index_no_comma.
    now inversion H.
  - inversion H as [|? ? Hd H']; subst.
    change (join (chars ", ") (d :: d' :: ds))
      with (d ++ "," :: " " :: join (chars ", ") (d' :: ds)).
    rewrite split_app_sep by now apply printed_index_no_comma.
    rewrite split_cons_other by reflexivity.
    rewrite (IH d' H'). reflexivity.
Qed.

Lemma read_spaced_tokens (ds : list pystr) :
  ds <> [] -> Forall printed_index ds ->
  comprehension to_int (spaced_tokens ds) = Ok (map digits_value ds).
Proof.
  destruct ds as [|d ds]; [contradiction|]. intros _ H.
  inversion H as [|? ? Hd H']; subst. simpl.
  unfold to_int at 1. rewrite (int_printed_index _ Hd). simpl.
  assert (R : comprehension to_int (map (cons " ") ds)
              = Ok (map digits_value ds)).
  { clear Hd H. induction H' as [|x l Hx _ IH]; [reflexivity|].
    simpl. unfold to_int at 1.
    rewrite int_after_space, (int_printed_index _ Hx). simpl.
    now rewrite IH. }
  now rewrite R.
Qed.

Lemma last_in (l : list pystr) (x : pystr) : l <> [] -> In (last l x) l.
Proof.
  induction l as [|a l IH]; [contradiction|]. intros _.
  destruct l as [|b l]; [now left|].
  right. apply IH. discriminate.
Qed.

Lemma drop_empty_tail_spaced (ds : list pystr) :
  ds <> [] -> Forall printed_index ds ->
  drop_empty_tail (spaced_tokens ds) = spaced_tokens ds.
Proof.
  destruct ds as [|d ds]; [contradiction|]. intros _ H.
  unfold drop_empty_tail.
  destruct (last (spaced_tokens (d :: ds)) ["x"]) eqn:E; [|reflexivity].
  exfalso.
  assert (Hin : In [] (spaced_tokens (d :: ds)))
    by (rewrite <- E; apply last_in; discriminate).
  inversion H as [|? ? [Hd _] _]; subst.
  destruct Hin as [Hin|Hin]; [now subst d|].
  apply in_map_iff in Hin as (? & Hx & _). discriminate Hx.
Qed.

Lemma read_printed_tuple (string data : pystr) (ds : list pystr) :
  Forall printed_index ds ->
  field_area string data = Ok (print_tuple ds) ->
  get_one_gate_data_from_string string data = Ok (map digits_value ds).
Proof.
  intros H Ha.
  unfold get_one_gate_data_from_string. rewrite Ha. simpl.
  destruct ds as [|d [|d' ds]].
  - reflexivity.
  - simpl. change (chars ",") with [","].
    rewrite split_trailing, drop_empty_tail_trailing.
    inversion H as [|? ? Hd _]; subst.
    rewrite split_no_sep by now apply printed_index_no_comma.
    simpl. unfold to_int. now rewrite (int_printed_index _ Hd).
  - change (print_tuple (d :: d' :: ds))
      with (join (chars ", ") (d :: d' :: ds)).
    rewrite (split_join_indices _ H).
    rewrite drop_empty_tail_spaced by (discriminate || exact H).
    apply read_spaced_tokens; [discriminate|exact H].
Qed.

Lemma printed_values_nonneg (ds : list pystr) :
  Forall printed_index ds ->
  Forall (fun q => (0 <= q)%Z) (map digits_value ds).
Proof.
  intros H. rewrite Forall_map. rewrite Forall_forall in *.
  intros d Hd. apply digits_value_nonneg. now apply H.
Qed.

(** X8: the extractor reads back a printed tuple of indices: nothing for
    an empty one, the one index of "3," and all the indices of "1, 2, 3",
    in their order; none of them is negative. *)
Theorem extractor_reads_printed_tuple (string data : pystr)
    (ds : list pystr) :
  Forall printed_index ds ->
  field_area string data = Ok (print_tuple ds) ->
  get_one_gate_data_from_string string data = Ok (map digits_value ds) /\
  Forall (fun q => (0 <= q)%Z) (map digits_value ds).
Proof.
  intros H Ha. split.
  - now apply read_printed_tuple.
  - now apply printed_values_nonneg.
Qed.

Lemma extractor_reads_printed_tuple_witness :
  get_one_gate_data_from_string
    (chars "X(target=(0,), control=(1, 20, 3))") (chars "control")
  = Ok [1%Z; 20%Z; 3%Z] /\
  Forall (fun q => (0 <= q)%Z) [1%Z; 20%Z; 3%Z].
Proof.
  apply (extractor_reads_printed_tuple _ _
           [chars "1"; chars "20"; chars "3"]); [|reflexivity].
  repeat constructor; try discriminate.
Defined.

End PrintedIndices.

(** ** Reading printed gates *)

Section PrintedGates.

Lemma contains_absent (c : ascii) (sub s : pystr) :
  ~ In c s -> contains (c :: sub) s = false.
Proof.
  intros H. destruct (contains (c :: sub) s) eqn:E; [|reflexivity].
  now apply contains_In in E.
Qed.

(** An occurrence cannot start where its first character is not. *)
Lemma contains_skip_prefix (c : ascii) (sub pre x : pystr) :
  ~ In c pre -> contains (c :: sub) (pre ++ x) = contains (c :: sub) x.
Proof.
  induction pre as [|a pre IH]; intros H; [reflexivity|].
  change ((a :: pre) ++ x) with (a :: pre ++ x).
  rewrite contains_cons, IH by (intros Hin; apply H; now right).
  cbn [startswith]. destruct (Ascii.eqb c a) eqn:E; [|reflexivity].
  apply Ascii.eqb_eq in E. subst a. exfalso. apply H. now left.
Qed.

Lemma startswith_snoc (sep x : pystr) (c : ascii) :
  ~ In c sep -> startswith sep (x ++ [c]) = true -> startswith sep x = true.
Proof.
  revert x; induction sep as [|a sep IH]; intros x Hc H; [reflexivity|].
  destruct x as [|b x]; simpl in H.
  - apply andb_true_iff in H as [H _]. apply Ascii.eqb_eq in H. subst a.
    exfalso. apply Hc. now left.
  - apply andb_true_iff in H as [H1 H2]. simpl. rewrite H1. simpl.
    apply IH; [|exact H2]. intros Hin. apply Hc. now right.
Qed.

(** Nor can it end on a character that it does not have. *)
Lemma contains_snoc (sep p : pystr) (c : ascii) :
  ~ In c sep -> contains sep p = false -> contains sep (p ++ [c]) = false.
Proof.
  intros Hc. induction p as [|a p IH]; intros H.
  - change ([] ++ [c]) with [c]. rewrite contains_cons, H, orb_false_r.
    destruct (startswith sep [c]) eqn:E; [|reflexivity].
    apply (startswith_snoc sep [] c Hc) in E.
    simpl in H. rewrite orb_false_r in H. congruence.
  - rewrite contains_cons in H. apply orb_false_iff in H as [H1 H2].
    change ((a :: p) ++ [c]) with (a :: p ++ [c]).
    rewrite contains_cons, (IH H2), orb_false_r.
    destruct (startswith sep (a :: p ++ [c])) eqn:E; [|reflexivity].
    apply (startswith_snoc sep (a :: p) c Hc) in E. congruence.
Qed.

Lemma join_chars (ds : list pystr) (a : ascii) :
  In a (join (chars ", ") ds) ->
  (exists d, In d ds /\ In a d) \/ a = "," \/ a = " ".
Proof.
  destruct ds as [|d ds]; [contradiction|]. revert d.
  induction ds as [|d' ds IH]; intros d H.
  - left. exists d. split; [now left|exact H].
  - change (join (chars ", ") (d :: d' :: ds))
      with (d ++ "," :: " " :: join (chars ", ") (d' :: ds)) in H.
    apply in_app_or in H as [H|[H|[H|H]]]; auto.
    + left. exists d. split; [now left|exact H].
    + destruct (IH d' H) as [(x & Hx & Ha)|Hr]; [|now right].
      left. exists x. split; [now right|exact Ha].
Qed.

(** A printed tuple is made of digits, commas and spaces. *)
Lemma print_tuple_chars (ds : list pystr) (a : ascii) :
  Forall printed_index ds -> In a (print_tuple ds) ->
  isdigit a = true \/ a = "," \/ a = " ".
Proof.
  intros H Ha.
  assert (J : In a (join (chars ", ") ds) \/ a = ",").
  { destruct ds as [|d [|d' ds]]; auto.
    simpl in Ha. apply in_app_or in Ha as [Ha|[Ha|[]]]; auto. }
  destruct J as [J|J]; [|auto].
  apply join_chars in J as [(d & Hd & Hin)|J]; [|auto].
  left. rewrite Forall_forall in H. destruct (H d Hd) as [_ Hall].
  unfold all_digits in Hall. rewrite Forall_forall in Hall. now apply Hall.
Qed.

Lemma print_tuple_no_bracket (ds : list pystr) :
  Forall printed_index ds -> ~ In ")" (print_tuple ds).
Proof.
  intros H Hin. destruct (print_tuple_chars _ _ H Hin) as [E|[E|E]];
    discriminate E.
Qed.

(** The characters of a printed control field. *)
Lemma print_control_chars (cs : option (list pystr)) (a : ascii) :
  printed_controls cs -> In a (print_control cs) ->
  isdigit a = true \/ In a (chars ", control=()").
Proof.
  destruct cs as [ds|]; [|contradiction]. intros H Ha. simpl in H.
  unfold print_control in Ha.
  apply in_app_or in Ha as [Ha|Ha]; [right; simpl in *; tauto|].
  apply in_app_or in Ha as [Ha|Ha]; [|right; simpl in *; tauto].
  destruct (print_tuple_chars _ _ H Ha) as [E | [-> | ->]]; auto;
    right; simpl; tauto.
Qed.

Lemma one_qubit_name_chars (nm : pystr) (a : ascii) :
  In nm one_qubit_names -> In a nm -> In a (chars "XYZHPhaseRxyz").
Proof.
  unfold one_qubit_names. simpl. intros H Ha.
  repeat (destruct H as [<-|H]; [simpl in Ha; tauto|]). contradiction.
Qed.

(** The characters of the text up to the end of the target field. *)
Lemma target_part_chars (nm d : pystr) (a : ascii) :
  In nm one_qubit_names -> all_digits d ->
  In a (nm ++ chars "(target=(" ++ d ++ chars ",)") ->
  isdigit a = true \/ In a (chars "XYZHPhaseRxyz(target=,)").
Proof.
  intros Hn Hd Ha. apply in_app_or in Ha as [Ha|Ha].
  - right. apply (one_qubit_name_chars _ _ Hn) in Ha. simpl in *. tauto.
  - apply in_app_or in Ha as [Ha|Ha]; [right; simpl in *; tauto|].
    apply in_app_or in Ha as [Ha|Ha]; [|right; simpl in *; tauto].
    left. unfold all_digits in Hd. rewrite Forall_forall in Hd. auto.
Qed.

(** The name is the text before the first bracket. *)
Lemma name_of_gate_text (nm rest : pystr) :
  In nm supported_names ->
  index (split1 (chars "(") (nm ++ "(" :: rest)) 0 = Ok nm.
Proof.
  intros H. unfold split1.
  change (nm ++ "(" :: rest) with (nm ++ chars "(" ++ rest).
  rewrite partition_first; [reflexivity|discriminate|].
  unfold supported_names in H. simpl in H.
  repeat (destruct H as [<-|H]; [reflexivity|]). contradiction.
Qed.

(** The control field is found after a text without the letter c. *)
Lemma control_of_printed_field (pre rest : pystr) (ds : list pystr) :
  ~ In "c" pre -> Forall printed_index ds ->
  get_one_gate_data_from_string
    (pre ++ print_control (Some ds) ++ rest) (chars "control")
  = Ok (map digits_value ds).
Proof.
  intros Hp Hd. apply read_printed_tuple; [exact Hd|].
  apply (field_area_found _ _ (pre ++ chars ", ") (print_tuple ds)
           (")" :: rest)).
  - change (removelast (chars "control" ++ chars "=("))
      with (chars "control=").
    change (chars "control" ++ chars "=(")
      with ("c" :: chars "ontrol=(").
    rewrite contains_skip_prefix; [reflexivity|].
    intros H. apply in_app_or in H as [H|H]; [now apply Hp|].
    simpl in H. destruct H as [H|[H|[]]]; discriminate H.
  - now apply print_tuple_no_bracket.
  - right. eauto.
  - unfold print_control. rewrite <- !app_assoc. reflexivity.
Qed.

Lemma control_text_present (pre rest : pystr) (ds : list pystr) :
  contains (chars "control") (pre ++ print_control (Some ds) ++ rest) = true.
Proof.
  unfold print_control.
  replace (pre ++ (chars ", control=(" ++ print_tuple ds ++ chars ")")
             ++ rest)
    with ((pre ++ chars ", ") ++ chars "control"
            ++ (chars "=(" ++ print_tuple ds ++ chars ")" ++ rest))
    by (rewrite <- !app_assoc; reflexivity).
  apply contains_here.
Qed.

(** The builder's control, for a text made of a part without the letter
    c, a printed control field and a rest that does not contain
    "control" when the field is absent. *)
Lemma builder_control (pre rest : pystr) (cs : option (list pystr)) :
  ~ In "c" pre -> printed_controls cs ->
  (cs = None -> contains (chars "control") rest = false) ->
  (if contains (chars "control") (pre ++ print_control cs ++ rest)
   then c <- get_one_gate_data_from_string
               (pre ++ print_control cs ++ rest) (chars "control") ;;
        Ok (Some c)
   else Ok None)
  = Ok (control_values cs).
Proof.
  intros Hp Hc Hr. destruct cs as [ds|].
  - rewrite control_text_present.
    now rewrite control_of_printed_field.
  - unfold print_control. change ([] ++ rest) with rest.
    assert (E : contains (chars "control") (pre ++ rest) = false).
    { change (chars "control") with ("c" :: chars "ontrol").
      rewrite contains_skip_prefix by exact Hp. exact (Hr eq_refl). }
    now rewrite E.
Qed.

Lemma not_digit_not_listed (a : ascii) (allowed : pystr) (s : pystr) :
  (forall x, In x s -> isdigit x = true \/ In x allowed) ->
  isdigit a = false -> ~ In a allowed -> ~ In a s.
Proof.
  intros H Hd Ha Hin. destruct (H a Hin) as [E|E]; [congruence|tauto].
Qed.

Ltac not_listed :=
  simpl; intros H;
  repeat (destruct H as [H|H]; [discriminate H|]); exact H.

Lemma target_part_no_c (nm d : pystr) :
  In nm one_qubit_names -> all_digits d ->
  ~ In "c" (nm ++ chars "(target=(" ++ d ++ chars ",)").
Proof.
  intros Hn Hd.
  apply (not_digit_not_listed "c" (chars "XYZHPhaseRxyz(target=,)"));
    [intros x; now apply target_part_chars|reflexivity|not_listed].
Qed.

Lemma split_hd_app (sep : ascii) (p rest : pystr) :
  exists ws, split sep (p ++ sep :: rest) = hd [] (split sep p) :: ws.
Proof.
  induction p as [|c p (ws & IH)]; simpl.
  - rewrite Ascii.eqb_refl. eauto.
  - destruct (Ascii.eqb c sep); [eauto|]. rewrite IH.
    destruct (split sep p) as [|w ws'] eqn:E;
      [now destruct (split_nonempty sep p)|].
    simpl. eauto.
Qed.

Lemma get_gate_parameter_at (pre p rest : pystr) :
  ~ In "p" pre ->
  get_gate_parameter (pre ++ chars "parameter=" ++ p ++ ")" :: rest)
  = Ok (parameter_value (up_to_bracket p)).
Proof.
  intros Hp. unfold get_gate_parameter, split1.
  rewrite partition_first; [|discriminate|].
  - simpl. destruct (split_hd_app ")" p rest) as [ws ->]. simpl.
    unfold parameter_value, up_to_bracket.
    destruct (float (hd [] (split ")" p))); reflexivity.
  - change (removelast (chars "parameter=")) with (chars "parameter").
    change (chars "parameter=") with ("p" :: chars "arameter=").
    now rewrite contains_skip_prefix.
Qed.

Lemma read_fixed_gate (nm d : pystr) (cs : option (list pystr)) :
  In nm [chars "X"; chars "Y"; chars "Z"; chars "H"] ->
  printed_index d -> printed_controls cs ->
  gate_string_to_dict (print_fixed_gate nm d cs)
  = Ok (mkGateDict nm [digits_value d] (control_values cs) None).
Proof.
  intros Hn [Hne Hd] Hc.
  assert (Hn1 : In nm one_qubit_names)
    by (unfold one_qubit_names; simpl in *; tauto).
  assert (Hn2 : In nm supported_names)
    by (unfold supported_names; simpl in *; tauto).
  remember (print_fixed_gate nm d cs) as s eqn:Es.
  assert (N : index (split1 (chars "(") s) 0 = Ok nm)
    by (rewrite Es; now apply name_of_gate_text).
  assert (T : get_one_gate_data_from_string s (chars "target")
              = Ok [digits_value d])
    by (rewrite Es; now apply one_qubit_target).
  assert (E : s = (nm ++ chars "(target=(" ++ d ++ chars ",)")
                    ++ print_control cs ++ chars ")")
    by (rewrite Es; unfold print_fixed_gate;
        now rewrite <- !app_assoc).
  assert (C : (if contains (chars "control") s
               then c <- get_one_gate_data_from_string s (chars "control") ;;
                    Ok (Some c)
               else Ok None) = Ok (control_values cs)).
  { rewrite E. apply builder_control;
      [now apply target_part_no_c|exact Hc|reflexivity]. }
  assert (P : contains (chars "parameter") s = false).
  { change (chars "parameter") with ("p" :: chars "arameter").
    apply contains_absent. rewrite E. intros H.
    apply in_app_or in H as [H|H].
    - revert H.
      apply (not_digit_not_listed "p" (chars "XYZHPhaseRxyz(target=,)"));
        [intros x; now apply target_part_chars|reflexivity|not_listed].
    - apply in_app_or in H as [H|H]; [|revert H; not_listed].
      revert H. apply (not_digit_not_listed "p" (chars ", control=()"));
        [intros x; now apply print_control_chars|reflexivity|not_listed]. }
  unfold gate_string_to_dict. rewrite N, T, C, P. reflexivity.
Qed.

(** X10: the builder reads a printed gate without a parameter back: the
    name, the one target, the controls as they are printed (none when the
    field is absent) and no parameter. *)
Theorem builder_reads_fixed_gate (nm d : pystr) (cs : option (list pystr)) :
  In nm [chars "X"; chars "Y"; chars "Z"; chars "H"] ->
  printed_index d -> printed_controls cs ->
  gate_string_to_dict (print_fixed_gate nm d cs)
  = Ok (mkGateDict nm [digits_value d] (control_values cs) None).
Proof. apply read_fixed_gate. Qed.

Lemma builder_reads_fixed_gate_witness :
  gate_string_to_dict (chars "H(target=(12,), control=(0, 3))")
  = Ok (mkGateDict (chars "H") [12%Z] (Some [0%Z; 3%Z]) None).
Proof.
  apply (builder_reads_fixed_gate (chars "H") (chars "12")
           (Some [chars "0"; chars "3"])).
  - simpl. tauto.
  - split; [discriminate|repeat constructor].
  - repeat constructor; discriminate.
Defined.

Lemma head_no_p (nm d : pystr) (cs : option (list pystr)) :
  In nm one_qubit_names -> all_digits d -> printed_controls cs ->
  ~ In "p" ((nm ++ chars "(target=(" ++ d ++ chars ",)")
              ++ print_control cs ++ chars ", ").
Proof.
  intros Hn Hd Hc H. apply in_app_or in H as [H|H].
  - revert H.
    apply (not_digit_not_listed "p" (chars "XYZHPhaseRxyz(target=,)"));
      [intros x; now apply target_part_chars|reflexivity|not_listed].
  - apply in_app_or in H as [H|H]; [|revert H; not_listed].
    revert H. apply (not_digit_not_listed "p" (chars ", control=()"));
      [intros x; now apply print_control_chars|reflexivity|not_listed].
Qed.

Lemma read_parametrized_gate (nm d : pystr) (cs : option (list pystr))
    (p : pystr) :
  In nm parametrized_names ->
  printed_index d -> printed_controls cs ->
  (cs = None -> contains (chars "control") p = false) ->
  gate_string_to_dict (print_parametrized_gate nm d cs p)
  = Ok (mkGateDict nm [digits_value d] (control_values cs)
          (Some (parameter_value (up_to_bracket p)))).
Proof.
  intros Hn [Hne Hd] Hc Hpc.
  assert (Hn1 : In nm one_qubit_names)
    by (unfold one_qubit_names, parametrized_names in *; simpl in *; tauto).
  assert (Hn2 : In nm supported_names)
    by (unfold supported_names, parametrized_names in *; simpl in *; tauto).
  remember (print_parametrized_gate nm d cs p) as s eqn:Es.
  assert (N : index (split1 (chars "(") s) 0 = Ok nm)
    by (rewrite Es; now apply name_of_gate_text).
  assert (T : get_one_gate_data_from_string s (chars "target")
              = Ok [digits_value d])
    by (rewrite Es; now apply one_qubit_target).
  assert (E : s = (nm ++ chars "(target=(" ++ d ++ chars ",)")
                    ++ print_control cs
                    ++ (chars ", parameter=" ++ p ++ chars ")"))
    by (rewrite Es; unfold print_parametrized_gate;
        now rewrite <- !app_assoc).
  assert (C : (if contains (chars "control") s
               then c <- get_one_gate_data_from_string s (chars "control") ;;
                    Ok (Some c)
               else Ok None) = Ok (control_values cs)).
  { rewrite E. apply builder_control;
      [now apply target_part_no_c|exact Hc|].
    intros Hnone. change (chars "control") with ("c" :: chars "ontrol").
    rewrite contains_skip_prefix by not_listed.
    apply contains_snoc; [not_listed|now apply Hpc]. }
  assert (E' : s = ((nm ++ chars "(target=(" ++ d ++ chars ",)")
                      ++ print_control cs ++ chars ", ")
                     ++ chars "parameter=" ++ p ++ ")" :: [])
    by (rewrite E; rewrite <- !app_assoc; reflexivity).
  assert (P1 : contains (chars "parameter") s = true).
  { rewrite E'. change (chars "parameter=") with (chars "parameter" ++ ["="]).
    rewrite <- (app_assoc (chars "parameter")). apply contains_here. }
  assert (P2 : get_gate_parameter s
               = Ok (parameter_value (up_to_bracket p))).
  { rewrite E'. apply get_gate_parameter_at. now apply head_no_p. }
  unfold gate_string_to_dict. rewrite N, T, C, P1, P2. reflexivity.
Qed.

(** X11: the builder reads a printed gate with a parameter back, when the
    gate has a control field or the parameter text does not contain
    "control": the name, the one target, the controls as printed, and the
    parameter text up to its first closing bracket, as a float when
    [float] accepts it and as the text itself otherwise. *)
Theorem builder_reads_parametrized_gate (nm d : pystr)
    (cs : option (list pystr)) (p : pystr) :
  In nm parametrized_names ->
  printed_index d -> printed_controls cs ->
  (cs = None -> contains (chars "control") p = false) ->
  gate_string_to_dict (print_parametrized_gate nm d cs p)
  = Ok (mkGateDict nm [digits_value d] (control_values cs)
          (Some (parameter_value (up_to_bracket p)))).
Proof. apply read_parametrized_gate. Qed.

Lemma builder_reads_parametrized_gate_witness :
  gate_string_to_dict (chars "Rz(target=(1,), control=(0,), parameter=beta)")
  = Ok (mkGateDict (chars "Rz") [1%Z] (Some [0%Z])
          (Some (PStr (chars "beta")))).
Proof.
  apply (builder_reads_parametrized_gate (chars "Rz") (chars "1")
           (Some [chars "0"]) (chars "beta")).
  - unfold parametrized_names. simpl. tauto.
  - split; [discriminate|repeat constructor].
  - repeat constructor; discriminate.
  - discriminate.
Defined.

Lemma swap_head_chars (d1 d2 : pystr) (a : ascii) :
  all_digits d1 -> all_digits d2 ->
  In a (chars "SWAP(target=(" ++ d1 ++ chars ", " ++ d2 ++ chars ")") ->
  isdigit a = true \/ In a (chars "SWAP(target=, )").
Proof.
  unfold all_digits. rewrite !Forall_forall. intros H1 H2 Ha.
  apply in_app_or in Ha as [Ha|Ha]; [right; simpl in *; tauto|].
  apply in_app_or in Ha as [Ha|Ha]; [auto|].
  apply in_app_or in Ha as [Ha|Ha]; [right; simpl in *; tauto|].
  apply in_app_or in Ha as [Ha|Ha]; [auto|right; simpl in *; tauto].
Qed.

Lemma swap_target_area (d1 d2 rest : pystr) :
  all_digits d1 -> all_digits d2 ->
  field_area
    (chars "SWAP(target=(" ++ d1 ++ chars ", " ++ d2 ++ ")" :: rest)
    (chars "target")
  = Ok (d1 ++ chars ", " ++ d2).
Proof.
  intros H1 H2.
  apply (field_area_found _ _ (chars "SWAP(") (d1 ++ chars ", " ++ d2) 
           (")" :: rest)).
  - reflexivity.
  - intros H. apply in_app_or in H as [H|H];
      [revert H; now apply digit_in|].
    apply in_app_or in H as [H|H]; [revert H; not_listed|].
    revert H; now apply digit_in.
  - right. eauto.
  - rewrite <- !app_assoc. reflexivity.
Qed.

Lemma read_swap_gate (d1 d2 : pystr) (cs : option (list pystr)) :
  printed_index d1 -> printed_index d2 -> printed_controls cs ->
  gate_string_to_dict (print_swap_gate d1 d2 cs)
  = Ok (mkGateDict (chars "SWAP") [digits_value d1; digits_value d2]
          (control_values cs) None).
Proof.
  intros Hd1 Hd2 Hc.
  remember (print_swap_gate d1 d2 cs) as s eqn:Es.
  assert (N : index (split1 (chars "(") s) 0 = Ok (chars "SWAP")).
  { rewrite Es. apply (name_of_gate_text (chars "SWAP")).
    unfold supported_names. simpl. tauto. }
  assert (T : get_one_gate_data_from_string s (chars "target")
              = Ok [digits_value d1; digits_value d2]).
  { rewrite Es.
    apply (read_printed_tuple _ _ [d1; d2]);
      [constructor; [exact Hd1|constructor; [exact Hd2|constructor]]|].
    apply swap_target_area; [apply Hd1|apply Hd2]. }
  assert (E : s = (chars "SWAP(target=(" ++ d1 ++ chars ", " ++ d2
                     ++ chars ")") ++ print_control cs ++ chars ")")
    by (rewrite Es; unfold print_swap_gate; now rewrite <- !app_assoc).
  assert (C : (if contains (chars "control") s
               then c <- get_one_gate_data_from_string s (chars "control") ;;
                    Ok (Some c)
               else Ok None) = Ok (control_values cs)).
  { rewrite E. apply builder_control; [|exact Hc|reflexivity].
    apply (not_digit_not_listed "c" (chars "SWAP(target=, )"));
      [intros x; apply swap_head_chars; [apply Hd1|apply Hd2]
      |reflexivity|not_listed]. }
  assert (P : contains (chars "parameter") s = false).
  { change (chars "parameter") with ("p" :: chars "arameter").
    apply contains_absent. rewrite E. intros H.
    apply in_app_or in H as [H|H].
    - revert H.
      apply (not_digit_not_listed "p" (chars "SWAP(target=, )"));
        [intros x; apply swap_head_chars; [apply Hd1|apply Hd2]
        |reflexivity|not_listed].
    - apply in_app_or in H as [H|H]; [|revert H; not_listed].
      revert H. apply (not_digit_not_listed "p" (chars ", control=()"));
        [intros x; now apply print_control_chars|reflexivity|not_listed]. }
  unfold gate_string_to_dict. rewrite N, T, C, P. reflexivity.
Qed.

(** X12: the builder reads a printed SWAP back: its two targets in their
    order, the controls as printed, no parameter. *)
Theorem builder_reads_swap_gate (d1 d2 : pystr) (cs : option (list pystr)) :
  printed_index d1 -> printed_index d2 -> printed_controls cs ->
  gate_string_to_dict (print_swap_gate d1 d2 cs)
  = Ok (mkGateDict (chars "SWAP") [digits_value d1; digits_value d2]
          (control_values cs) None).
Proof. apply read_swap_gate. Qed.

Lemma builder_reads_swap_gate_witness :
  gate_string_to_dict (chars "SWAP(target=(4, 10), control=())")
  = Ok (mkGateDict (chars "SWAP") [4%Z; 10%Z] (Some []) None).
Proof.
  apply (builder_reads_swap_gate (chars "4") (chars "10") (Some [])).
  - split; [discriminate|repeat constructor].
  - split; [discriminate|repeat constructor].
  - constructor.
Defined.

Lemma swap_missing_index (d1 d2 rest : pystr) :
  all_digits d1 -> all_digits d2 -> d1 = [] \/ d2 = [] ->
  gate_string_to_dict
    (chars "SWAP(target=(" ++ d1 ++ chars ", " ++ d2 ++ ")" :: rest)
  = Err ValueError.
Proof.
  intros H1 H2 Hempty.
  remember (chars "SWAP(target=(" ++ d1 ++ chars ", " ++ d2 ++ ")" :: rest)
    as s eqn:Es.
  assert (N : index (split1 (chars "(") s) 0 = Ok (chars "SWAP")).
  { rewrite Es. apply (name_of_gate_text (chars "SWAP")).
    unfold supported_names. simpl. tauto. }
  assert (T : get_one_gate_data_from_string s (chars "target")
              = Err ValueError).
  { apply extractor_bad_token with (area := d1 ++ chars ", " ++ d2)
      (tok := match d1 with [] => [] | _ :: _ => " " :: d2 end).
    - rewrite Es. now apply swap_target_area.
    - change (d1 ++ chars ", " ++ d2) with (d1 ++ "," :: " " :: d2).
      rewrite split_app_sep by (apply digit_in; [exact H1|reflexivity]).
      rewrite split_no_sep.
      + unfold drop_empty_tail. simpl. destruct d1; simpl; auto.
      + intros [H|H]; [discriminate H|].
        revert H. apply digit_in; [exact H2|reflexivity].
    - destruct Hempty as [->| ->]; [reflexivity|].
      destruct d1; reflexivity. }
  unfold gate_string_to_dict. rewrite N, T. reflexivity.
Qed.

(** X13: a SWAP printed with an index missing, which [SWAP_GATE_REGEX]
    admits, makes the builder raise ValueError, whatever follows the
    target field. *)
Theorem swap_with_missing_index_raises_ValueError (d1 d2 rest : pystr) :
  all_digits d1 -> all_digits d2 -> d1 = [] \/ d2 = [] ->
  gate_string_to_dict
    (chars "SWAP(target=(" ++ d1 ++ chars ", " ++ d2 ++ ")" :: rest)
  = Err ValueError.
Proof. apply swap_missing_index. Qed.

Lemma swap_with_missing_index_raises_ValueError_witness :
  gate_string_to_dict (chars "SWAP(target=(3, ), control=(1,))")
  = Err ValueError.
Proof.
  apply (swap_with_missing_index_raises_ValueError
           (chars "3") [] (chars ", control=(1,))")).
  - repeat constructor.
  - constructor.
  - now right.
Defined.

End PrintedGates.

(** ** The texts of the three patterns *)

Section PatternTexts.

Lemma matches_printed_index (d : pystr) :
  matches digits d -> printed_index d.
Proof. intros H. now apply matches_digits in H. Qed.

Lemma join_cons (d : pystr) (l : list pystr) :
  join (chars ", ") (d :: l) = d ++ concat (map (app (chars ", ")) l).
Proof.
  revert d; induction l as [|d' l IH]; intros d.
  - simpl. now rewrite app_nil_r.
  - change (join (chars ", ") (d :: d' :: l))
      with (d ++ chars ", " ++ join (chars ", ") (d' :: l)).
    rewrite IH. reflexivity.
Qed.

Lemma matches_more_indices (x : pystr) :
  matches (Star (Cat (Lit (chars ", ")) digits)) x ->
  exists l, Forall printed_index l /\
            x = concat (map (app (chars ", ")) l).
Proof.
  remember (Star (Cat (Lit (chars ", ")) digits)) as r eqn:E.
  induction 1 as [| | | | | |r' s1 s2 H1 _ H2 IH]; try discriminate.
  - exists []. split; [constructor|reflexivity].
  - injection E as ->. destruct (IH eq_refl) as (l & Hl & ->).
    apply matches_Cat_inv in H1 as (a & d & -> & Ha & Hd).
    apply (matches_Lit_inv (chars ", ")) in Ha. subst a.
    exists (d :: l). split.
    + constructor; [now apply matches_printed_index|exact Hl].
    + reflexivity.
Qed.

(** The indices of a control field: one followed by a comma, or two and
    more with ", " between them. *)
Lemma matches_control_list (body : pystr) :
  matches control_list body ->
  exists ds, Forall printed_index ds /\ body = print_tuple ds.
Proof.
  unfold control_list. intros H.
  apply matches_Alt_inv in H as [H|H];
    apply matches_Cat_inv in H as (d & x & -> & Hd & Hx);
    apply matches_printed_index in Hd.
  - apply matches_Lit_inv in Hx. subst x.
    exists [d]. split; [now constructor|reflexivity].
  - unfold Plus in Hx. apply matches_Cat_inv in Hx as (y & z & -> & Hy & Hz).
    apply matches_Cat_inv in Hy as (a & d' & -> & Ha & Hd').
    apply matches_Lit_inv in Ha. subst a.
    apply matches_printed_index in Hd'.
    apply matches_more_indices in Hz as (l & Hl & ->).
    exists (d :: d' :: l).
    split; [constructor; [exact Hd|constructor; [exact Hd'|exact Hl]]|].
    change (print_tuple (d :: d' :: l))
      with (join (chars ", ") (d :: d' :: l)).
    rewrite join_cons. reflexivity.
Qed.

Lemma matches_control_field (c : pystr) :
  matches control_field c ->
  exists cs, printed_controls cs /\ c = print_control cs.
Proof.
  unfold control_field. intros H.
  apply matches_Alt_inv in H as [H|H].
  - apply matches_Seq_cons in H as (a & x & -> & Ha & H).
    apply matches_Seq_cons in H as (body & y & -> & Hb & H).
    apply matches_Seq_cons in H as (b & z & -> & Hz & H).
    apply matches_Eps_inv in H. subst z.
    apply matches_Lit_inv in Ha, Hz. subst a b.
    apply matches_control_list in Hb as (ds & Hds & ->).
    exists (Some ds). split; [exact Hds|].
    unfold print_control. now rewrite app_nil_r.
  - apply matches_Eps_inv in H. subst c. now exists None.
Qed.

Lemma matches_target_field (t : pystr) :
  matches target_field t ->
  exists d, printed_index d /\ t = chars "(target=(" ++ d ++ chars ",)".
Proof.
  unfold target_field. intros H.
  apply matches_Seq_cons in H as (a & x & -> & Ha & H).
  apply matches_Seq_cons in H as (d & y & -> & Hd & H).
  apply matches_Seq_cons in H as (b & z & -> & Hb & H).
  apply matches_Eps_inv in H. subst z.
  apply matches_Lit_inv in Ha, Hb. subst a b.
  exists d. split; [now apply matches_printed_index|].
  now rewrite app_nil_r.
Qed.

(** The texts of the pattern for X, Y, Z and H are the printed gates
    without a parameter. *)
Lemma matches_fixed_gate (s : pystr) :
  matches NP_ONEQ_GATES_REGEX s ->
  exists nm d cs,
    In nm [chars "X"; chars "Y"; chars "Z"; chars "H"] /\
    printed_index d /\ printed_controls cs /\
    s = print_fixed_gate nm d cs.
Proof.
  unfold NP_ONEQ_GATES_REGEX. intros H.
  apply matches_Seq_cons in H as (nm & x & -> & Hn & H).
  apply matches_Seq_cons in H as (t & y & -> & Ht & H).
  apply matches_Seq_cons in H as (c & z & -> & Hc & H).
  apply matches_Seq_cons in H as (b & w & -> & Hb & H).
  apply matches_Eps_inv in H. subst w.
  apply matches_Lit_inv in Hb. subst b.
  apply matches_target_field in Ht as (d & Hd & ->).
  apply matches_control_field in Hc as (cs & Hcs & ->).
  exists nm, d, cs. repeat split; try assumption.
  - invert_matches; simpl; tauto.
  - apply Hd.
  - apply Hd.
  - unfold print_fixed_gate. now rewrite app_nil_r, <- !app_assoc.
Qed.

(** The texts of the pattern for Phase, Rx, Ry and Rz are the printed
    gates with a parameter. *)
Lemma matches_parametrized_gate (s : pystr) :
  matches P_ONEQ_GATES_REGEX s ->
  exists nm d cs p,
    In nm parametrized_names /\
    printed_index d /\ printed_controls cs /\
    s = print_parametrized_gate nm d cs p.
Proof.
  unfold P_ONEQ_GATES_REGEX. intros H.
  apply matches_Seq_cons in H as (nm & x & -> & Hn & H).
  apply matches_Seq_cons in H as (t & y & -> & Ht & H).
  apply matches_Seq_cons in H as (c & z & -> & Hc & H).
  apply matches_Seq_cons in H as (a & u & -> & Ha & H).
  apply matches_Seq_cons in H as (p & v & -> & _ & H).
  apply matches_Seq_cons in H as (b & w & -> & Hb & H).
  apply matches_Eps_inv in H. subst w.
  apply matches_Lit_inv in Ha, Hb. subst a b.
  apply matches_target_field in Ht as (d & Hd & ->).
  apply matches_control_field in Hc as (cs & Hcs & ->).
  exists nm, d, cs, p. repeat split; try assumption.
  - unfold parametrized_names. invert_matches; simpl; tauto.
  - apply Hd.
  - apply Hd.
  - unfold print_parametrized_gate. now rewrite app_nil_r, <- !app_assoc.
Qed.

(** The texts of the pattern for SWAP are the printed SWAP gates, with
    indices that may be empty. *)
Lemma matches_swap_gate (s : pystr) :
  matches SWAP_GATE_REGEX s ->
  exists d1 d2 cs,
    all_digits d1 /\ all_digits d2 /\ printed_controls cs /\
    s = print_swap_gate d1 d2 cs.
Proof.
  unfold SWAP_GATE_REGEX. intros H.
  apply matches_Seq_cons in H as (l1 & s1 & -> & Hl1 & H).
  apply matches_Seq_cons in H as (d1 & s2 & -> & Hd1 & H).
  apply matches_Seq_cons in H as (l2 & s3 & -> & Hl2 & H).
  apply matches_Seq_cons in H as (d2 & s4 & -> & Hd2 & H).
  apply matches_Seq_cons in H as (l3 & s5 & -> & Hl3 & H).
  apply matches_Seq_cons in H as (opt & s6 & -> & Ho & H).
  apply matches_Seq_cons in H as (l4 & s7 & -> & Hl4 & H).
  apply matches_Eps_inv in H. subst s7.
  apply matches_Lit_inv in Hl1, Hl2, Hl3, Hl4. subst l1 l2 l3 l4.
  apply matches_Star_Cls in Hd1, Hd2.
  assert (C : exists cs, printed_controls cs /\ opt = print_control cs).
  { apply matches_Alt_inv in Ho as [Ho|Ho].
    - apply matches_Seq_cons in Ho as (a & x & -> & Ha & Ho).
      apply matches_Seq_cons in Ho as (body & y & -> & Hb & Ho).
      apply matches_Seq_cons in Ho as (b & z & -> & Hz & Ho).
      apply matches_Eps_inv in Ho. subst z.
      apply matches_Lit_inv in Ha, Hz. subst a b.
      assert (B : exists ds, Forall printed_index ds /\ body = print_tuple ds).
      { apply matches_Alt_inv in Hb as [Hb|Hb].
        - apply matches_control_list. now apply MAltL.
        - apply matches_Alt_inv in Hb as [Hb|Hb].
          + apply matches_control_list. now apply MAltR.
          + apply matches_Eps_inv in Hb. subst body.
            exists []. split; [constructor|reflexivity]. }
      destruct B as (ds & Hds & ->).
      exists (Some ds). split; [exact Hds|].
      unfold print_control. now rewrite app_nil_r.
    - apply matches_Eps_inv in Ho. subst opt. now exists None. }
  destruct C as (cs & Hcs & ->).
  exists d1, d2, cs. repeat split; assumption.
Qed.

End PatternTexts.

(** ** The gate strings that the patterns match *)

Section MatchedGates.

Lemma contains_app_l (sub a b : pystr) :
  contains sub a = true -> contains sub (a ++ b) = true.
Proof.
  induction a as [|c a IH]; intros H.
  - simpl in H. rewrite orb_false_r in H.
    destruct sub; [|discriminate]. now destruct b.
  - rewrite contains_cons in H.
    change ((c :: a) ++ b) with (c :: a ++ b). rewrite contains_cons.
    apply orb_true_iff in H as [H|H].
    + change (c :: a ++ b) with ((c :: a) ++ b).
      now rewrite (startswith_app_true _ _ b H).
    + rewrite (IH H). apply orb_true_r.
Qed.

Lemma builder_name (string : pystr) (gate : GateDict) :
  gate_string_to_dict string = Ok gate ->
  index (split1 (chars "(") string) 0 = Ok (name gate).
Proof.
  unfold gate_string_to_dict. intros H.
  apply bind_Ok in H as (nm & Hn & H).
  apply bind_Ok in H as (tg & _ & H).
  apply bind_Ok in H as (ct & _ & H).
  apply bind_Ok in H as (pr & _ & H).
  injection H as <-. exact Hn.
Qed.

(** The text before the first bracket of a matched gate string is one of
    the nine names. *)
Lemma matched_gate_name (s : pystr) :
  matches gate_regex s ->
  exists nm, In nm supported_names /\
             index (split1 (chars "(") s) 0 = Ok nm.
Proof.
  unfold gate_regex. intros H.
  apply matches_Alt_inv in H as [H|H];
    [|apply matches_Alt_inv in H as [H|H]].
  - apply matches_fixed_gate in H as (nm & d & cs & Hn & _ & _ & ->).
    assert (Hs : In nm supported_names)
      by (unfold supported_names; simpl in *; tauto).
    exists nm. split; [exact Hs|now apply name_of_gate_text].
  - apply matches_parametrized_gate in H
      as (nm & d & cs & p & Hn & _ & _ & ->).
    assert (Hs : In nm supported_names)
      by (unfold supported_names, parametrized_names in *;
          simpl in *; tauto).
    exists nm. split; [exact Hs|now apply name_of_gate_text].
  - apply matches_swap_gate in H as (d1 & d2 & cs & _ & _ & _ & ->).
    assert (Hs : In (chars "SWAP") supported_names)
      by (unfold supported_names; simpl; tauto).
    exists (chars "SWAP"). split; [exact Hs|].
    now apply (name_of_gate_text (chars "SWAP")).
Qed.

Lemma matched_record_name (s : pystr) (gate : GateDict) :
  matches gate_regex s -> gate_string_to_dict s = Ok gate ->
  In (name gate) supported_names.
Proof.
  intros Hm Hg. destruct (matched_gate_name _ Hm) as (nm & Hn & Hi).
  apply builder_name in Hg. congruence.
Qed.

(** X15: the record built from a gate string that the grammar matches has
    one of the nine names, so the materializer does not return [None] for
    it. *)
Theorem parsed_gate_has_supported_name (s : pystr) (gate : GateDict) :
  fullmatch gate_regex s = true -> gate_string_to_dict s = Ok gate ->
  In (name gate) supported_names /\ gate_from_gate_dict gate <> Ok None.
Proof.
  intros Hm Hg. apply fullmatch_sound in Hm.
  pose proof (matched_record_name _ _ Hm Hg) as Hn.
  split; [exact Hn|]. intros H. apply materializer_None in H. tauto.
Qed.

Lemma parsed_gate_has_supported_name_witness :
  In (chars "SWAP") supported_names /\
  gate_from_gate_dict
    (mkGateDict (chars "SWAP") [0%Z; 1%Z] (Some []) None) <> Ok None.
Proof.
  apply (parsed_gate_has_supported_name
           (chars "SWAP(target=(0, 1), control=())")
           (mkGateDict (chars "SWAP") [0%Z; 1%Z] (Some []) None));
    reflexivity.
Defined.

(** X16: every text that the pattern of X, Y, Z and H matches builds a
    record: one of the four names, one target that is not negative,
    controls that are not negative, no parameter.  The builder raises
    nothing on such a text. *)
Theorem fixed_match_builds_record (s : pystr) :
  fullmatch NP_ONEQ_GATES_REGEX s = true ->
  exists nm q ctl,
    gate_string_to_dict s = Ok (mkGateDict nm [q] ctl None) /\
    In nm [chars "X"; chars "Y"; chars "Z"; chars "H"] /\ (0 <= q)%Z /\
    forall c, ctl = Some c -> Forall (fun x => (0 <= x)%Z) c.
Proof.
  intros H. apply fullmatch_sound in H.
  apply matches_fixed_gate in H as (nm & d & cs & Hn & Hd & Hc & ->).
  exists nm, (digits_value d), (control_values cs).
  split; [now apply read_fixed_gate|]. split; [exact Hn|].
  split; [apply digits_value_nonneg, Hd|].
  intros c Hcs. destruct cs as [ds|]; [|discriminate].
  injection Hcs as <-. now apply printed_values_nonneg.
Qed.

Lemma fixed_match_builds_record_witness :
  exists nm q ctl,
    gate_string_to_dict (chars "Z(target=(7,), control=(1, 2))")
    = Ok (mkGateDict nm [q] ctl None) /\
    In nm [chars "X"; chars "Y"; chars "Z"; chars "H"] /\ (0 <= q)%Z /\
    forall c, ctl = Some c -> Forall (fun x => (0 <= x)%Z) c.
Proof. apply fixed_match_builds_record. reflexivity. Defined.

(** X17: a text that the pattern of Phase, Rx, Ry and Rz matches and that
    does not contain "control" builds a record: one of the four names, one
    target that is not negative, no controls, and a parameter. *)
Theorem parametrized_match_builds_record (s : pystr) :
  fullmatch P_ONEQ_GATES_REGEX s = true ->
  contains (chars "control") s = false ->
  exists nm q par,
    gate_string_to_dict s = Ok (mkGateDict nm [q] None (Some par)) /\
    In nm parametrized_names /\ (0 <= q)%Z.
Proof.
  intros H Hc. apply fullmatch_sound in H.
  apply matches_parametrized_gate in H
    as (nm & d & cs & p & Hn & Hd & Hcs & ->).
  assert (E : print_parametrized_gate nm d cs p
              = (nm ++ chars "(target=(" ++ d ++ chars ",)")
                  ++ print_control cs
                  ++ (chars ", parameter=" ++ p ++ chars ")"))
    by (unfold print_parametrized_gate; now rewrite <- !app_assoc).
  destruct cs as [ds|].
  - rewrite E, control_text_present in Hc. discriminate Hc.
  - exists nm, (digits_value d), (parameter_value (up_to_bracket p)).
    split; [|split; [exact Hn|apply digits_value_nonneg, Hd]].
    apply (read_parametrized_gate nm d None p Hn Hd Hcs). intros _.
    destruct (contains (chars "control") p) eqn:Cp; [|reflexivity].
    rewrite E in Hc. unfold print_control in Hc.
    rewrite app_assoc in Hc. 
    rewrite (contains_app_r (chars "control")
               ((nm ++ chars "(target=(" ++ d ++ chars ",)") ++ [])
               (chars ", parameter=" ++ p ++ chars ")")) in Hc;
      [discriminate Hc|].
    apply (contains_app_r _ (chars ", parameter=")).
    now apply contains_app_l.
Qed.

Lemma parametrized_match_builds_record_witness :
  exists nm q par,
    gate_string_to_dict (chars "Phase(target=(2,), parameter=0.25)")
    = Ok (mkGateDict nm [q] None (Some par)) /\
    In nm parametrized_names /\ (0 <= q)%Z.
Proof. apply parametrized_match_builds_record; reflexivity. Defined.

(** X18: a text that the pattern of SWAP matches either builds a record
    named SWAP with two targets that are not negative and no parameter, or
    makes the builder raise ValueError, which is the case of a missing
    index. *)
Theorem swap_match_builds_or_raises_ValueError (s : pystr) :
  fullmatch SWAP_GATE_REGEX s = true ->
  (exists a b ctl,
     gate_string_to_dict s = Ok (mkGateDict (chars "SWAP") [a; b] ctl None)
     /\ (0 <= a)%Z /\ (0 <= b)%Z) \/
  gate_string_to_dict s = Err ValueError.
Proof.
  intros H. apply fullmatch_sound in H.
  apply matches_swap_gate in H as (d1 & d2 & cs & H1 & H2 & Hc & ->).
  destruct d1 as [|c1 d1].
  - right. unfold print_swap_gate. apply swap_missing_index; auto.
  - destruct d2 as [|c2 d2].
    + right. unfold print_swap_gate. apply swap_missing_index; auto.
    + left. exists (digits_value (c1 :: d1)), (digits_value (c2 :: d2)),
        (control_values cs).
      split; [|split; now apply digits_value_nonneg].
      apply read_swap_gate; [split; [discriminate|exact H1]
                            |split; [discriminate|exact H2]|exact Hc].
Qed.

Lemma swap_match_builds_or_raises_ValueError_witness :
  (exists a b ctl,
     gate_string_to_dict (chars "SWAP(target=(0, ))")
     = Ok (mkGateDict (chars "SWAP") [a; b] ctl None)
     /\ (0 <= a)%Z /\ (0 <= b)%Z) \/
  gate_string_to_dict (chars "SWAP(target=(0, ))") = Err ValueError.
Proof. apply swap_match_builds_or_raises_ValueError. reflexivity. Defined.

(** X19: no text is matched by two of the three patterns. *)
Theorem pattern_families_are_disjoint (s : pystr) :
  fullmatch NP_ONEQ_GATES_REGEX s && fullmatch P_ONEQ_GATES_REGEX s = false /\
  fullmatch NP_ONEQ_GATES_REGEX s && fullmatch SWAP_GATE_REGEX s = false /\
  fullmatch P_ONEQ_GATES_REGEX s && fullmatch SWAP_GATE_REGEX s = false.
Proof.
  assert (F : fullmatch NP_ONEQ_GATES_REGEX s = true ->
              exists c r, s = c :: r /\ In c (chars "XYZH")).
  { intros H. apply fullmatch_sound, matches_fixed_gate in H
      as (nm & d & cs & Hn & _ & _ & ->). simpl in Hn.
    repeat (destruct Hn as [<-|Hn];
            [eexists _, _; split; [reflexivity|simpl; tauto]|]).
    contradiction. }
  assert (P : fullmatch P_ONEQ_GATES_REGEX s = true ->
              exists c r, s = c :: r /\ In c (chars "PR")).
  { intros H. apply fullmatch_sound, matches_parametrized_gate in H
      as (nm & d & cs & p & Hn & _ & _ & ->).
    unfold parametrized_names in Hn. simpl in Hn.
    repeat (destruct Hn as [<-|Hn];
            [eexists _, _; split; [reflexivity|simpl; tauto]|]).
    contradiction. }
  assert (S : fullmatch SWAP_GATE_REGEX s = true -> exists r, s = "S" :: r).
  { intros H. apply fullmatch_sound, matches_swap_gate in H
      as (d1 & d2 & cs & _ & _ & _ & ->). eexists. reflexivity. }
  assert (A : fullmatch NP_ONEQ_GATES_REGEX s = true ->
              fullmatch P_ONEQ_GATES_REGEX s = true -> False).
  { intros H1 H2. destruct (F H1) as (c & r & -> & Hc).
    destruct (P H2) as (c' & r' & [= <- <-] & Hc'). simpl in *.
    repeat (destruct Hc as [<-|Hc];
            [repeat (destruct Hc' as [Hc'|Hc']; [discriminate Hc'|]);
             exact Hc'|]). exact Hc. }
  assert (B : fullmatch NP_ONEQ_GATES_REGEX s = true ->
              fullmatch SWAP_GATE_REGEX s = true -> False).
  { intros H1 H2. destruct (F H1) as (c & r & -> & Hc).
    destruct (S H2) as (r' & [= -> <-]). simpl in Hc.
    repeat (destruct Hc as [Hc|Hc]; [discriminate Hc|]). exact Hc. }
  assert (C : fullmatch P_ONEQ_GATES_REGEX s = true ->
              fullmatch SWAP_GATE_REGEX s = true -> False).
  { intros H1 H2. destruct (P H1) as (c & r & -> & Hc).
    destruct (S H2) as (r' & [= -> <-]). simpl in Hc.
    repeat (destruct Hc as [Hc|Hc]; [discriminate Hc|]). exact Hc. }
  destruct (fullmatch NP_ONEQ_GATES_REGEX s);
    destruct (fullmatch P_ONEQ_GATES_REGEX s);
    destruct (fullmatch SWAP_GATE_REGEX s); simpl; repeat split;
    solve [reflexivity | destruct (A eq_refl eq_refl)
          | destruct (B eq_refl eq_refl) | destruct (C eq_refl eq_refl)].
Qed.

End MatchedGates.

(** ** More on the builder and the reconstructor *)

Section ReconstructorCases.

Variable cmr : list regex -> pystr -> pystr -> bool.

Lemma index_raises_IndexError {A} (l : list A) (i : nat) :
  raises_only index_or_value (index l i).
Proof.
  unfold index. destruct (nth_error l i); intros e [= <-]. now left.
Qed.

Lemma extractor_raises_only (string data : pystr) :
  raises_only index_or_value (get_one_gate_data_from_string string data).
Proof.
  unfold get_one_gate_data_from_string, field_area.
  repeat (apply bind_raises_only; [|intros ?]);
    try apply index_raises_IndexError.
  apply comprehension_raises_only. intros n e. unfold to_int.
  destruct (int n); intros [= <-]. now right.
Qed.

Lemma builder_raises_only (string : pystr) :
  raises_only index_or_value (gate_string_to_dict string).
Proof.
  unfold gate_string_to_dict.
  apply bind_raises_only; [apply index_raises_IndexError|intros nm].
  apply bind_raises_only; [apply extractor_raises_only|intros tg].
  apply bind_raises_only; [|intros ct].
  { destruct (contains (chars "control") string); [|discriminate].
    apply bind_raises_only; [apply extractor_raises_only|discriminate]. }
  apply bind_raises_only; [|discriminate].
  destruct (contains (chars "parameter") string); [|discriminate].
  apply bind_raises_only; [|discriminate].
  unfold get_gate_parameter.
  apply bind_raises_only; [apply index_raises_IndexError|intros a].
  apply bind_raises_only; [apply index_raises_IndexError|intros t].
  destruct (float t); discriminate.
Qed.

(** X14: the builder fails with the built-in IndexError or ValueError
    only, whatever text it is given. *)
Theorem builder_raises_index_or_value (string : pystr) (e : exn) :
  gate_string_to_dict string = Err e -> e = IndexError \/ e = ValueError.
Proof. apply builder_raises_only. Qed.

Lemma builder_raises_index_or_value_witness :
  IndexError = IndexError \/ IndexError = ValueError.
Proof.
  apply (builder_raises_index_or_value (chars "X(control)")). reflexivity.
Defined.

(** The records of the gate strings that the scan finds have supported
    names. *)
Lemma scanned_records_supported (text : pystr) (records : list GateDict) :
  comprehension gate_string_to_dict (findall gate_regex text) = Ok records ->
  Forall (fun record => In (name record) supported_names) records.
Proof.
  intros H. apply comprehension_Forall2 in H.
  pose proof (findall_from_matches gate_regex (S (length text)) text) as M.
  fold (findall gate_regex text) in M.
  induction H as [|m record ms records Hm _ IH]; [constructor|].
  inversion M; subst. constructor; [|now apply IH].
  now apply (matched_record_name m).
Qed.

(** The loop over records with supported names: it fails like the
    materializer, and otherwise adds one gate for each record. *)
Lemma append_supported (gates : list GateDict) :
  Forall (fun record => In (name record) supported_names) gates ->
  forall c0,
    raises_only same_or_value (append_gates (Some c0) gates) /\
    forall r, append_gates (Some c0) gates = Ok r ->
              exists c, r = Some c /\ length c = length c0 + length gates.
Proof.
  induction 1 as [|gate gates Hn _ IH]; intros c0; simpl.
  - split; [discriminate|]. intros r [= <-]. exists c0. split; [reflexivity|lia].
  - destruct (gate_from_gate_dict gate) as [[c|]|e] eqn:G; simpl.
    + destruct (gate_from_gate_dict_single _ _ G) as [g ->].
      destruct (IH (c0 ++ [g])) as [IH1 IH2]. split; [exact IH1|].
      intros r Hr. destruct (IH2 r Hr) as (c & -> & L).
      exists c. split; [reflexivity|]. rewrite L, length_app. simpl. lia.
    + apply materializer_None in G. tauto.
    + split; [|discriminate]. intros e' [= <-].
      now apply (materializer_errors gate).
Qed.

Lemma comprehension_length {A B} (f : A -> result B) (l : list A)
    (l' : list B) :
  comprehension f l = Ok l' -> length l' = length l.
Proof.
  intros H. apply comprehension_Forall2 in H.
  induction H; simpl; congruence.
Qed.

(** What [circuit_from_string] gives after the validation, in terms of
    the records. *)
Lemma reconstruct_records (text : pystr) :
  validate_circuit_syntax cmr text = true ->
  circuit_from_string cmr text =
  (gates <- comprehension gate_string_to_dict (findall gate_regex text) ;;
   match gates with
   | [] => Ok None
   | first :: others =>
       circuit <- gate_from_gate_dict first ;; append_gates circuit others
   end).
Proof. unfold circuit_from_string. now intros ->. Qed.

Lemma rejected_text (text : pystr) :
  validate_circuit_syntax cmr text = false ->
  circuit_from_string cmr text = Err InvalidSyntaxError.
Proof. unfold circuit_from_string. now intros ->. Qed.

(** X24: the failures of [circuit_from_string], those of tequila's
    constructors apart: InvalidSyntaxError for a text that the validator
    rejects; for a text that it accepts, the
    IndexError or ValueError of the builder, or the SameControlAndTarget
    or ValueError of the materializer.  The materializer's [None] never
    reaches the composition, so no TypeError. *)
Theorem circuit_from_string_errors (text : pystr) (e : exn) :
  circuit_from_string cmr text = Err e ->
  (e = InvalidSyntaxError /\ validate_circuit_syntax cmr text = false) \/
  (validate_circuit_syntax cmr text = true /\
   (e = IndexError \/ e = ValueError \/ e = SameControlAndTarget)).
Proof.
  destruct (validate_circuit_syntax cmr text) eqn:V.
  - rewrite (reconstruct_records _ V). intros H. right. split; [reflexivity|].
    destruct (comprehension gate_string_to_dict (findall gate_regex text))
      as [records|e'] eqn:C; simpl in H.
    + pose proof (scanned_records_supported _ _ C) as Hs.
      destruct records as [|first others]; [discriminate|].
      inversion Hs as [|? ? Hf Ho]; subst.
      destruct (gate_from_gate_dict first) as [[c|]|e'] eqn:G; simpl in H.
      * destruct (append_supported _ Ho c) as [R _].
        destruct (R _ H) as [-> | ->]; auto.
      * apply materializer_None in G. tauto.
      * injection H as <-.
        destruct (materializer_errors _ _ G) as [-> | ->]; auto.
    + injection H as <-.
      assert (R : raises_only index_or_value
                    (comprehension gate_string_to_dict
                       (findall gate_regex text)))
        by apply comprehension_raises_only, builder_raises_only.
      destruct (R _ C) as [-> | ->]; auto.
  - rewrite (rejected_text _ V). intros [= <-]. now left.
Qed.

(** X25: [circuit_from_string] returns [None] exactly when the validator
    accepts the text and the scan finds no gate in it. *)
Theorem circuit_from_string_None_iff (text : pystr) :
  circuit_from_string cmr text = Ok None <->
  validate_circuit_syntax cmr text = true /\ findall gate_regex text = [].
Proof.
  split.
  - destruct (validate_circuit_syntax cmr text) eqn:V;
      [|rewrite (rejected_text _ V); discriminate].
    rewrite (reconstruct_records _ V). intros H. split; [reflexivity|].
    apply bind_Ok in H as (records & C & H).
    pose proof (scanned_records_supported _ _ C) as Hs.
    destruct records as [|first others].
    + apply comprehension_length in C.
      destruct (findall gate_regex text); [reflexivity|discriminate C].
    + exfalso. inversion Hs as [|? ? Hf Ho]; subst.
      apply bind_Ok in H as (o & G & H). destruct o as [c|].
      * destruct (append_supported _ Ho c) as [_ R].
        destruct (R _ H) as (c' & E & _). discriminate E.
      * apply materializer_None in G. tauto.
  - intros [V F]. rewrite (reconstruct_records _ V), F. reflexivity.
Qed.

(** X26: a circuit that is built is composed of one constructor call for
    each gate string that the scan found, so it is never an empty
    circuit. *)
Theorem circuit_has_one_gate_per_match (text : pystr) (circuit : QCircuit) :
  circuit_from_string cmr text = Ok (Some circuit) ->
  length circuit = length (findall gate_regex text) /\ circuit <> [].
Proof.
  intros H.
  assert (V : validate_circuit_syntax cmr text = true).
  { destruct (validate_circuit_syntax cmr text) eqn:V; [reflexivity|].
    rewrite (rejected_text _ V) in H. discriminate H. }
  rewrite (reconstruct_records _ V) in H.
  apply bind_Ok in H as (records & C & H).
  pose proof (scanned_records_supported _ _ C) as Hs.
  apply comprehension_length in C. rewrite <- C.
  destruct records as [|first others]; [discriminate|].
  inversion Hs as [|? ? Hf Ho]; subst.
  apply bind_Ok in H as (o & G & H). destruct o as [c|].
  - destruct (gate_from_gate_dict_single _ _ G) as [g ->].
    destruct (append_supported _ Ho [g]) as [_ R].
    destruct (R _ H) as (c' & [= <-] & L). simpl in *.
    split; [exact L|]. intros ->. discriminate L.
  - apply materializer_None in G. tauto.
Qed.

Lemma append_Same (gates : list GateDict) :
  forall c, append_gates c gates = Err SameControlAndTarget ->
            exists record, In record gates /\ shares_qubit record.
Proof.
  induction gates as [|gate gates IH]; intros c; simpl; [discriminate|].
  destruct (gate_from_gate_dict gate) as [o|e] eqn:G; simpl.
  - destruct (iadd c o) as [c'|e] eqn:I; simpl.
    + intros H. destruct (IH _ H) as (record & Hin & Hs). eauto.
    + destruct c, o; simpl in I; discriminate || (injection I as <-);
        discriminate.
  - intros [= ->]. exists gate. split; [now left|].
    now apply materializer_Same.
Qed.

(** X27: when [circuit_from_string] raises SameControlAndTarget, every gate
    string of the text has built a record, and in one of the records a
    qubit is both a control and a target. *)
Theorem SameControlAndTarget_comes_from_a_record (text : pystr) :
  circuit_from_string cmr text = Err SameControlAndTarget ->
  exists records record,
    comprehension gate_string_to_dict (findall gate_regex text)
    = Ok records /\
    In record records /\ shares_qubit record.
Proof.
  intros H.
  assert (V : validate_circuit_syntax cmr text = true).
  { destruct (validate_circuit_syntax cmr text) eqn:V; [reflexivity|].
    rewrite (rejected_text _ V) in H. discriminate H. }
  rewrite (reconstruct_records _ V) in H.
  destruct (comprehension gate_string_to_dict (findall gate_regex text))
    as [records|e] eqn:C; simpl in H.
  - exists records. destruct records as [|first others]; [discriminate|].
    destruct (gate_from_gate_dict first) as [o|e] eqn:G; simpl in H.
    + destruct (append_Same _ _ H) as (record & Hin & Hs).
      exists record. split; [reflexivity|]. split; [now right|exact Hs].
    + injection H as ->. exists first.
      split; [reflexivity|]. split; [now left|].
      now apply materializer_Same.
  - injection H as ->.
    assert (R : raises_only index_or_value
                  (comprehension gate_string_to_dict
                     (findall gate_regex text)))
      by apply comprehension_raises_only, builder_raises_only.
    destruct (R _ C) as [E|E]; discriminate E.
Qed.

End ReconstructorCases.

Lemma circuit_from_string_errors_witness :
  (IndexError = InvalidSyntaxError /\
   validate_circuit_syntax create_multiline_regex
     (chars "circuit: Rx(target=(0,), parameter=control)") = false) \/
  (validate_circuit_syntax create_multiline_regex
     (chars "circuit: Rx(target=(0,), parameter=control)") = true /\
   (IndexError = IndexError \/ IndexError = ValueError \/
    IndexError = SameControlAndTarget)).
Proof.
  apply (circuit_from_string_errors create_multiline_regex).
  vm_compute. reflexivity.
Defined.

Lemma circuit_has_one_gate_per_match_witness :
  length [Fixed (chars "H") [0%Z] None;
          Rotation (chars "Rx") (Some (PFloat (FDec false 5 (-1)))) [1%Z]
            None;
          Fixed (chars "X") [2%Z] (Some [0%Z])]
  = length (findall gate_regex three_gates) /\
  [Fixed (chars "H") [0%Z] None;
   Rotation (chars "Rx") (Some (PFloat (FDec false 5 (-1)))) [1%Z] None;
   Fixed (chars "X") [2%Z] (Some [0%Z])] <> [].
Proof.
  apply (circuit_has_one_gate_per_match create_multiline_regex).
  vm_compute. reflexivity.
Defined.

Lemma SameControlAndTarget_comes_from_a_record_witness :
  exists records record,
    comprehension gate_string_to_dict
      (findall gate_regex
         (chars "circuit: H(target=(1,)) X(target=(0,), control=(0,))"))
    = Ok records /\
    In record records /\ shares_qubit record.
Proof.
  apply (SameControlAndTarget_comes_from_a_record create_multiline_regex).
  vm_compute. reflexivity.
Defined.

(** ** From a printed gate to the gate *)

Section PrintedToGate.

(** X20: the target of a one-qubit gate string is always read: for a text
    that one of the two one-qubit patterns matches, the target extractor
    gives one index, which is not negative, whatever the parameter text
    is. *)
Theorem one_qubit_target_is_read (s : pystr) :
  fullmatch NP_ONEQ_GATES_REGEX s = true \/
  fullmatch P_ONEQ_GATES_REGEX s = true ->
  exists q, get_one_gate_data_from_string s (chars "target") = Ok [q] /\
            (0 <= q)%Z.
Proof.
  intros H.
  assert (M : matches NP_ONEQ_GATES_REGEX s \/ matches P_ONEQ_GATES_REGEX s)
    by (destruct H as [H|H]; [left|right]; now apply fullmatch_sound).
  destruct (one_qubit_shape _ M) as (nm & d & rest & -> & Hn & Hne & Hd).
  exists (digits_value d). split; [now apply one_qubit_target|].
  now apply digits_value_nonneg.
Qed.

Lemma one_qubit_target_is_read_witness :
  exists q,
    get_one_gate_data_from_string
      (chars "Ry(target=(5,), parameter=control_t)") (chars "target")
    = Ok [q] /\ (0 <= q)%Z.
Proof. apply one_qubit_target_is_read. right. reflexivity. Defined.

(** X21: building and materializing a printed SWAP whose targets are not
    among its controls gives the SWAP of the two targets, in their order,
    with the controls as printed. *)
Theorem printed_swap_gives_swap (d1 d2 : pystr) (cs : option (list pystr)) :
  printed_index d1 -> printed_index d2 -> printed_controls cs ->
  (forall c, control_values cs = Some c ->
             ~ In (digits_value d1) c /\ ~ In (digits_value d2) c) ->
  (record <- gate_string_to_dict (print_swap_gate d1 d2 cs) ;;
   gate_from_gate_dict record)
  = Ok (Some [Swap (digits_value d1) (digits_value d2) (control_values cs)]).
Proof.
  intros H1 H2 Hc Hd. rewrite (read_swap_gate _ _ _ H1 H2 Hc). cbn [bind].
  unfold gate_from_gate_dict.
  assert (S : same_control_and_target
                (mkGateDict (chars "SWAP")
                   [digits_value d1; digits_value d2]
                   (control_values cs) None) = false).
  { apply same_control_and_target_disjoint.
    intros (c & q & Ec & Hq & Hin). simpl in Ec, Hq.
    destruct (Hd c Ec) as [N1 N2].
    destruct Hq as [<-|[<-|[]]]; contradiction. }
  rewrite S. reflexivity.
Qed.

Lemma printed_swap_gives_swap_witness :
  (record <- gate_string_to_dict (chars "SWAP(target=(0, 1), control=(2,))") ;;
   gate_from_gate_dict record)
  = Ok (Some [Swap 0 1 (Some [2%Z])]).
Proof.
  apply (printed_swap_gives_swap (chars "0") (chars "1") (Some [chars "2"])).
  - split; [discriminate|repeat constructor].
  - split; [discriminate|repeat constructor].
  - repeat constructor; discriminate.
  - intros c [= <-]. simpl. split; intros [H|[]]; discriminate H.
Defined.

(** X22: building and materializing a printed gate with a parameter, whose
    target is not among its controls, gives one gate of that name on that
    target with those controls, and its angle is the parameter that the
    builder read. *)
Theorem printed_parametrized_gate_gives_gate (nm d : pystr)
    (cs : option (list pystr)) (p : pystr) :
  In nm parametrized_names ->
  printed_index d -> printed_controls cs ->
  (cs = None -> contains (chars "control") p = false) ->
  (forall c, control_values cs = Some c -> ~ In (digits_value d) c) ->
  exists g,
    (record <- gate_string_to_dict (print_parametrized_gate nm d cs p) ;;
     gate_from_gate_dict record) = Ok (Some [g]) /\
    gate_kind g = nm /\ gate_targets g = [digits_value d] /\
    gate_controls g = control_values cs /\
    gate_angle g = Some (parameter_value (up_to_bracket p)).
Proof.
  intros Hn Hd Hc Hp Hdis.
  rewrite (read_parametrized_gate _ _ _ _ Hn Hd Hc Hp). cbn [bind].
  unfold gate_from_gate_dict.
  assert (S : same_control_and_target
                (mkGateDict nm [digits_value d] (control_values cs)
                   (Some (parameter_value (up_to_bracket p)))) = false).
  { apply same_control_and_target_disjoint.
    intros (c & q & Ec & Hq & Hin). simpl in Ec, Hq.
    destruct Hq as [<-|[]]. now apply (Hdis c Ec). }
  rewrite S. unfold parametrized_names in Hn. simpl in Hn.
  repeat (destruct Hn as [<-|Hn];
          [eexists; split; [reflexivity|repeat split]|]).
  contradiction.
Qed.

Lemma printed_parametrized_gate_gives_gate_witness :
  exists g,
    (record <- gate_string_to_dict
                 (chars "Phase(target=(3,), control=(0, 1), parameter=1.5)") ;;
     gate_from_gate_dict record) = Ok (Some [g]) /\
    gate_kind g = chars "Phase" /\ gate_targets g = [3%Z] /\
    gate_controls g = Some [0%Z; 1%Z] /\
    gate_angle g = Some (PFloat (FDec false 15 (-1))).
Proof.
  apply (printed_parametrized_gate_gives_gate (chars "Phase") (chars "3")
           (Some [chars "0"; chars "1"]) (chars "1.5")).
  - unfold parametrized_names. simpl. tauto.
  - split; [discriminate|repeat constructor].
  - repeat constructor; discriminate.
  - discriminate.
  - intros c [= <-]. simpl. intros [H|[H|[]]]; discriminate H.
Defined.

End PrintedToGate.

(** ** How the matcher runs on printed gates *)

Section MatcherRuns.

Context {A : Type}.

Lemma run_Star (r : regex) (s : pystr) (k : pystr -> option A) :
  run (Star r) s k = star_loop r k (length s) s.
Proof. reflexivity. Qed.

Lemma run_Lit (l s : pystr) (k : pystr -> option A) :
  run (Lit l) (l ++ s) k = k s.
Proof.
  induction l as [|c l IH]; [reflexivity|].
  simpl. now rewrite Ascii.eqb_refl.
Qed.

Lemma run_Cat (r1 r2 : regex) (s : pystr) (k : pystr -> option A) :
  run (Cat r1 r2) s k = run r1 s (fun s' => run r2 s' k).
Proof. reflexivity. Qed.

Lemma run_Alt (r1 r2 : regex) (s : pystr) (k : pystr -> option A) :
  run (Alt r1 r2) s k =
  match run r1 s k with
  | Some x => Some x
  | None => run r2 s k
  end.
Proof. reflexivity. Qed.

(** A greedy run of digits before a continuation that refuses digits: all
    the digits are taken, and nothing else is tried. *)
Lemma star_loop_digits (d s : pystr) (k : pystr -> option A) :
  all_digits d -> no_digit_ahead s -> refuses_digits k ->
  forall n, length (d ++ s) <= n ->
  star_loop (Cls CDigit) k n (d ++ s) = k s.
Proof.
  intros Hd Hs Hk. induction Hd as [|c d Hc _ IH]; intros n Hn.
  - simpl. destruct n as [|n]; [reflexivity|]. simpl.
    destruct s as [|c s]; [reflexivity|].
    simpl in Hs. simpl. now rewrite Hs.
  - destruct n as [|n]; [simpl in Hn; lia|].
    cbn [star_loop]. change ((c :: d) ++ s) with (c :: d ++ s).
    cbn [run class_mem]. rewrite Hc.
    replace (Nat.ltb (length (d ++ s)) (length (c :: d ++ s))) with true
      by (symmetry; apply Nat.ltb_lt; simpl; lia).
    rewrite IH by (simpl in Hn; lia).
    destruct (k s) eqn:E; [reflexivity|].
    now apply Hk.
Qed.

Lemma run_digit_star (d s : pystr) (k : pystr -> option A) :
  all_digits d -> no_digit_ahead s -> refuses_digits k ->
  run (Star (Cls CDigit)) (d ++ s) k = k s.
Proof.
  intros Hd Hs Hk. rewrite run_Star. now apply star_loop_digits.
Qed.

Lemma run_digits (d s : pystr) (k : pystr -> option A) :
  printed_index d -> no_digit_ahead s -> refuses_digits k ->
  run digits (d ++ s) k = k s.
Proof.
  intros [Hne Hd] Hs Hk. destruct d as [|c d]; [contradiction|].
  inversion Hd as [|? ? Hc Hd']; subst.
  unfold digits, Plus. rewrite run_Cat.
  change ((c :: d) ++ s) with (c :: d ++ s). cbn [run class_mem].
  rewrite Hc. now apply run_digit_star.
Qed.

Lemma star_loop_digits_found (d s : pystr) (k : pystr -> option A) (x : A) :
  all_digits d -> no_digit_ahead s -> k s = Some x ->
  forall n, length (d ++ s) <= n ->
  star_loop (Cls CDigit) k n (d ++ s) = Some x.
Proof.
  intros Hd Hs Hk. induction Hd as [|c d Hc _ IH]; intros n Hn.
  - simpl. destruct n as [|n]; [exact Hk|]. simpl.
    destruct s as [|c s]; [exact Hk|].
    simpl in Hs. simpl. now rewrite Hs.
  - destruct n as [|n]; [simpl in Hn; lia|].
    cbn [star_loop]. change ((c :: d) ++ s) with (c :: d ++ s).
    cbn [run class_mem]. rewrite Hc.
    replace (Nat.ltb (length (d ++ s)) (length (c :: d ++ s))) with true
      by (symmetry; apply Nat.ltb_lt; simpl; lia).
    now rewrite IH by (simpl in Hn; lia).
Qed.

Lemma run_Cls (cl : cclass) (c : ascii) (s : pystr)
    (k : pystr -> option A) :
  class_mem cl c = true -> run (Cls cl) (c :: s) k = k s.
Proof. intros H. simpl. now rewrite H. Qed.

Lemma run_digits_found (d s : pystr) (k : pystr -> option A) (x : A) :
  printed_index d -> no_digit_ahead s -> k s = Some x ->
  run digits (d ++ s) k = Some x.
Proof.
  intros [Hne Hd] Hs Hk. destruct d as [|c d]; [contradiction|].
  inversion Hd as [|? ? Hc Hd']; subst.
  unfold digits, Plus. rewrite run_Cat.
  change ((c :: d) ++ s) with (c :: d ++ s).
  rewrite run_Cls by exact Hc. rewrite run_Star.
  now apply star_loop_digits_found.
Qed.

Lemma expects_bracket_refuses_digits (k : pystr -> option A) :
  expects_bracket k -> refuses_digits k.
Proof.
  intros H c s Hc. apply H. intros ->. discriminate Hc.
Qed.

Lemma after_bracket_expects (k : pystr -> option A) :
  expects_bracket (fun s => run (Lit (chars ")")) s k).
Proof.
  intros c s Hc. simpl. destruct (Ascii.eqb c ")") eqn:E; [|reflexivity].
  apply Ascii.eqb_eq in E. contradiction.
Qed.

(** The iteration over ", index" refuses what its continuation refuses
    among the texts that start with a digit. *)
Lemma star_more_indices_refuses (k : pystr -> option A) (n : nat) :
  refuses_digits k -> refuses_digits (star_loop more_indices k n).
Proof.
  intros Hk c s Hc. destruct n as [|n]; simpl; [now apply Hk|].
  destruct (Ascii.eqb c ",") eqn:E.
  - apply Ascii.eqb_eq in E. subst c. discriminate Hc.
  - now apply Hk.
Qed.

Lemma more_indices_no_digit_ahead (l : list pystr) (s : pystr) :
  no_digit_ahead (concat (map (app (chars ", ")) l) ++ ")" :: s).
Proof. destruct l; reflexivity. Qed.

(** The rest of a control list is read to its end. *)
Lemma star_more_indices (l : list pystr) (s : pystr)
    (k : pystr -> option A) :
  Forall printed_index l -> expects_bracket k ->
  forall n, length (concat (map (app (chars ", ")) l) ++ ")" :: s) <= n ->
  star_loop more_indices k n (concat (map (app (chars ", ")) l) ++ ")" :: s)
  = k (")" :: s).
Proof.
  intros Hl Hk. induction Hl as [|d l Hd _ IH]; intros n Hn.
  - simpl. destruct n as [|n]; reflexivity.
  - cbn [map concat] in *. rewrite <- !app_assoc in *.
    pose proof (more_indices_no_digit_ahead l s) as Hnd.
    remember (concat (map (app (chars ", ")) l) ++ ")" :: s) as rest eqn:Er.
    assert (L : length (chars ", " ++ d ++ rest)
                = 2 + length d + length rest)
      by (rewrite !length_app; reflexivity).
    rewrite L in Hn.
    destruct n as [|n]; [lia|].
    cbn [star_loop]. unfold more_indices at 1. rewrite run_Cat, run_Lit.
    rewrite run_digits; [|exact Hd|exact Hnd|].
    + replace (Nat.ltb (length rest)
                 (length (chars ", " ++ d ++ rest))) with true
        by (symmetry; apply Nat.ltb_lt; lia).
      rewrite IH by lia.
      destruct (k (")" :: s)) eqn:E; [reflexivity|].
      apply Hk. discriminate.
    + intros c t Hc.
      destruct (Nat.ltb (length (c :: t))
                  (length (chars ", " ++ d ++ rest))); [|reflexivity].
      apply star_more_indices_refuses;
        [now apply expects_bracket_refuses_digits|exact Hc].
Qed.

(** A printed tuple of one index and more, before a closing bracket, is
    matched by the pattern of the control indices in one way. *)
Lemma run_control_list (ds : list pystr) (s : pystr)
    (k : pystr -> option A) :
  ds <> [] -> Forall printed_index ds -> expects_bracket k ->
  run control_list (print_tuple ds ++ ")" :: s) k = k (")" :: s).
Proof.
  intros Hne Hds Hk. destruct ds as [|d ds]; [contradiction|].
  inversion Hds as [|? ? Hd Hds']; subst.
  unfold control_list. rewrite run_Alt, !run_Cat.
  destruct ds as [|d' ds].
  - simpl print_tuple. rewrite <- app_assoc.
    rewrite run_digits;
      [|exact Hd|reflexivity
       |intros c t Hc; simpl;
        destruct (Ascii.eqb c ",") eqn:E; [|reflexivity];
        apply Ascii.eqb_eq in E; subst c; discriminate Hc].
    change (chars "," ++ ")" :: s) with (chars "," ++ (")" :: s)).
    rewrite run_Lit.
    destruct (k (")" :: s)) eqn:E; [reflexivity|].
    rewrite run_digits;
      [|exact Hd|reflexivity
       |intros c t Hc; simpl;
        destruct (Ascii.eqb c ",") eqn:E'; [|reflexivity];
        apply Ascii.eqb_eq in E'; subst c; discriminate Hc].
    reflexivity.
  - change (print_tuple (d :: d' :: ds))
      with (join (chars ", ") (d :: d' :: ds)).
    rewrite join_cons. rewrite <- app_assoc.
    inversion Hds' as [|? ? Hd' Hds'']; subst.
    cbn [map concat]. rewrite <- !app_assoc.
    set (rest := concat (map (app (chars ", ")) ds) ++ ")" :: s).
    rewrite run_digits;
      [|exact Hd|reflexivity
       |intros c t Hc; simpl;
        destruct (Ascii.eqb c ",") eqn:E; [|reflexivity];
        apply Ascii.eqb_eq in E; subst c; discriminate Hc].
    assert (F : run (Lit (chars ",")) (chars ", " ++ d' ++ rest) k = None).
    { simpl. apply Hk. discriminate. }
    rewrite F.
    rewrite run_digits;
      [|exact Hd|reflexivity
       |intros c t Hc; simpl;
        destruct (Ascii.eqb c ",") eqn:E; [|reflexivity];
        apply Ascii.eqb_eq in E; subst c; discriminate Hc].
    unfold Plus. rewrite run_Cat.
    fold more_indices. unfold more_indices at 1.
    rewrite run_Cat, run_Lit.
    rewrite run_digits;
      [|exact Hd'
       |apply more_indices_no_digit_ahead
       |].
    + rewrite run_Star. now apply star_more_indices.
    + intros c t Hc. rewrite run_Star.
      apply star_more_indices_refuses;
        [now apply expects_bracket_refuses_digits|exact Hc].
Qed.

Lemma run_Seq_cons (r : regex) (rs : list regex) (s : pystr)
    (k : pystr -> option A) :
  run (Seq (r :: rs)) s k = run r s (fun s' => run (Seq rs) s' k).
Proof. reflexivity. Qed.

Lemma run_Seq_nil (s : pystr) (k : pystr -> option A) :
  run (Seq []) s k = k s.
Proof. reflexivity. Qed.

Lemma run_target_field (d s : pystr) (k : pystr -> option A) :
  printed_index d ->
  run target_field (chars "(target=(" ++ d ++ chars ",)" ++ s) k = k s.
Proof.
  intros Hd. unfold target_field.
  rewrite run_Seq_cons, run_Lit, run_Seq_cons.
  rewrite run_digits; [|exact Hd|reflexivity|].
  - now rewrite run_Seq_cons, run_Lit, run_Seq_nil.
  - intros c t Hc. rewrite run_Seq_cons. simpl.
    destruct (Ascii.eqb c ",") eqn:E; [|reflexivity].
    apply Ascii.eqb_eq in E. subst c. discriminate Hc.
Qed.

(** The optional control field of a one-qubit gate: the field when it is
    printed, and nothing when the text goes on with something else. *)
Lemma run_control_field (cs : option (list pystr)) (s : pystr)
    (k : pystr -> option A) :
  controls_given cs ->
  (forall kk : pystr -> option A,
     run (Lit (chars ", control=(")) s kk = None) ->
  (forall t, k (chars ", control=(" ++ t) = None) ->
  run control_field (print_control cs ++ s) k = k s.
Proof.
  intros Hc Hs Hk. unfold control_field, Opt. rewrite run_Alt.
  destruct cs as [ds|].
  - destruct Hc as [Hne Hds]. unfold print_control.
    rewrite <- !app_assoc. rewrite run_Seq_cons, run_Lit, run_Seq_cons.
    change (chars ")" ++ s) with (")" :: s).
    rewrite run_control_list;
      [|exact Hne|exact Hds
       |intros c t Hcne; rewrite run_Seq_cons;
        now apply after_bracket_expects].
    rewrite run_Seq_cons.
    change (")" :: s) with (chars ")" ++ s). rewrite run_Lit, run_Seq_nil.
    destruct (k s) eqn:E; [reflexivity|].
    simpl run at 1. apply (Hk (print_tuple ds ++ chars ")" ++ s)).
  - simpl print_control. simpl app. rewrite run_Seq_cons, Hs. reflexivity.
Qed.

Lemma run_fixed_name (nm s : pystr) (k : pystr -> option A) :
  In nm [chars "X"; chars "Y"; chars "Z"; chars "H"] ->
  run fixed_name (nm ++ s) k = k s.
Proof.
  simpl. intros H.
  repeat (destruct H as [<-|H]; [cbn; destruct (k s); reflexivity|]).
  contradiction.
Qed.

Lemma run_parametrized_name (nm s : pystr) (k : pystr -> option A) :
  In nm parametrized_names -> run parametrized_name (nm ++ s) k = k s.
Proof.
  unfold parametrized_names. simpl. intros H.
  repeat (destruct H as [<-|H]; [cbn; destruct (k s); reflexivity|]).
  contradiction.
Qed.

(** A greedy run of non-digits over a text without closing bracket,
    before a continuation that wants one: nothing matches. *)
Lemma star_loop_plain (t b : pystr) (k : pystr -> option A) :
  plain_text t -> digit_or_end b -> expects_bracket k -> k [] = None ->
  forall n, star_loop (Cls CNonDigit) k n (t ++ b) = None.
Proof.
  intros Ht Hb Hk Hk0.
  assert (B : k b = None).
  { destruct b as [|c b]; [exact Hk0|]. apply Hk. intros ->.
    simpl in Hb. discriminate Hb. }
  induction t as [|c t IH]; intros n.
  - simpl. destruct n as [|n]; [exact B|]. simpl.
    destruct b as [|c b]; [exact B|].
    simpl in Hb. simpl. rewrite Hb. exact B.
  - assert (Hc : isdigit c = false /\ c <> ")") by (apply Ht; now left).
    assert (K : k (c :: t ++ b) = None) by (apply Hk; apply Hc).
    destruct n as [|n]; [exact K|].
    change ((c :: t) ++ b) with (c :: t ++ b).
    cbn [star_loop run class_mem]. destruct Hc as [Hc _]. rewrite Hc.
    cbn [negb].
    destruct (Nat.ltb (length (t ++ b)) (length (c :: t ++ b)));
      [|exact K].
    rewrite IH; [exact K|]. intros a Ha. apply Ht. now right.
Qed.

(** The same run backs up to the last closing bracket before the first
    digit. *)
Lemma star_loop_to_last_bracket (a q b : pystr) (k : pystr -> option A)
    (x : A) :
  Forall (fun c => isdigit c = false) a ->
  plain_text q -> digit_or_end b -> expects_bracket k -> k [] = None ->
  k (")" :: q ++ b) = Some x ->
  forall n, length (a ++ ")" :: q ++ b) <= n ->
  star_loop (Cls CNonDigit) k n (a ++ ")" :: q ++ b) = Some x.
Proof.
  intros Ha Hq Hb Hk Hk0 Hx. induction Ha as [|c a Hc _ IH]; intros n Hn.
  - simpl in *. destruct n as [|n]; [lia|].
    cbn [star_loop run class_mem]. simpl negb.
    replace (Nat.ltb (length (q ++ b)) (length (")" :: q ++ b))) with true
      by (symmetry; apply Nat.ltb_lt; simpl; lia).
    now rewrite star_loop_plain.
  - change ((c :: a) ++ ")" :: q ++ b) with (c :: a ++ ")" :: q ++ b) in *.
    destruct n as [|n]; [simpl in Hn; lia|].
    cbn [star_loop run class_mem]. rewrite Hc. cbn [negb].
    replace (Nat.ltb (length (a ++ ")" :: q ++ b))
               (length (c :: a ++ ")" :: q ++ b))) with true
      by (symmetry; apply Nat.ltb_lt; simpl; lia).
    now rewrite IH by (simpl in Hn; lia).
Qed.

End MatcherRuns.

(** ** The scan on printed gates *)

Ltac not_in_list :=
  simpl; intros H;
  repeat (destruct H as [H|H]; [discriminate H|]); exact H.

Section ScanRuns.

Lemma fixed_first_char (m : pystr) :
  matches NP_ONEQ_GATES_REGEX m ->
  exists c r, m = c :: r /\ In c (chars "XYZH").
Proof.
  intros H. apply matches_fixed_gate in H
    as (nm & d & cs & Hn & _ & _ & ->). simpl in Hn.
  repeat (destruct Hn as [<-|Hn];
          [eexists _, _; split; [reflexivity|simpl; tauto]|]).
  contradiction.
Qed.

Lemma parametrized_first_char (m : pystr) :
  matches P_ONEQ_GATES_REGEX m ->
  exists c r, m = c :: r /\ In c (chars "PR").
Proof.
  intros H. apply matches_parametrized_gate in H
    as (nm & d & cs & p & Hn & _ & _ & ->).
  unfold parametrized_names in Hn. simpl in Hn.
  repeat (destruct Hn as [<-|Hn];
          [eexists _, _; split; [reflexivity|simpl; tauto]|]).
  contradiction.
Qed.

(** A pattern whose texts start with certain letters does not match at
    another character. *)
Lemma run_other_letter {A} (r : regex) (letters : pystr) (c : ascii)
    (s : pystr) (k : pystr -> option A) :
  (forall m, matches r m -> exists c' m', m = c' :: m' /\ In c' letters) ->
  ~ In c letters -> run r (c :: s) k = None.
Proof.
  intros Hr Hc. destruct (run r (c :: s) k) eqn:E; [|reflexivity].
  apply run_sound in E as (s1 & s2 & E & M & _).
  destruct (Hr _ M) as (c' & m' & -> & Hin).
  injection E as -> _. contradiction.
Qed.

Lemma no_match_at_other_char (c : ascii) (s : pystr) :
  ~ In c (chars "XYZHPRS") -> match_prefix gate_regex (c :: s) = None.
Proof.
  intros Hc. unfold match_prefix.
  apply (run_other_letter gate_regex (chars "XYZHPRS"));
    [apply gate_first_char|exact Hc].
Qed.

Lemma no_match_at_end : match_prefix gate_regex [] = None.
Proof. reflexivity. Qed.

Lemma run_digits_none {A} (t : pystr) (k : pystr -> option A) :
  no_digit_ahead t -> run digits t k = None.
Proof.
  intros H. unfold digits, Plus. rewrite run_Cat.
  destruct t as [|c t]; [reflexivity|]. simpl in H. simpl. now rewrite H.
Qed.

(** The pattern of X, Y, Z and H matches a printed gate of this kind, and
    what is left is the text after it. *)
Lemma match_fixed_gate (nm d : pystr) (cs : option (list pystr))
    (s : pystr) :
  In nm [chars "X"; chars "Y"; chars "Z"; chars "H"] ->
  printed_index d -> controls_given cs ->
  match_prefix gate_regex (print_fixed_gate nm d cs ++ s) = Some s.
Proof.
  intros Hn Hd Hc. unfold match_prefix, gate_regex. rewrite run_Alt.
  assert (E : run NP_ONEQ_GATES_REGEX (print_fixed_gate nm d cs ++ s)
                (fun rest => Some rest) = Some s); [|now rewrite E].
  unfold print_fixed_gate. rewrite <- !app_assoc.
  change NP_ONEQ_GATES_REGEX
    with (Seq [fixed_name; target_field; control_field; Lit (chars ")")]).
  rewrite run_Seq_cons, (run_fixed_name _ _ _ Hn).
  rewrite run_Seq_cons, (run_target_field _ _ _ Hd).
  rewrite run_Seq_cons, run_control_field; [|exact Hc|reflexivity|reflexivity].
  now rewrite run_Seq_cons, run_Lit.
Qed.

(** The control field of a SWAP, which may be printed without index. *)
Lemma run_swap_control_field {A} (cs : option (list pystr)) (s : pystr)
    (k : pystr -> option A) :
  printed_controls cs -> expects_bracket k ->
  run swap_control_field (print_control cs ++ ")" :: s) k = k (")" :: s).
Proof.
  intros Hc Hk. unfold swap_control_field, Opt. rewrite run_Alt.
  destruct cs as [ds|].
  - simpl in Hc. unfold print_control. rewrite <- !app_assoc.
    rewrite run_Seq_cons, run_Lit, run_Seq_cons.
    set (k1 := fun s' : pystr =>
                 run (Seq [Lit (chars ")")]) s' k).
    assert (K1 : expects_bracket k1).
    { intros c t Hcne. unfold k1. rewrite run_Seq_cons.
      now apply after_bracket_expects. }
    assert (R : run (Alt (Cat digits (Lit (chars ",")))
                       (Alt (Cat digits
                               (Plus (Cat (Lit (chars ", ")) digits)))
                          Eps))
                  (print_tuple ds ++ chars ")" ++ ")" :: s) k1
                = k1 (chars ")" ++ ")" :: s)).
    { destruct ds as [|d ds].
      - simpl print_tuple. simpl app.
        rewrite run_Alt, run_Cat, run_digits_none by reflexivity.
        rewrite run_Alt, run_Cat, run_digits_none by reflexivity.
        reflexivity.
      - pose proof (run_control_list (d :: ds) (")" :: s) k1) as L.
        unfold control_list in L. rewrite run_Alt in L.
        change (chars ")" ++ ")" :: s) with (")" :: ")" :: s).
        rewrite 2 run_Alt.
        destruct (run (Cat digits (Lit (chars ",")))
                    (print_tuple (d :: ds) ++ ")" :: ")" :: s) k1) eqn:E1.
        + now apply L.
        + rewrite L by (discriminate || assumption).
          destruct (k1 (")" :: ")" :: s)) eqn:E2; [reflexivity|].
          simpl run. inversion Hc as [|? ? [Hne Hd] _]; subst.
          destruct d as [|c d]; [contradiction|].
          inversion Hd as [|? ? Hcd _]; subst.
          destruct ds as [|d' ds'];
            apply K1; intros ->; discriminate Hcd. }
    rewrite R. unfold k1. rewrite run_Seq_cons, run_Lit, run_Seq_nil.
    destruct (k (")" :: s)) eqn:E; [reflexivity|].
    simpl run. apply Hk. discriminate.
  - simpl print_control. simpl app. rewrite run_Seq_cons. reflexivity.
Qed.

Lemma match_swap_gate (d1 d2 : pystr) (cs : option (list pystr))
    (s : pystr) :
  all_digits d1 -> all_digits d2 -> printed_controls cs ->
  match_prefix gate_regex (print_swap_gate d1 d2 cs ++ s) = Some s.
Proof.
  intros H1 H2 Hc. unfold match_prefix, gate_regex.
  unfold print_swap_gate. rewrite <- !app_assoc.
  match goal with |- context [chars "SWAP(target=(" ++ ?t] =>
    set (rest := t);
    assert (N1 : run NP_ONEQ_GATES_REGEX (chars "SWAP(target=(" ++ rest)
                   (fun r => Some r) = None)
      by (apply (run_other_letter NP_ONEQ_GATES_REGEX (chars "XYZH"));
          [apply fixed_first_char|not_in_list]);
    assert (N2 : run P_ONEQ_GATES_REGEX (chars "SWAP(target=(" ++ rest)
                   (fun r => Some r) = None)
      by (apply (run_other_letter P_ONEQ_GATES_REGEX (chars "PR"));
          [apply parametrized_first_char|not_in_list]);
    rewrite run_Alt, N1, run_Alt, N2; subst rest; clear N1 N2
  end.
  change SWAP_GATE_REGEX
    with (Seq [Lit (chars "SWAP(target=("); Star (Cls CDigit);
               Lit (chars ", "); Star (Cls CDigit); Lit (chars ")");
               swap_control_field; Lit (chars ")")]).
  change (chars "SWAP(target=(" ++ d1 ++ chars ", " ++ d2 ++ chars ")"
            ++ print_control cs ++ chars ")" ++ s)
    with (chars "SWAP(target=(" ++ d1 ++ chars ", " ++ d2 ++ chars ")"
            ++ print_control cs ++ ")" :: s).
  rewrite run_Seq_cons, run_Lit, run_Seq_cons.
  rewrite run_digit_star; [|exact H1|reflexivity|].
  - rewrite run_Seq_cons, run_Lit, run_Seq_cons.
    rewrite run_digit_star; [|exact H2|reflexivity|].
    + rewrite run_Seq_cons, run_Lit, run_Seq_cons.
      rewrite run_swap_control_field;
        [|exact Hc
         |intros c t Hcne; rewrite run_Seq_cons;
          now apply after_bracket_expects].
      rewrite run_Seq_cons.
      change (")" :: s) with (chars ")" ++ s). now rewrite run_Lit.
    + intros c t Hcd. rewrite run_Seq_cons. simpl.
      destruct (Ascii.eqb c ")") eqn:E; [|reflexivity].
      apply Ascii.eqb_eq in E. subst c. discriminate Hcd.
  - intros c t Hcd. rewrite run_Seq_cons. simpl.
    destruct (Ascii.eqb c ",") eqn:E; [|reflexivity].
    apply Ascii.eqb_eq in E. subst c. discriminate Hcd.
Qed.

Lemma run_parameter_text (p s : pystr) :
  printed_parameter p -> quiet_to_digit s ->
  run parameter_text (p ++ ")" :: s)
    (fun s' => run (Seq [Lit (chars ")")]) s' (fun rest => Some rest))
  = Some s.
Proof.
  intros Hp (q & b & -> & Hq & Hb). unfold parameter_text. rewrite run_Alt.
  set (kend := fun s' : pystr =>
                 run (Seq [Lit (chars ")")]) s' (fun rest => Some rest)).
  assert (K : expects_bracket kend).
  { intros c t Hc. unfold kend. rewrite run_Seq_cons.
    now apply after_bracket_expects. }
  destruct Hp as [Hp|(i & f & Hi & Hf & ->)].
  - assert (N : no_digit_ahead (p ++ ")" :: q ++ b)).
    { destruct p as [|c p]; [reflexivity|]. apply Hp. now left. }
    rewrite run_Seq_cons, (run_digits_none _ _ N), run_Star.
    apply star_loop_to_last_bracket; try assumption; try reflexivity.
    apply Forall_forall. intros a Ha. now apply Hp.
  - assert (E : run (Seq [digits; Cls CDot; Star (Cls CDigit)])
                  ((i ++ "." :: f) ++ ")" :: q ++ b) kend
                = Some (q ++ b)); [|now rewrite E].
    rewrite <- app_assoc. rewrite run_Seq_cons.
    apply run_digits_found; [exact Hi|reflexivity|].
    rewrite run_Seq_cons. change (("." :: f) ++ ")" :: q ++ b)
      with ("." :: f ++ ")" :: q ++ b).
    rewrite run_Cls by reflexivity. rewrite run_Seq_cons.
    rewrite run_digit_star; [reflexivity|exact Hf|reflexivity|].
    intros c' t Hc'. rewrite run_Seq_nil. apply K.
    intros ->. discriminate Hc'.
Qed.

(** The pattern of Phase, Rx, Ry and Rz matches a printed gate of this
    kind, up to the closing bracket of the gate, when the text after the
    gate has no closing bracket before its first digit. *)
Lemma match_parametrized_gate (nm d : pystr) (cs : option (list pystr))
    (p s : pystr) :
  In nm parametrized_names -> printed_index d -> controls_given cs ->
  printed_parameter p -> quiet_to_digit s ->
  match_prefix gate_regex (print_parametrized_gate nm d cs p ++ s) = Some s.
Proof.
  intros Hn Hd Hc Hp Hs. unfold match_prefix, gate_regex.
  assert (N1 : run NP_ONEQ_GATES_REGEX
                 (print_parametrized_gate nm d cs p ++ s)
                 (fun r => Some r) = None).
  { unfold print_parametrized_gate. rewrite <- !app_assoc.
    unfold parametrized_names in Hn. simpl in Hn.
    repeat (destruct Hn as [<-|Hn];
            [apply (run_other_letter NP_ONEQ_GATES_REGEX (chars "XYZH"));
             [apply fixed_first_char|not_in_list]|]).
    contradiction. }
  rewrite run_Alt, N1, run_Alt.
  assert (E : run P_ONEQ_GATES_REGEX
                (print_parametrized_gate nm d cs p ++ s)
                (fun r => Some r) = Some s); [|now rewrite E].
  unfold print_parametrized_gate. rewrite <- !app_assoc.
  change P_ONEQ_GATES_REGEX
    with (Seq [parametrized_name; target_field; control_field;
               Lit (chars ", parameter="); parameter_text;
               Lit (chars ")")]).
  rewrite run_Seq_cons, (run_parametrized_name _ _ _ Hn).
  rewrite run_Seq_cons, (run_target_field _ _ _ Hd).
  rewrite run_Seq_cons, run_control_field; [|exact Hc|reflexivity|reflexivity].
  rewrite run_Seq_cons, run_Lit, run_Seq_cons.
  change (p ++ chars ")" ++ s) with (p ++ ")" :: s).
  now apply run_parameter_text.
Qed.

End ScanRuns.

(** ** Reading a printed circuit *)

Section PrintedCircuit.

Lemma findall_skip (r : regex) (fuel : nat) (c : ascii) (s : pystr) :
  match_prefix r (c :: s) = None ->
  findall_from (S fuel) r (c :: s) = findall_from fuel r s.
Proof. intros H. simpl. now rewrite H. Qed.

Lemma findall_hit (r : regex) (fuel : nat) (m rest : pystr) :
  m <> [] -> match_prefix r (m ++ rest) = Some rest ->
  findall_from (S fuel) r (m ++ rest) = m :: findall_from fuel r rest.
Proof.
  intros Hm H. cbn [findall_from]. rewrite H, firstn_matched.
  destruct m as [|a m]; [contradiction|reflexivity].
Qed.

Lemma findall_skip_clean (h s : pystr) (fuel : nat) :
  no_gate_letter h ->
  findall_from (length h + fuel) gate_regex (h ++ s)
  = findall_from fuel gate_regex s.
Proof.
  induction h as [|c h IH]; intros H; [reflexivity|].
  change (length (c :: h) + fuel) with (S (length h + fuel)).
  change ((c :: h) ++ s) with (c :: h ++ s).
  rewrite findall_skip.
  - apply IH. intros a Ha. apply H. now right.
  - apply no_match_at_other_char. apply H. now left.
Qed.

Lemma plain_name (nm : pystr) :
  In nm supported_names -> plain_text (nm ++ chars "(target=(").
Proof.
  unfold supported_names. simpl. intros H a Ha.
  repeat (destruct H as [<-|H];
          [simpl in Ha;
           repeat (destruct Ha as [<-|Ha];
                   [split; [reflexivity|discriminate]|]);
           contradiction|]).
  contradiction.
Qed.

Lemma quiet_after_name (nm d rest : pystr) :
  In nm supported_names -> printed_index d ->
  quiet_to_digit (newline :: nm ++ chars "(target=(" ++ d ++ rest).
Proof.
  intros Hn [Hne Hd]. exists (newline :: nm ++ chars "(target=("), (d ++ rest).
  split; [simpl; now rewrite <- !app_assoc|]. split.
  - intros a [<-|Ha]; [split; [reflexivity|discriminate]|].
    now apply (plain_name nm).
  - destruct d as [|c d]; [contradiction|]. now inversion Hd.
Qed.

(** After a gate, the lines that follow have no closing bracket before
    their first digit. *)
Lemma quiet_lines (gs : list printed_gate) :
  Forall well_printed gs -> quiet_to_digit (newline :: print_lines gs).
Proof.
  intros H. destruct H as [|g gs Hg _].
  - exists [newline], []. split; [reflexivity|]. split; [|exact I].
    intros a [<-|[]]. split; [reflexivity|discriminate].
  - unfold print_lines. cbn [map concat]. rewrite <- app_assoc.
    destruct g as [nm d cs|nm d cs p|d1 d2 cs]; simpl in Hg.
    + destruct Hg as (Hn & Hd & _). unfold print_gate, print_fixed_gate.
      rewrite <- !app_assoc. apply quiet_after_name; [|exact Hd].
      unfold supported_names. simpl in *. tauto.
    + destruct Hg as (Hn & Hd & _).
      unfold print_gate, print_parametrized_gate.
      rewrite <- !app_assoc. apply quiet_after_name; [|exact Hd].
      unfold supported_names, parametrized_names in *. simpl in *. tauto.
    + destruct Hg as (Hd & _). unfold print_gate, print_swap_gate.
      rewrite <- !app_assoc.
      apply (quiet_after_name (chars "SWAP")); [|exact Hd].
      unfold supported_names. simpl. tauto.
Qed.

Lemma print_gate_nonempty (g : printed_gate) :
  well_printed g -> exists c m, print_gate g = c :: m.
Proof.
  destruct g as [nm d cs|nm d cs p|d1 d2 cs]; simpl.
  - intros (Hn & _). simpl in Hn.
    repeat (destruct Hn as [<-|Hn]; [eexists _, _; reflexivity|]).
    contradiction.
  - intros (Hn & _). unfold parametrized_names in Hn. simpl in Hn.
    repeat (destruct Hn as [<-|Hn]; [eexists _, _; reflexivity|]).
    contradiction.
  - intros _. eexists _, _. reflexivity.
Qed.

Lemma controls_given_printed (cs : option (list pystr)) :
  controls_given cs -> printed_controls cs.
Proof. destruct cs as [ds|]; [now intros [_ H]|trivial]. Qed.

(** The pattern matches a printed gate at the start of its line, and what
    is left is the end of the line and the lines that follow. *)
Lemma match_printed_gate (g : printed_gate) (gs : list printed_gate) :
  well_printed g -> Forall well_printed gs ->
  match_prefix gate_regex (print_gate g ++ newline :: print_lines gs)
  = Some (newline :: print_lines gs).
Proof.
  intros Hg Hgs. destruct g as [nm d cs|nm d cs p|d1 d2 cs]; simpl in Hg.
  - destruct Hg as (Hn & Hd & Hc). now apply match_fixed_gate.
  - destruct Hg as (Hn & Hd & Hc & Hp).
    apply match_parametrized_gate; try assumption. now apply quiet_lines.
  - destruct Hg as (H1 & H2 & Hc).
    apply match_swap_gate; [apply H1|apply H2|exact Hc].
Qed.

(** The scan of the lines of a printed circuit finds its gates, each as
    it is printed, in their order. *)
Lemma findall_lines (gs : list printed_gate) :
  Forall well_printed gs ->
  forall fuel, length (print_lines gs) < fuel ->
  findall_from fuel gate_regex (print_lines gs) = map print_gate gs.
Proof.
  induction 1 as [|g gs Hg Hgs IH]; intros fuel Hf.
  - destruct fuel as [|fuel]; [simpl in Hf; lia|reflexivity].
  - unfold print_lines in *. cbn [map concat] in *.
    rewrite <- app_assoc in *. fold (print_lines gs) in *.
    change ([newline] ++ print_lines gs) with (newline :: print_lines gs) in *.
    destruct (print_gate_nonempty g Hg) as (c & m & Eg).
    rewrite length_app in Hf. rewrite Eg in Hf. simpl in Hf.
    destruct fuel as [|fuel]; [lia|].
    rewrite findall_hit;
      [|rewrite Eg; discriminate|now apply match_printed_gate].
    destruct fuel as [|fuel]; [lia|].
    rewrite findall_skip by (apply no_match_at_other_char; not_in_list).
    rewrite IH by lia. reflexivity.
Qed.

Lemma scan_found (h : pystr) (gs : list printed_gate) :
  no_gate_letter h -> Forall well_printed gs ->
  findall gate_regex (h ++ print_lines gs) = map print_gate gs.
Proof.
  intros Hh Hgs. unfold findall. rewrite length_app.
  replace (S (length h + length (print_lines gs)))
    with (length h + S (length (print_lines gs))) by lia.
  rewrite findall_skip_clean by exact Hh.
  apply findall_lines; [exact Hgs|lia].
Qed.

(** X28: the scan of a printed circuit, after a header without the capital
    letters of the gate names, finds exactly the gates of the circuit: as
    many, each as it is printed, in the order of the lines. *)
Theorem scan_finds_printed_gates (h : pystr) (gs : list printed_gate) :
  no_gate_letter h -> Forall well_printed gs ->
  findall gate_regex (h ++ print_lines gs) = map print_gate gs.
Proof. apply scan_found. Qed.

Lemma sample_header_has_no_gate_letter :
  no_gate_letter (chars "circuit: " ++ [newline]).
Proof.
  intros c Hc. simpl in Hc.
  repeat (destruct Hc as [<-|Hc]; [not_in_list|]). contradiction.
Qed.

Lemma sample_gates_well_printed : Forall well_printed three_printed_gates.
Proof.
  assert (D : forall c, isdigit c = true -> printed_index [c]).
  { intros c Hc. split; [discriminate|]. constructor; [exact Hc|constructor]. }
  constructor; [|constructor; [|constructor; [|constructor]]].
  - split; [simpl; tauto|]. split; [now apply D|exact I].
  - split; [unfold parametrized_names; simpl; tauto|].
    split; [now apply D|]. split; [exact I|].
    right. exists (chars "0"), (chars "5").
    split; [now apply D|]. split; [|reflexivity].
    constructor; [reflexivity|constructor].
  - split; [simpl; tauto|]. split; [now apply D|].
    split; [discriminate|]. constructor; [now apply D|constructor].
Qed.

Lemma scan_finds_printed_gates_witness :
  findall gate_regex three_gates
  = [chars "H(target=(0,))"; chars "Rx(target=(1,), parameter=0.5)";
     chars "X(target=(2,), control=(0,))"].
Proof.
  apply (scan_finds_printed_gates (chars "circuit: " ++ [newline])
           three_printed_gates).
  - exact sample_header_has_no_gate_letter.
  - exact sample_gates_well_printed.
Defined.

Lemma printed_parameter_no_bracket (p : pystr) :
  printed_parameter p -> up_to_bracket p = p.
Proof.
  intros H. unfold up_to_bracket. rewrite split_no_sep; [reflexivity|].
  destruct H as [H|(i & f & [_ Hi] & Hf & ->)].
  - intros Hin. now destruct (H _ Hin).
  - intros Hin. apply in_app_or in Hin as [Hin|[Hin|Hin]].
    + revert Hin. apply digit_in; [exact Hi|reflexivity].
    + discriminate Hin.
    + revert Hin. apply digit_in; [exact Hf|reflexivity].
Qed.

Lemma record_of_printed_gate (g : printed_gate) :
  well_printed g -> parameter_clear g ->
  gate_string_to_dict (print_gate g) = Ok (record_of_printed g).
Proof.
  destruct g as [nm d cs|nm d cs p|d1 d2 cs]; simpl; intros Hg Hp.
  - destruct Hg as (Hn & Hd & Hc).
    apply read_fixed_gate; auto using controls_given_printed.
  - destruct Hg as (Hn & Hd & Hc & Hpar).
    rewrite <- (printed_parameter_no_bracket p Hpar) at 2.
    apply read_parametrized_gate; auto using controls_given_printed.
    intros ->. exact Hp.
  - destruct Hg as (H1 & H2 & Hc). now apply read_swap_gate.
Qed.

Lemma records_of_printed_gates (gs : list printed_gate) :
  Forall well_printed gs -> Forall parameter_clear gs ->
  comprehension gate_string_to_dict (map print_gate gs)
  = Ok (map record_of_printed gs).
Proof.
  induction 1 as [|g gs Hg _ IH]; intros Hp; [reflexivity|].
  inversion Hp as [|? ? Hpg Hps]; subst. simpl.
  now rewrite (record_of_printed_gate g Hg Hpg), (IH Hps).
Qed.

Lemma gate_of_printed_record (g : printed_gate) :
  well_printed g -> targets_apart g ->
  gate_from_gate_dict (record_of_printed g) = Ok (Some [gate_of_printed g]).
Proof.
  intros Hg Ha. unfold targets_apart in Ha.
  apply same_control_and_target_disjoint in Ha.
  unfold gate_from_gate_dict. rewrite Ha.
  destruct g as [nm d cs|nm d cs p|d1 d2 cs]; simpl in Hg.
  - destruct Hg as (Hn & _). simpl in Hn.
    repeat (destruct Hn as [<-|Hn]; [reflexivity|]). contradiction.
  - destruct Hg as (Hn & _). unfold parametrized_names in Hn. simpl in Hn.
    repeat (destruct Hn as [<-|Hn]; [reflexivity|]). contradiction.
  - reflexivity.
Qed.

Lemma append_printed_gates (gs : list printed_gate) :
  Forall well_printed gs -> Forall targets_apart gs ->
  forall c0, append_gates (Some c0) (map record_of_printed gs)
             = Ok (Some (c0 ++ map gate_of_printed gs)).
Proof.
  induction 1 as [|g gs Hg _ IH]; intros Ha c0.
  - simpl. now rewrite app_nil_r.
  - inversion Ha as [|? ? Hag Has]; subst. simpl.
    rewrite (gate_of_printed_record g Hg Hag). simpl.
    rewrite (IH Has). now rewrite <- app_assoc.
Qed.

Section ReadBack.

Variable cmr : list regex -> pystr -> pystr -> bool.

(** X29: a printed circuit is read back: for a text that the validator
    accepts, made of a header and the lines of one printed gate and more,
    where no target is among the controls of its gate and no parameter
    name of a gate without controls contains "control",
    [circuit_from_string] returns the circuit of exactly these gates, in
    the order of the lines. *)
Theorem printed_circuit_is_read_back (h : pystr) (gs : list printed_gate) :
  validate_circuit_syntax cmr (h ++ print_lines gs) = true ->
  no_gate_letter h -> gs <> [] ->
  Forall well_printed gs -> Forall parameter_clear gs ->
  Forall targets_apart gs ->
  circuit_from_string cmr (h ++ print_lines gs)
  = Ok (Some (map gate_of_printed gs)).
Proof.
  intros V Hh Hne Hw Hp Ha. unfold circuit_from_string. rewrite V.
  cbn [negb]. rewrite (scan_found h gs Hh Hw).
  rewrite (records_of_printed_gates gs Hw Hp). cbn [bind].
  destruct gs as [|g gs]; [contradiction|].
  inversion Hw as [|? ? Hwg Hws]; subst.
  inversion Ha as [|? ? Hag Has]; subst.
  cbn [map]. rewrite (gate_of_printed_record g Hwg Hag). cbn [bind].
  now rewrite (append_printed_gates gs Hws Has).
Qed.

End ReadBack.

Lemma printed_circuit_is_read_back_witness :
  circuit_from_string create_multiline_regex three_gates
  = Ok (Some
          [Fixed (chars "H") [0%Z] None;
           Rotation (chars "Rx") (Some (PFloat (FDec false 5 (-1)))) [1%Z]
             None;
           Fixed (chars "X") [2%Z] (Some [0%Z])]).
Proof.
  apply (printed_circuit_is_read_back create_multiline_regex
           (chars "circuit: " ++ [newline]) three_printed_gates).
  - vm_compute. reflexivity.
  - exact sample_header_has_no_gate_letter.
  - discriminate.
  - exact sample_gates_well_printed.
  - repeat constructor.
  - repeat constructor; intros (c & q & Hc & Hq & Hin); simpl in *;
      try discriminate Hc.
    injection Hc as <-. destruct Hq as [<-|[]].
    destruct Hin as [Hin|[]]. discriminate Hin.
Defined.

End PrintedCircuit.

(** ** Parameters that the grammar leaves out *)

Section SignedParameters.

Lemma swap_first_char (m : pystr) :
  matches SWAP_GATE_REGEX m -> exists c r, m = c :: r /\ In c (chars "S").
Proof.
  intros H. apply matches_swap_gate in H as (d1 & d2 & cs & _ & _ & _ & ->).
  eexists _, _. split; [reflexivity|simpl; tauto].
Qed.

(** No pattern matches, at its start, a gate whose parameter text is a
    minus sign before a digit. *)
Lemma no_match_signed (nm d : pystr) (cs : option (list pystr)) (c : ascii)
    (rest s : pystr) :
  In nm parametrized_names -> printed_index d -> controls_given cs ->
  isdigit c = true ->
  match_prefix gate_regex
    (print_parametrized_gate nm d cs ("-" :: c :: rest) ++ s) = None.
Proof.
  intros Hn Hd Hc Hdig. unfold match_prefix, gate_regex.
  assert (N1 : run NP_ONEQ_GATES_REGEX
                 (print_parametrized_gate nm d cs ("-" :: c :: rest) ++ s)
                 (fun r => Some r) = None).
  { unfold print_parametrized_gate. rewrite <- !app_assoc.
    pose proof Hn as Hn'. unfold parametrized_names in Hn'. simpl in Hn'.
    repeat (destruct Hn' as [<-|Hn'];
            [apply (run_other_letter NP_ONEQ_GATES_REGEX (chars "XYZH"));
             [apply fixed_first_char|not_in_list]|]).
    contradiction. }
  assert (N3 : run SWAP_GATE_REGEX
                 (print_parametrized_gate nm d cs ("-" :: c :: rest) ++ s)
                 (fun r => Some r) = None).
  { unfold print_parametrized_gate. rewrite <- !app_assoc.
    pose proof Hn as Hn'. unfold parametrized_names in Hn'. simpl in Hn'.
    repeat (destruct Hn' as [<-|Hn'];
            [apply (run_other_letter SWAP_GATE_REGEX (chars "S"));
             [apply swap_first_char|not_in_list]|]).
    contradiction. }
  rewrite run_Alt, N1, run_Alt, N3.
  assert (E : run P_ONEQ_GATES_REGEX
                (print_parametrized_gate nm d cs ("-" :: c :: rest) ++ s)
                (fun r => Some r) = None); [|now rewrite E].
  unfold print_parametrized_gate. rewrite <- !app_assoc.
  change P_ONEQ_GATES_REGEX
    with (Seq [parametrized_name; target_field; control_field;
               Lit (chars ", parameter="); parameter_text;
               Lit (chars ")")]).
  rewrite run_Seq_cons, (run_parametrized_name _ _ _ Hn).
  rewrite run_Seq_cons, (run_target_field _ _ _ Hd).
  rewrite run_Seq_cons, run_control_field; [|exact Hc|reflexivity|reflexivity].
  rewrite run_Seq_cons, run_Lit, run_Seq_cons.
  unfold parameter_text. rewrite run_Alt.
  rewrite run_Seq_cons, run_digits_none by reflexivity.
  rewrite run_Star.
  change (("-" :: c :: rest) ++ chars ")" ++ s)
    with (["-"%char] ++ (c :: rest ++ chars ")" ++ s)).
  apply star_loop_plain.
  - intros a [<-|[]]. split; [reflexivity|discriminate].
  - exact Hdig.
  - intros a t Ha. rewrite run_Seq_cons. now apply after_bracket_expects.
  - reflexivity.
Qed.

Lemma no_gate_letter_app (a b : pystr) :
  no_gate_letter a -> no_gate_letter b -> no_gate_letter (a ++ b).
Proof.
  intros Ha Hb c Hc. apply in_app_or in Hc as [Hc|Hc]; auto.
Qed.

Lemma no_gate_letter_digits (d : pystr) : all_digits d -> no_gate_letter d.
Proof.
  intros Hd c Hc Hin. unfold all_digits in Hd. rewrite Forall_forall in Hd.
  specialize (Hd _ Hc). simpl in Hin.
  repeat (destruct Hin as [<-|Hin]; [discriminate Hd|]). contradiction.
Qed.

Lemma no_gate_letter_join (ds : list pystr) :
  Forall printed_index ds -> no_gate_letter (join (chars ", ") ds).
Proof.
  induction 1 as [|d ds [_ Hd] _ IH]; [intros c []|].
  destruct ds as [|d' ds'].
  - now apply no_gate_letter_digits.
  - change (join (chars ", ") (d :: d' :: ds'))
      with (d ++ chars ", " ++ join (chars ", ") (d' :: ds')).
    apply no_gate_letter_app; [now apply no_gate_letter_digits|].
    apply no_gate_letter_app; [|exact IH].
    intros c Hc. simpl in Hc.
    repeat (destruct Hc as [<-|Hc]; [not_in_list|]). contradiction.
Qed.

Lemma no_gate_letter_control (cs : option (list pystr)) :
  controls_given cs -> no_gate_letter (print_control cs).
Proof.
  destruct cs as [ds|]; [|intros _ c []]. intros [_ Hds].
  unfold print_control. apply no_gate_letter_app.
  - intros c Hc. simpl in Hc.
    repeat (destruct Hc as [<-|Hc]; [not_in_list|]). contradiction.
  - apply no_gate_letter_app.
    + destruct ds as [|d [|d' ds']].
      * intros c [].
      * inversion Hds as [|? ? [_ Hd] _]; subst. simpl print_tuple.
        apply no_gate_letter_app; [now apply no_gate_letter_digits|].
        intros c [<-|[]]. not_in_list.
      * now apply no_gate_letter_join.
    + intros c [<-|[]]. not_in_list.
Qed.

Lemma scan_of_signed_parameter (h nm d : pystr) (cs : option (list pystr))
    (i f : pystr) :
  no_gate_letter h -> In nm parametrized_names -> printed_index d ->
  controls_given cs -> printed_index i -> all_digits f ->
  findall gate_regex
    (h ++ print_parametrized_gate nm d cs ("-" :: i ++ "." :: f)
       ++ [newline]) = [].
Proof.
  intros Hh Hn Hd Hc [Hi0 Hi] Hf.
  destruct i as [|c i]; [contradiction|].
  inversion Hi as [|? ? Hcd Hi']; subst.
  unfold findall. rewrite length_app.
  match goal with |- findall_from (S (_ + ?n)) _ _ = _ =>
    replace (S (length h + n)) with (length h + S n) by lia end.
  rewrite findall_skip_clean by exact Hh.
  assert (M := no_match_signed nm d cs c (i ++ "." :: f) [newline]
                 Hn Hd Hc Hcd).
  change ("-" :: (c :: i) ++ "." :: f) with ("-" :: c :: i ++ "." :: f).
  set (g := print_parametrized_gate nm d cs ("-" :: c :: i ++ "." :: f))
    in *.
  assert (T : exists a t, g ++ [newline] = a :: t /\ no_gate_letter t).
  { unfold g, print_parametrized_gate. rewrite <- !app_assoc.
    assert (L : forall a nm',
               no_gate_letter nm' ->
               exists a0 t,
                 (a :: nm') ++ chars "(target=(" ++ d ++ chars ",)"
                   ++ print_control cs ++ chars ", parameter="
                   ++ ("-" :: c :: i ++ "." :: f) ++ chars ")" ++ [newline]
                 = a0 :: t /\ no_gate_letter t).
    { intros a nm' Hnm. eexists _, _. split; [reflexivity|].
      apply no_gate_letter_app; [exact Hnm|].
      apply no_gate_letter_app;
        [intros x Hx; simpl in Hx;
         repeat (destruct Hx as [<-|Hx]; [not_in_list|]); contradiction|].
      apply no_gate_letter_app; [apply no_gate_letter_digits, Hd|].
      apply no_gate_letter_app;
        [intros x Hx; simpl in Hx;
         repeat (destruct Hx as [<-|Hx]; [not_in_list|]); contradiction|].
      apply no_gate_letter_app; [now apply no_gate_letter_control|].
      apply no_gate_letter_app;
        [intros x Hx; simpl in Hx;
         repeat (destruct Hx as [<-|Hx]; [not_in_list|]); contradiction|].
      apply no_gate_letter_app;
        [|intros x Hx; simpl in Hx;
          repeat (destruct Hx as [<-|Hx]; [not_in_list|]); contradiction].
      change ("-" :: c :: i ++ "." :: f)
        with (["-"%char] ++ (c :: i) ++ ["."%char] ++ f).
      apply no_gate_letter_app; [intros x [<-|[]]; not_in_list|].
      apply no_gate_letter_app;
        [apply no_gate_letter_digits; now constructor|].
      apply no_gate_letter_app; [intros x [<-|[]]; not_in_list|].
      now apply no_gate_letter_digits. }
    unfold parametrized_names in Hn. simpl in Hn.
    repeat (destruct Hn as [<-|Hn];
            [apply L; intros x Hx; simpl in Hx;
             repeat (destruct Hx as [<-|Hx]; [not_in_list|]);
             contradiction|]).
    contradiction. }
  destruct T as (a & t & E & Ht). rewrite E in M |- *.
  rewrite findall_skip by exact M.
  assert (F : findall_from (length t + 1) gate_regex (t ++ []) = [])
    by now rewrite findall_skip_clean.
  rewrite app_nil_r in F.
  replace (length t + 1) with (length (a :: t)) in F by (simpl; lia).
  exact F.
Qed.

Variable cmr : list regex -> pystr -> pystr -> bool.

(** X30: a gate with a negative parameter is not read: in a text made of a
    header without the capital letters of the gate names and the line of
    a Phase, Rx, Ry or Rz whose parameter is a minus sign and a decimal
    number, the scan finds no gate, so that [circuit_from_string] raises
    InvalidSyntaxError or returns [None], as the validator decides, and
    never a circuit. *)
Theorem negative_parameter_is_not_read (h nm d : pystr)
    (cs : option (list pystr)) (i f : pystr) :
  no_gate_letter h -> In nm parametrized_names -> printed_index d ->
  controls_given cs -> printed_index i -> all_digits f ->
  let text := h ++ print_parametrized_gate nm d cs ("-" :: i ++ "." :: f)
                ++ [newline] in
  findall gate_regex text = [] /\
  circuit_from_string cmr text
  = if validate_circuit_syntax cmr text then Ok None
    else Err InvalidSyntaxError.
Proof.
  intros Hh Hn Hd Hc Hi Hf text.
  assert (F : findall gate_regex text = [])
    by now apply scan_of_signed_parameter.
  split; [exact F|]. unfold circuit_from_string. rewrite F.
  now destruct (validate_circuit_syntax cmr text).
Qed.

End SignedParameters.

Lemma negative_parameter_is_not_read_witness :
  findall gate_regex
    (chars "circuit: " ++ [newline] ++ chars "Rx(target=(0,), parameter=-0.5)"
       ++ [newline]) = [] /\
  circuit_from_string create_multiline_regex
    (chars "circuit: " ++ [newline] ++ chars "Rx(target=(0,), parameter=-0.5)"
       ++ [newline]) = Err InvalidSyntaxError.
Proof.
  apply (negative_parameter_is_not_read create_multiline_regex
           (chars "circuit: " ++ [newline]) (chars "Rx") (chars "0") None
           (chars "0") (chars "5")).
  - exact sample_header_has_no_gate_letter.
  - unfold parametrized_names. simpl. tauto.
  - split; [discriminate|repeat constructor].
  - exact I.
  - split; [discriminate|repeat constructor].
  - repeat constructor.
Defined.
